(** * A shallow embedding of the ip6calc IPv6 library (package ipv6).

    The model follows [ipv6.go]: an [Address] wraps a [net.IP] byte slice that
    is either the 16-byte big-endian value of the address or [nil] (the Go zero
    value [Address{}]); a [CIDR] is a record of a base address and a prefix
    length.  Go panics (index out of range, explicit [panic], [FillBytes] on a
    too large value) are the [None] of the option monad [M]; Go error results
    are kept as the [(value, error)] pairs of the source, so that the places
    where the code discards an error with [_] can be modelled as they are. *)

From Stdlib Require Import Ascii String.
From Stdlib Require Import ZArith Lia List Bool.
Import ListNotations.
Open Scope Z_scope.

(** ** The panic monad *)

Definition M (A : Type) : Type := option A.
Definition ret {A} (a : A) : M A := Some a.
Definition panic {A} : M A := None.

Notation "x <- m ;; k" := (match m with Some x => k | None => None end)
  (at level 61, m at next level, right associativity).
Notation "' p <- m ;; k" := (match m with Some p => k | None => None end)
  (at level 61, p pattern, m at next level, right associativity).

(** ** Constants and sentinel errors *)

Inductive Err :=
| ErrInvalidAddress
| ErrInvalidCIDR
| ErrInvalidPrefix
| ErrInvalidSplitPrefix
| ErrSplitExcessive
| ErrInvalidRange     (* errors.New("ipv6: invalid range") in CoverRange *)
| ErrEmptyList.       (* errors.New("ipv6: empty list") in Supernet *)

Definition ByteLen : Z := 16.
Definition BitLen : Z := 128.
Definition MaxSplitParts : Z := Z.shiftl 1 20.

Definition two64 : Z := 2 ^ 64.
Definition two128 : Z := 2 ^ 128.

(** ** Addresses *)

(** [Address{ip}]: [Some v] is a 16-byte [ip] whose big-endian value is
    [v] (with [0 <= v < 2^128]); [None] is the [nil] slice of [Address{}]. *)
Definition Address : Type := option Z.

(** [net.IP.To4] on a 16-byte slice is non-nil exactly when bytes 0..9 are
    zero and bytes 10 and 11 are [0xff] (the IPv4-mapped form
    [::ffff:a.b.c.d]), i.e. when the value shifted right by 32 is [0xffff]. *)
Definition is_v4mapped (v : Z) : bool := Z.shiftr v 32 =? 65535.

(** [NewAddress] on a 16-byte [net.IP] of value [v]: [To16] is the identity
    on 16-byte slices, [To4] rejects the IPv4-mapped form. *)
Definition NewAddress (v : Z) : Address * option Err :=
  if is_v4mapped v then (None, Some ErrInvalidAddress) else (Some v, None).

(** [BigInt]: [SetBytes] of the slice; the empty slice gives 0. *)
Definition BigInt (a : Address) : Z :=
  match a with Some v => v | None => 0 end.

(** [big.Int.BitLen] of a non-negative integer. *)
Definition BitLenZ (x : Z) : Z := if x =? 0 then 0 else Z.log2 x + 1.

(** [AddressFromBigInt]: range check, [FillBytes] into 16 bytes, [NewAddress]. *)
Definition AddressFromBigInt (v : Z) : Address * option Err :=
  if (v <? 0) || (128 <? BitLenZ v) then (None, Some ErrInvalidAddress)
  else NewAddress v.

(** [hiLo] indexes [a.ip[0..15]]: it panics on the [nil] slice. *)
Definition hiLo (a : Address) : M (Z * Z) :=
  match a with
  | Some v => ret (Z.shiftr v 64, Z.land v (two64 - 1))
  | None => panic
  end.

(** [fromHiLo]: the 16 bytes of [hi] and [lo]; the error of [NewAddress] is
    discarded ([addr, _ := NewAddress(b)]). *)
Definition fromHiLo (hi lo : Z) : Address :=
  fst (NewAddress (Z.lor (Z.shiftl (hi mod two64) 64) (lo mod two64))).

(** [bytesCompare] of the two slices (lengths 16 or 0). *)
Definition Compare (a b : Address) : comparison :=
  match a, b with
  | Some x, Some y => Z.compare x y
  | None, Some _ => Lt
  | Some _, None => Gt
  | None, None => Eq
  end.

(** [FillBytes(make([]byte,16))] on [v]: writes [|v|], panics when it does not
    fit; followed by [NewAddress] with its error discarded. *)
Definition fill16 (v : Z) : M Address :=
  if two128 <=? Z.abs v then panic else ret (fst (NewAddress (Z.abs v))).

(** The body of [Add] for a non-negative [delta]. *)
Definition Add_fast (a : Address) (d : Z) : M Address :=
  '(hi, lo) <- hiLo a ;;
  let lo2 := (lo + d) mod two64 in
  let carry := if lo2 <? lo then 1 else 0 in
  let hi := (hi + carry) mod two64 in
  ret (fromHiLo hi lo2).

Definition Add_big (a : Address) (d : Z) : M Address :=
  let v := (BigInt a + d) mod two128 in
  fill16 v.

Definition Add_nonneg (a : Address) (d : Z) : M Address :=
  if BitLenZ d <=? 64 then Add_fast a d else Add_big a d.

(** The body of [Sub] for a non-negative [delta]. *)
Definition Sub_fast (a : Address) (d : Z) : M Address :=
  '(hi, lo) <- hiLo a ;;
  if d <=? lo then ret (fromHiLo hi (lo - d))
  else ret (fromHiLo ((hi - 1) mod two64) ((lo - d) mod two64)).

Definition Sub_big (a : Address) (d : Z) : M Address :=
  let v := BigInt a - d in
  let v := if v <? 0 then v + two128 else v in
  fill16 v.

Definition Sub_nonneg (a : Address) (d : Z) : M Address :=
  if BitLenZ d <=? 64 then Sub_fast a d else Sub_big a d.

(** [Add]: a negative delta goes to [Sub] with [|delta|], which is then
    non-negative, so [Sub]'s own sign test falls through to its body. *)
Definition Add (a : Address) (delta : Z) : M Address :=
  if delta <? 0 then Sub_nonneg a (Z.abs delta) else Add_nonneg a delta.

Definition Sub (a : Address) (delta : Z) : M Address :=
  if delta <? 0 then Add_nonneg a (Z.abs delta) else Sub_nonneg a delta.

(** ** The mask table *)

(** Byte [i] of [maskTable[plen]], as computed in [init]: [0xff << (8 -
    bitsLeft)] is truncated by [byte(...)]. *)
Definition mask_byte (plen i : Z) : Z :=
  let bitsLeft := plen - i * 8 in
  if 8 <=? bitsLeft then 255
  else if 0 <? bitsLeft then (Z.shiftl 255 (8 - bitsLeft)) mod 256
  else 0.

(** [maskTable[plen]] read as a big-endian 128-bit value. *)
Definition maskTable (plen : Z) : Z :=
  fold_left (fun acc i => acc * 256 + mask_byte plen i)
    (map Z.of_nat (seq 0 16)) 0.

(** [Mask]: explicit panic on a bad prefix; on the [nil] slice the loop
    [b[i] &= m[i]] panics (index out of range); the error of the final
    [NewAddress] is discarded. *)
Definition Mask (a : Address) (plen : Z) : M Address :=
  if (plen <? 0) || (BitLen <? plen) then panic
  else match a with
       | None => panic
       | Some v => ret (fst (NewAddress (Z.land v (maskTable plen))))
       end.

(** ** Networks *)

Record CIDR := mkCIDR { base : Address; plen : Z }.

(** The zero value [CIDR{}]. *)
Definition CIDR0 : CIDR := mkCIDR None 0.

Definition NewCIDR (a : Address) (p : Z) : M (CIDR * option Err) :=
  if (p <? 0) || (128 <? p) then ret (CIDR0, Some ErrInvalidPrefix)
  else b <- Mask a p ;; ret (mkCIDR b p, None).

(** [HostCount]: [1 << (128 - plen)]. *)
Definition HostCount (c : CIDR) : Z := Z.shiftl 1 (128 - plen c).

Definition FirstHost (c : CIDR) : Address := base c.

Definition LastHost (c : CIDR) : M Address :=
  fill16 (BigInt (base c) + HostCount c - 1).

Definition ContainsAddress (c : CIDR) (a : Address) : M bool :=
  m <- Mask a (plen c) ;; ret (match Compare (base c) m with Eq => true | _ => false end).

Definition ContainsCIDR (c o : CIDR) : M bool :=
  if plen c <=? plen o then ContainsAddress c (base o) else ret false.

Definition Overlaps (c o : CIDR) : M bool :=
  let cStart := BigInt (FirstHost c) in
  cEnd <- LastHost c ;;
  let oStart := BigInt (FirstHost o) in
  oEnd <- LastHost o ;;
  ret ((cStart <=? BigInt oEnd) && (oStart <=? BigInt cEnd)).

Definition Next (c : CIDR) : M CIDR :=
  addr <- Add (base c) (HostCount c) ;;
  '(res, _) <- NewCIDR addr (plen c) ;;
  ret res.

Definition Prev (c : CIDR) : M CIDR :=
  addr <- Sub (base c) (HostCount c) ;;
  '(res, _) <- NewCIDR addr (plen c) ;;
  ret res.

(** ** Split and the subnet iterator *)

(** The loop [for i := 0; i < parts; i++] of [Split]. *)
Fixpoint split_loop (n : nat) (cur : Address) (step newPrefix : Z)
  : M (list CIDR) :=
  match n with
  | O => ret []
  | S n' =>
      '(sub, _) <- NewCIDR cur newPrefix ;;
      cur' <- Add cur step ;;
      rest <- split_loop n' cur' step newPrefix ;;
      ret (sub :: rest)
  end.

Definition Split (c : CIDR) (newPrefix : Z) : M (list CIDR * option Err) :=
  if (newPrefix <? plen c) || (128 <? newPrefix) then
    ret ([], Some ErrInvalidSplitPrefix)
  else if newPrefix =? plen c then ret ([c], None)
  else
    let countBits := newPrefix - plen c in
    if 63 <=? countBits then ret ([], Some ErrSplitExcessive)
    else
      let parts := Z.shiftl 1 countBits in
      if MaxSplitParts <? parts then ret ([], Some ErrSplitExcessive)
      else
        let step := Z.shiftr (HostCount c) countBits in
        res <- split_loop (Z.to_nat parts) (base c) step newPrefix ;;
        ret (res, None).

Record SubnetIterator := mkIter {
  remaining : Z;
  current : Address;
  step : Z;
  it_plen : Z
}.

(** [CIDR.SubnetIterator]; [None] is the [nil] pointer returned with an error. *)
Definition NewSubnetIterator (c : CIDR) (newPrefix : Z)
  : M (option SubnetIterator * option Err) :=
  if (newPrefix <? plen c) || (128 <? newPrefix) then
    ret (None, Some ErrInvalidSplitPrefix)
  else if newPrefix =? plen c then
    ret (Some (mkIter 1 (base c) 0 newPrefix), None)
  else
    let countBits := newPrefix - plen c in
    if 63 <=? countBits then ret (None, Some ErrSplitExcessive)
    else
      let parts := Z.shiftl 1 countBits in
      if MaxSplitParts <? parts then ret (None, Some ErrSplitExcessive)
      else
        let st := Z.shiftr (HostCount c) countBits in
        ret (Some (mkIter parts (base c) st newPrefix), None).

(** [SubnetIterator.Next]: the updated iterator is returned with the result. *)
Definition IterNext (it : SubnetIterator) : M (CIDR * bool * SubnetIterator) :=
  if remaining it =? 0 then ret (CIDR0, false, it)
  else
    '(c, _) <- NewCIDR (current it) (it_plen it) ;;
    cur' <- Add (current it) (step it) ;;
    ret (c, true, mkIter (remaining it - 1) cur' (step it) (it_plen it)).

(** Draining the iterator: [for { s, ok := it.Next(); if !ok { break }; ... }].
    Each call with [ok] lowers [remaining] by one, so [remaining + 1] calls
    suffice; [fuel] bounds the loop. *)
Fixpoint drain (fuel : nat) (it : SubnetIterator) : M (list CIDR) :=
  match fuel with
  | O => ret []
  | S f =>
      '(c, ok, it') <- IterNext it ;;
      if ok then (rest <- drain f it' ;; ret (c :: rest)) else ret []
  end.

(** [n] successive calls of [Next], recording each [(subnet, ok)] pair. *)
Fixpoint next_n (n : nat) (it : SubnetIterator)
  : M (list (CIDR * bool) * SubnetIterator) :=
  match n with
  | O => ret ([], it)
  | S n' =>
      '(c, ok, it') <- IterNext it ;;
      '(rest, it'') <- next_n n' it' ;;
      ret ((c, ok) :: rest, it'')
  end.

(** Constructing the iterator for [newPrefix] and draining it, with the error
    of the constructor passed through as [Split] does. *)
Definition iterate_split (c : CIDR) (newPrefix : Z) : M (list CIDR * option Err) :=
  '(oit, err) <- NewSubnetIterator c newPrefix ;;
  match oit, err with
  | Some it, None =>
      l <- drain (S (Z.to_nat (remaining it))) it ;; ret (l, None)
  | _, Some e => ret ([], Some e)
  | None, None => ret ([], None)
  end.

(** ** Summarize *)

(** The comparator of [sort.Slice] in [Summarize]: by base, then by prefix
    length. *)
Definition cidr_less (x y : CIDR) : bool :=
  match Compare (base x) (base y) with
  | Eq => plen x <? plen y
  | Lt => true
  | Gt => false
  end.

(** [sort.Slice] is not stable, but two CIDRs with the same base and prefix
    length are equal, so every correct sort returns the same sequence; the
    model sorts by insertion. *)
Fixpoint insert_sorted (x : CIDR) (l : list CIDR) : list CIDR :=
  match l with
  | [] => [x]
  | y :: l' => if cidr_less y x then y :: insert_sorted x l' else x :: l
  end.

Definition sort_cidrs (l : list CIDR) : list CIDR := fold_right insert_sorted [] l.

(** [norm[i].base = norm[i].base.Mask(norm[i].plen)] for every [i]. *)
Fixpoint normalize (l : list CIDR) : M (list CIDR) :=
  match l with
  | [] => ret []
  | c :: l' =>
      b <- Mask (base c) (plen c) ;;
      rest <- normalize l' ;;
      ret (mkCIDR b (plen c) :: rest)
  end.

(** The inner merge loop [for len(stack) >= 2 { ... }].  The stack is kept
    top first; every merge shortens it, so [length stack] iterations bound the
    loop. *)
Fixpoint merge_top (fuel : nat) (stack : list CIDR) : M (list CIDR) :=
  match fuel with
  | O => ret stack
  | S f =>
      match stack with
      | last :: prev :: rest =>
          if negb (plen last =? plen prev) then ret stack
          else if plen last =? 0 then ret stack
          else
            nx <- Next prev ;;
            match Compare (base nx) (base last) with
            | Eq =>
                let parentPrefix := plen last - 1 in
                parentBase <- Mask (base prev) parentPrefix ;;
                lastParent <- Mask (base last) parentPrefix ;;
                match Compare parentBase lastParent with
                | Eq =>
                    '(parent, _) <- NewCIDR parentBase parentPrefix ;;
                    merge_top f (parent :: rest)
                | _ => ret stack
                end
            | _ => ret stack
            end
      | _ => ret stack
      end
  end.

(** The outer loop [for _, c := range norm { ... }] (stack top first). *)
Fixpoint summarize_loop (cs : list CIDR) (stack : list CIDR) : M (list CIDR) :=
  match cs with
  | [] => ret stack
  | c :: cs' =>
      skip <- match stack with
              | top :: _ => ContainsCIDR top c
              | [] => ret false
              end ;;
      if skip then summarize_loop cs' stack
      else
        stack' <- merge_top (length (c :: stack)) (c :: stack) ;;
        summarize_loop cs' stack'
  end.

Definition Summarize (cidrs : list CIDR) : M (list CIDR) :=
  match cidrs with
  | [] => ret []
  | _ =>
      norm <- normalize cidrs ;;
      stack <- summarize_loop (sort_cidrs norm) [] ;;
      ret (rev stack)
  end.

(** ** Distance and CoverRange *)

Definition Distance (a b : Address) : M Z :=
  '(ahi, alo) <- hiLo a ;;
  '(bhi, blo) <- hiLo b ;;
  let '(ahi, alo, bhi, blo) :=
    if (bhi <? ahi) || ((ahi =? bhi) && (blo <? alo))
    then (bhi, blo, ahi, alo) else (ahi, alo, bhi, blo) in
  let '(dhi, dlo) :=
    if alo <=? blo then ((bhi - ahi) mod two64, blo - alo)
    else ((bhi - 1 - ahi) mod two64, (blo - alo) mod two64) in
  ret (dhi * two64 + dlo).

(** [bits.TrailingZeros64]. *)
Definition TrailingZeros64 (x : Z) : Z :=
  if x =? 0 then 64 else Z.log2 (Z.land x (- x)).

(** One iteration of the loop of [CoverRange]: the emitted block and the next
    cursor [cid.LastHost().Add(one)]. *)
Definition cover_step (cur end_ : Address) : M (CIDR * Address) :=
  d <- Distance cur end_ ;;
  let rem := d + 1 in
  '(hi, lo) <- hiLo cur ;;
  let tz := if negb (lo =? 0) then TrailingZeros64 lo
            else if negb (hi =? 0) then 64 + TrailingZeros64 hi
            else 128 in
  let remBits := BitLenZ rem - 1 in
  let remBits := if remBits <? 0 then 0 else remBits in
  let tz := if remBits <? tz then remBits else tz in
  let prefix := 128 - tz in
  '(cid, _) <- NewCIDR cur prefix ;;
  lh <- LastHost cid ;;
  cur' <- Add lh 1 ;;
  ret (cid, cur').

(** [for cur.Compare(end) <= 0 { ... }], run for at most [fuel] iterations:
    [Some l] is the list emitted when the loop exits, [None] means the loop
    is still running after [fuel] iterations. *)
Fixpoint cover_loop (fuel : nat) (cur end_ : Address) : M (option (list CIDR)) :=
  match Compare cur end_ with
  | Gt => ret (Some [])
  | _ =>
      match fuel with
      | O => ret None
      | S f =>
          '(cid, cur') <- cover_step cur end_ ;;
          r <- cover_loop f cur' end_ ;;
          ret (option_map (cons cid) r)
      end
  end.

Definition CoverRange (fuel : nat) (start end_ : Address)
  : M (option (list CIDR * option Err)) :=
  match Compare start end_ with
  | Gt => ret (Some ([], Some ErrInvalidRange))
  | _ => r <- cover_loop fuel start end_ ;; ret (option_map (fun l => (l, None)) r)
  end.

(** ** Supernet *)

(** The min/max scan [for _, c := range list[1:]]. *)
Fixpoint supernet_scan (l : list CIDR) (mn mx : Address) : M (Address * Address) :=
  match l with
  | [] => ret (mn, mx)
  | c :: l' =>
      let mn := match Compare (FirstHost c) mn with Lt => FirstHost c | _ => mn end in
      lh <- LastHost c ;;
      let mx := match Compare lh mx with Gt => lh | _ => mx end in
      supernet_scan l' mn mx
  end.

(** Byte [i] (big-endian) of a 16-byte value. *)
Definition byte_at (v i : Z) : Z := Z.land (Z.shiftr v (8 * (15 - i))) 255.

(** [for b := 7; b >= 0; b-- { if same bit { prefix++ } else { break } }]. *)
Fixpoint equal_high_bits (x y : Z) (b : nat) : Z :=
  if Bool.eqb (Z.testbit x (Z.of_nat b)) (Z.testbit y (Z.of_nat b)) then
    1 + match b with O => 0 | S b' => equal_high_bits x y b' end
  else 0.

(** The byte loop [for i := 0; i < 16; i++] counting common leading bits. *)
Fixpoint common_prefix_from (mb xb : Z) (i : nat) (n : nat) : Z :=
  match n with
  | O => 0
  | S n' =>
      let bi := Z.of_nat i in
      if byte_at mb bi =? byte_at xb bi then 8 + common_prefix_from mb xb (S i) n'
      else equal_high_bits (byte_at mb bi) (byte_at xb bi) 7
  end.

Definition Supernet (l : list CIDR) : M (CIDR * option Err) :=
  match l with
  | [] => ret (CIDR0, Some ErrEmptyList)
  | c :: rest =>
      mx0 <- LastHost c ;;
      '(mn, mx) <- supernet_scan rest (FirstHost c) mx0 ;;
      match mn, mx with
      | Some mb, Some xb =>
          let prefix := common_prefix_from mb xb 0 16 in
          m <- Mask mn prefix ;;
          NewCIDR m prefix
      | _, _ => panic   (* mb[i] or xb[i] on a nil slice *)
      end
  end.

(** ** Well-formed values *)

(** An address built by the package: a 16-byte value that is not
    IPv4-mapped ([NewAddress] is the only way to obtain a non-nil [ip]). *)
Definition valid_address (a : Address) : bool :=
  match a with
  | Some v => (0 <=? v) && (v <? two128) && negb (is_v4mapped v)
  | None => false
  end.

(** A network whose base is a valid address and whose prefix is in range
    (its base need not be masked). *)
Definition wf_cidr (c : CIDR) : bool :=
  valid_address (base c) && (0 <=? plen c) && (plen c <=? 128).

(** The invariant [base == base.Mask(prefixLength)]. *)
Definition base_masked (c : CIDR) : Prop := Mask (base c) (plen c) = ret (base c).

(** A network as [NewCIDR] builds it. *)
Definition valid_cidr (c : CIDR) : bool :=
  wf_cidr c &&
  match base c with
  | Some v => Z.land v (maskTable (plen c)) =? v
  | None => false
  end.

(** The address interval of a network: [[base, base + hostCount - 1]]. *)
Definition in_cidr (c : CIDR) (x : Z) : Prop :=
  BigInt (base c) <= x <= BigInt (base c) + HostCount c - 1.

(** Two networks share an address. *)
Definition ranges_overlap (c o : CIDR) : Prop := exists x, in_cidr c x /\ in_cidr o x.

(** ** Strings, parsing and printing

    Go strings are byte sequences; a [str] is the list of its bytes (an
    [ascii] is 8 bits, i.e. any byte).  The functions of the Go standard
    library that [Parse], [ParseCIDR] and [Address.String] call are modelled
    after their Go 1.22 sources ([strings], [net], [net/netip]); a Go
    [error] return is the [None] of an [option] here (only whether an error
    is returned matters to the callers in the package). *)

Definition str := list ascii.
Definition lit (s : string) : str := list_ascii_of_string s.
Definition code (c : ascii) : Z := Z.of_nat (nat_of_ascii c).

Definition is_nil {A} (l : list A) : bool :=
  match l with [] => true | _ => false end.

(** [asciiSpace]: ['\t'], ['\n'], ['\v'], ['\f'], ['\r'], [' ']. *)
Definition asciiSpace (c : ascii) : bool :=
  let n := code c in ((9 <=? n) && (n <=? 13)) || (n =? 32).

(** The UTF-8 encodings of the runes for which [unicode.IsSpace] holds:
    the ASCII spaces, U+0085, U+00A0, U+1680, U+2000..U+200A, U+2028,
    U+2029, U+202F, U+205F and U+3000.  A rune decoded by
    [utf8.DecodeRuneInString] (resp. [DecodeLastRuneInString]) is a space
    exactly when the string starts (resp. ends) with one of these
    encodings, since an invalid sequence decodes as [RuneError], which is not
    a space, and no encoding below is a proper prefix or suffix of another. *)
Definition space_encodings : list (list Z) :=
  [[9]; [10]; [11]; [12]; [13]; [32]; [194; 133]; [194; 160]; [225; 154; 128]]
  ++ map (fun k => [226; 128; 128 + k]) [0; 1; 2; 3; 4; 5; 6; 7; 8; 9; 10]
  ++ [[226; 128; 168]; [226; 128; 169]; [226; 128; 175]; [226; 129; 159];
      [227; 128; 128]].

Fixpoint is_prefix (p : list Z) (s : str) : bool :=
  match p, s with
  | [], _ => true
  | b :: p', c :: s' => (b =? code c) && is_prefix p' s'
  | _ :: _, [] => false
  end.

(** The width of the leading rune of [s] when it is a space. *)
Definition space_prefix (s : str) : option nat :=
  match find (fun e => is_prefix e s) space_encodings with
  | Some e => Some (List.length e)
  | None => None
  end.

(** The width of the last rune of [s] when it is a space. *)
Definition space_suffix (s : str) : option nat :=
  match find (fun e => is_prefix (rev e) (rev s)) space_encodings with
  | Some e => Some (List.length e)
  | None => None
  end.

(** [strings.TrimLeftFunc(s, unicode.IsSpace)]; every step removes at least
    one byte, so [length s] iterations suffice. *)
Fixpoint trim_left (fuel : nat) (s : str) : str :=
  match fuel with
  | O => s
  | S f => match space_prefix s with
           | Some w => trim_left f (skipn w s)
           | None => s
           end
  end.

Definition TrimLeftFunc (s : str) : str := trim_left (List.length s) s.

(** [strings.TrimRightFunc(s, unicode.IsSpace)]. *)
Fixpoint trim_right (fuel : nat) (s : str) : str :=
  match fuel with
  | O => s
  | S f => match space_suffix s with
           | Some w => trim_right f (firstn (List.length s - w) s)
           | None => s
           end
  end.

Definition TrimRightFunc (s : str) : str := trim_right (List.length s) s.

Definition TrimFunc (s : str) : str := TrimRightFunc (TrimLeftFunc s).

(** The first loop of [strings.TrimSpace]: [inl rest] when it stops at an
    ASCII non-space byte ([rest = s[start:]]), [inr rest] when it meets a
    byte [>= utf8.RuneSelf] and falls back to [TrimFunc(s[start:])]. *)
Fixpoint trim_space_start (s : str) : str + str :=
  match s with
  | [] => inl []
  | c :: r =>
      if 128 <=? code c then inr s
      else if asciiSpace c then trim_space_start r
      else inl s
  end.

(** The second loop, run on the reversed [s[start:]]: [inl] the reversed
    [s[start:stop]], [inr] the reversed [s[start:stop]] handed to
    [TrimRightFunc]. *)
Fixpoint trim_space_stop (rs : str) : str + str :=
  match rs with
  | [] => inl []
  | c :: r =>
      if 128 <=? code c then inr rs
      else if asciiSpace c then trim_space_stop r
      else inl rs
  end.

Definition TrimSpace (s : str) : str :=
  match trim_space_start s with
  | inr r => TrimFunc r
  | inl r =>
      match trim_space_stop (rev r) with
      | inr rr => TrimRightFunc (rev rr)
      | inl rr => rev rr
      end
  end.

(** [strings.Split(s, "/")]. *)
Fixpoint split_slash (s : str) : list str :=
  match s with
  | [] => [[]]
  | c :: r =>
      if Ascii.eqb c "/" then [] :: split_slash r
      else match split_slash r with
           | p :: ps => (c :: p) :: ps
           | [] => [[c]]
           end
  end.

(** *** [netip.ParseAddr] *)

Definition is_digit (c : ascii) : bool := (48 <=? code c) && (code c <=? 57).

(** The loop of [parseIPv4Fields] over [s = in[off:end]]: [first] is
    [i == 0], [prev_dot] is [s[i-1] == '.'] (any other preceding byte has
    already been rejected); it returns [val], [pos] and the fields written. *)
Fixpoint v4_loop (s : str) (first prev_dot : bool) (val pos digLen : Z)
    (fields : list Z) : option (Z * Z * list Z) :=
  match s with
  | [] => Some (val, pos, fields)
  | c :: r =>
      if is_digit c then
        if (digLen =? 1) && (val =? 0) then None
        else
          let val := val * 10 + (code c - 48) in
          if 255 <? val then None
          else v4_loop r false false val pos (digLen + 1) fields
      else if Ascii.eqb c "." then
        if first || is_nil r || prev_dot then None
        else if pos =? 3 then None
        else v4_loop r false true 0 (pos + 1) 0 (fields ++ [val])
      else None
  end.

Definition parseIPv4Fields (s : str) : option (list Z) :=
  match v4_loop s true false 0 0 0 [] with
  | None => None
  | Some (val, pos, fields) => if pos <? 3 then None else Some (fields ++ [val])
  end.

Definition hex_val (c : ascii) : option Z :=
  let n := code c in
  if (48 <=? n) && (n <=? 57) then Some (n - 48)
  else if (97 <=? n) && (n <=? 102) then Some (n - 97 + 10)
  else if (65 <=? n) && (n <=? 70) then Some (n - 65 + 10)
  else None.

(** The hex-number loop of [parseIPv6]: [Some (off, acc, s[off:])]. *)
Fixpoint hex_scan (s : str) (off acc : Z) : option (Z * Z * str) :=
  match s with
  | [] => Some (off, acc, [])
  | c :: r =>
      match hex_val c with
      | None => Some (off, acc, s)
      | Some d =>
          let acc := acc * 16 + d in
          if 3 <? off then None
          else if 65535 <? acc then None
          else hex_scan r (off + 1) acc
      end
  end.

Definition starts_with (c : ascii) (s : str) : bool :=
  match s with d :: _ => Ascii.eqb d c | [] => false end.

(** One iteration of the main loop of [parseIPv6]; [ip] is [ip[0:i]], the
    bytes written so far, and [ell] is [ellipsis]. *)
Inductive step6 :=
| Break6 (s : str) (ip : list Z) (ell : Z)
| Cont6 (s : str) (ip : list Z) (ell : Z).

Definition v6_body (s : str) (ip : list Z) (ell : Z) : option step6 :=
  let i := Z.of_nat (List.length ip) in
  match hex_scan s 0 0 with
  | None => None
  | Some (off, acc, rest) =>
      if off =? 0 then None
      else if starts_with "." rest then
        (* [parseIPv4Fields(in, end-len(s), end, ip[i:i+4])] reads [s] *)
        if (ell <? 0) && negb (i =? 12) then None
        else if 16 <? i + 4 then None
        else match parseIPv4Fields s with
             | None => None
             | Some f => Some (Break6 [] (ip ++ f) ell)
             end
      else
        let ip := ip ++ [Z.land (Z.shiftr acc 8) 255; Z.land acc 255] in
        match rest with
        | [] => Some (Break6 [] ip ell)
        | c :: s =>
            if negb (Ascii.eqb c ":") then None
            else match s with
                 | [] => None
                 | c' :: s' =>
                     if Ascii.eqb c' ":" then
                       if 0 <=? ell then None
                       else if is_nil s' then Some (Break6 [] ip (i + 2))
                       else Some (Cont6 s' ip (i + 2))
                     else Some (Cont6 s ip ell)
                 end
        end
  end.

(** [for i < 16 { ... }]: every iteration that goes on writes two bytes, so
    the loop runs at most 8 times. *)
Fixpoint v6_loop (fuel : nat) (s : str) (ip : list Z) (ell : Z)
    : option (str * list Z * Z) :=
  match fuel with
  | O => Some (s, ip, ell)
  | S f =>
      if Z.of_nat (List.length ip) <? 16 then
        match v6_body s ip ell with
        | None => None
        | Some (Break6 s ip ell) => Some (s, ip, ell)
        | Some (Cont6 s ip ell) => v6_loop f s ip ell
        end
      else Some (s, ip, ell)
  end.

(** The end of [parseIPv6]: trailing input, then the expansion of the
    ellipsis ([ip[j+n] = ip[j]] for [j] from [i-1] down to [ellipsis], then
    [clear(ip[ellipsis:ellipsis+n])]). *)
Definition parseIPv6_tail (s : str) (ell : Z) (zone : str) : option (list Z * str) :=
  match v6_loop 8 s [] ell with
  | None => None
  | Some (s, ip, ell) =>
      if negb (is_nil s) then None
      else
        let i := List.length ip in
        if (i <? 16)%nat then
          if ell <? 0 then None
          else
            let e := Z.to_nat ell in
            Some (firstn e ip ++ repeat 0 (16 - i)%nat ++ skipn e ip, zone)
        else if 0 <=? ell then None
        else Some (ip, zone)
  end.

Fixpoint index_byte (s : str) (c : ascii) : option nat :=
  match s with
  | [] => None
  | d :: r => if Ascii.eqb d c then Some O
              else option_map S (index_byte r c)
  end.

Definition parseIPv6 (in_ : str) : option (list Z * str) :=
  let '(s, zone, bad) :=
    match index_byte in_ "%" with
    | None => (in_, [], false)
    | Some k => (firstn k in_, skipn (S k) in_, is_nil (skipn (S k) in_))
    end in
  if bad then None
  else match s with
       | c1 :: c2 :: s' =>
           if Ascii.eqb c1 ":" && Ascii.eqb c2 ":" then
             if is_nil s' then Some (repeat 0 16%nat, zone)
             else parseIPv6_tail s' 0 zone
           else parseIPv6_tail s (-1) zone
       | _ => parseIPv6_tail s (-1) zone
       end.

(** A parsed [netip.Addr]: four bytes, or sixteen bytes and a zone. *)
Inductive netipAddr :=
| Addr4 (b : list Z)
| Addr6 (b : list Z) (zone : str).

Definition parseIPv4 (s : str) : option netipAddr :=
  option_map Addr4 (parseIPv4Fields s).

(** The first of ['.'], [':'] or ['%'] in [s] chooses the parser. *)
Fixpoint addr_kind (s : str) : option ascii :=
  match s with
  | [] => None
  | c :: r =>
      if Ascii.eqb c "." || Ascii.eqb c ":" || Ascii.eqb c "%" then Some c
      else addr_kind r
  end.

Definition ParseAddr (s : str) : option netipAddr :=
  match addr_kind s with
  | Some c =>
      if Ascii.eqb c "." then parseIPv4 s
      else if Ascii.eqb c ":" then
        option_map (fun '(b, z) => Addr6 b z) (parseIPv6 s)
      else None
  | None => None
  end.

Definition As16 (a : netipAddr) : list Z :=
  match a with
  | Addr4 b => [0; 0; 0; 0; 0; 0; 0; 0; 0; 0; 255; 255] ++ b
  | Addr6 b _ => b
  end.

Definition Zone (a : netipAddr) : str :=
  match a with Addr4 _ => [] | Addr6 _ z => z end.

(** [net.ParseIP]: [netip.ParseAddr], rejecting a zone, then [As16]. *)
Definition ParseIP (s : str) : option (list Z) :=
  match ParseAddr s with
  | Some a => if is_nil (Zone a) then Some (As16 a) else None
  | None => None
  end.

(** The big-endian value of a byte slice. *)
Definition bytes_to_Z (b : list Z) : Z := fold_left (fun acc x => acc * 256 + x) b 0.

(** [Parse]: the wrapped error [fmt.Errorf("%w: %s", ErrInvalidAddress, s)]
    is [ErrInvalidAddress] for [errors.Is]. *)
Definition Parse (s : str) : Address * option Err :=
  match ParseIP (TrimSpace s) with
  | None => (None, Some ErrInvalidAddress)
  | Some b => NewAddress (bytes_to_Z b)
  end.

(** [parsePrefix]: the loop ranges over runes; a byte [>= 0x80] starts a
    rune that is not a decimal digit, so the byte-wise loop fails at the
    same place. *)
Fixpoint prefix_loop (p : str) (val : Z) : option Z :=
  match p with
  | [] => Some val
  | c :: r =>
      if negb (is_digit c) then None
      else
        let val := val * 10 + (code c - 48) in
        if BitLen <? val then None else prefix_loop r val
  end.

Definition parsePrefix (p : str) : Z * option Err :=
  if is_nil p then (0, Some ErrInvalidPrefix)
  else match prefix_loop p 0 with
       | None => (0, Some ErrInvalidPrefix)
       | Some val =>
           if (val <? 0) || (BitLen <? val) then (0, Some ErrInvalidPrefix)
           else (val, None)
       end.

Definition ParseCIDR (s : str) : M (CIDR * option Err) :=
  match split_slash (TrimSpace s) with
  | [p0; p1] =>
      match Parse p0 with
      | (_, Some e) => ret (CIDR0, Some e)
      | (addr, None) =>
          match parsePrefix p1 with
          | (_, Some e) => ret (CIDR0, Some e)
          | (pl, None) => NewCIDR addr pl
          end
      end
  | _ => ret (CIDR0, Some ErrInvalidCIDR)
  end.

(** *** [net.IP.String] *)

Definition digits : str := lit "0123456789abcdef".
Definition digit_at (x : Z) : ascii := nth (Z.to_nat x) digits "0"%char.

Definition appendHex (b : str) (x : Z) : str :=
  let b := if 4096 <=? x then b ++ [digit_at (Z.shiftr x 12)] else b in
  let b := if 256 <=? x then b ++ [digit_at (Z.land (Z.shiftr x 8) 15)] else b in
  let b := if 16 <=? x then b ++ [digit_at (Z.land (Z.shiftr x 4) 15)] else b in
  b ++ [digit_at (Z.land x 15)].

Definition appendDecimal (b : str) (x : Z) : str :=
  let b := if 100 <=? x then b ++ [digit_at (x / 100)] else b in
  let b := if 10 <=? x then b ++ [digit_at ((x / 10) mod 10)] else b in
  b ++ [digit_at (x mod 10)].

(** [netip.Addr.string4] of the last four bytes of [v]. *)
Definition string4 (v : Z) : str :=
  let b := appendDecimal [] (byte_at v 12) in
  let b := appendDecimal (b ++ ["."%char]) (byte_at v 13) in
  let b := appendDecimal (b ++ ["."%char]) (byte_at v 14) in
  appendDecimal (b ++ ["."%char]) (byte_at v 15).

(** [ip.v6u16(i)]: the 16-bit group [i] of the address. *)
Definition v6u16 (v : Z) (i : nat) : Z :=
  Z.land (Z.shiftr v (16 * (7 - Z.of_nat i))) 65535.

(** [for j < 8 && ip.v6u16(j) == 0 { j++ }]. *)
Fixpoint zero_scan (v : Z) (fuel j : nat) : nat :=
  match fuel with
  | O => j
  | S f => if (j <? 8)%nat && (v6u16 v j =? 0) then zero_scan v f (S j) else j
  end.

(** The search for the longest run of zero groups in [appendTo6], with the
    [uint8] indices as [nat] (they stay below 256). *)
Fixpoint zero_run (v : Z) (fuel i zs ze : nat) : nat * nat :=
  match fuel with
  | O => (zs, ze)
  | S f =>
      if (i <? 8)%nat then
        let j := zero_scan v 8 i in
        let l := (j - i)%nat in
        if (2 <=? l)%nat && (ze - zs <? l)%nat then zero_run v f (S i) i j
        else zero_run v f (S i) zs ze
      else (zs, ze)
  end.

(** The output loop of [appendTo6]; at [zeroStart] it writes ["::"] and
    jumps to [zeroEnd]. *)
Fixpoint out6 (v : Z) (zs ze : nat) (fuel i : nat) (b : str) : str :=
  match fuel with
  | O => b
  | S f =>
      if (i <? 8)%nat then
        if (i =? zs)%nat then
          let b := b ++ [":"%char; ":"%char] in
          if (8 <=? ze)%nat then b
          else out6 v zs ze f (S ze) (appendHex b (v6u16 v ze))
        else
          let b := if (0 <? i)%nat then b ++ [":"%char] else b in
          out6 v zs ze f (S i) (appendHex b (v6u16 v i))
      else b
  end.

Definition string6 (v : Z) : str :=
  let '(zs, ze) := zero_run v 8 0 255 255 in
  out6 v zs ze 8 0 [].

(** [Address.String] = [net.IP.String]: ["<nil>"] for the empty slice, the
    dotted form when [To4] succeeds, [string6] otherwise. *)
Definition Address_String (a : Address) : str :=
  match a with
  | None => lit "<nil>"
  | Some v => if is_v4mapped v then string4 v else string6 v
  end.

(** *** Shapes of the printed form and the parser invariant *)

(** A hexadecimal digit, group [k] of [v] printed by [appendHex], the
    groups [ks] joined by colons, and their bytes. *)
Definition hexdig (c : ascii) : bool := match hex_val c with Some _ => true | None => false end.

Definition hexg (v : Z) (k : nat) : str := appendHex [] (v6u16 v k).
Definition gsep (v : Z) (ks : list nat) : str := flat_map (fun k => ":"%char :: hexg v k) ks.
Definition grp (v : Z) (ks : list nat) : str :=
  match ks with [] => [] | k :: ks' => hexg v k ++ gsep v ks' end.
Definition gbytes (v : Z) (ks : list nat) : list Z :=
  flat_map (fun k => [Z.land (Z.shiftr (v6u16 v k) 8) 255; Z.land (v6u16 v k) 255]) ks.

Definition hexcolon (c : ascii) : bool := hexdig c || Ascii.eqb c ":".

(** The pair [(zs, ze)] of [zero_run]: no run yet, or a run of at least
    two zero groups. *)
Definition run_inv (v : Z) (p : nat * nat) : Prop :=
  (fst p = 255%nat /\ snd p = 255%nat) \/
  ((fst p + 2 <= snd p <= 8)%nat /\ forall k, (fst p <= k < snd p)%nat -> v6u16 v k = 0).

(** An address the package hands out: [nil] (the zero value) or valid. *)
Definition addr_ok (a : Address) : bool :=
  match a with None => true | Some _ => valid_address a end.

Definition byte_ok (x : Z) : Prop := 0 <= x < 256.

Definition ip_inv (ip : list Z) : Prop :=
  Forall byte_ok ip /\ (length ip <= 16)%nat /\ Nat.Even (length ip).

(** What the subnet iterator keeps: a [nil] or valid cursor and a prefix
    in range. *)
Definition iter_ok (it : SubnetIterator) : Prop :=
  addr_ok (current it) = true /\ 0 <= it_plen it <= 128.

(** ** Offsets and random choices *)

(** [Offset]: [Add] of the [uint64] offset [u] (so [0 <= u < 2^64]). *)
Definition Offset (a : Address) (u : Z) : M Address := Add a u.

(** [RandomAddressInCIDR], with [offset] the value drawn by
    [new(big.Int).Rand(r, max)], which lies in [[0, max)] for
    [max = 1 << bits]. *)
Definition RandomAddressInCIDR (c : CIDR) (offset : Z) : M Address :=
  let bits := 128 - plen c in
  if bits =? 0 then ret (base c)
  else Add (base c) offset.

(** [RandomSubnetInCIDR], with [idx] the value drawn by
    [new(big.Int).Rand(r, parts)], which lies in [[0, parts)] for
    [parts = 1 << countBits]. *)
Definition RandomSubnetInCIDR (c : CIDR) (newPrefix idx : Z) : M (CIDR * option Err) :=
  if (newPrefix <? plen c) || (128 <? newPrefix) then ret (CIDR0, Some ErrInvalidSplitPrefix)
  else if newPrefix =? plen c then ret (c, None)
  else
    let countBits := newPrefix - plen c in
    let step := Z.shiftr (HostCount c) countBits in
    b <- Add (base c) (idx * step) ;;
    NewCIDR b newPrefix.

(** ** Text marshalling and the byte comparison *)

(** [MarshalText]: the bytes of [a.String()], never an error. *)
Definition MarshalText (a : Address) : str * option Err := (Address_String a, None).

(** [UnmarshalText] on the receiver [*a]: the new value of [*a] and the
    error; [*a] is only assigned when [Parse] succeeds. *)
Definition UnmarshalText (a : Address) (b : str) : Address * option Err :=
  match Parse b with
  | (_, Some e) => (a, Some e)
  | (addr, None) => (addr, None)
  end.

(** [bytesCompare]: the loop over the common length, then the lengths. *)
Fixpoint bytesCompare (a b : list Z) : Z :=
  match a, b with
  | x :: a', y :: b' => if x <? y then -1 else if y <? x then 1 else bytesCompare a' b'
  | [], [] => 0
  | [], _ :: _ => -1
  | _ :: _, [] => 1
  end.

(** The [ip] slice of an Address: the 16 big-endian bytes, or the empty
    slice. *)
Definition ip_bytes (a : Address) : list Z :=
  match a with
  | None => []
  | Some v => map (byte_at v) (map Z.of_nat (seq 0 16))
  end.

(** The [int] that [Compare] returns, from the ordering of the model. *)
Definition int_of_cmp (c : comparison) : Z :=
  match c with Lt => -1 | Eq => 0 | Gt => 1 end.

(** ** Expanded forms *)

(** [fmt]'s unsigned base-16 digits of [u >= 0] (lower-case), most
    significant first. *)
Fixpoint fmt_hex (fuel : nat) (u : Z) : str :=
  match fuel with
  | O => []
  | S f => if 16 <=? u then fmt_hex f (u / 16) ++ [digit_at (u mod 16)] else [digit_at u]
  end.

(** [fmt.Sprintf("%04x", x)] for [x >= 0]: the digits, left-padded with
    ['0'] to width 4. *)
Definition Sprintf04x (x : Z) : str :=
  let d := fmt_hex 64 x in repeat "0"%char (4 - length d) ++ d.

(** [strings.Join]. *)
Fixpoint join (sep : str) (l : list str) : str :=
  match l with
  | [] => []
  | [x] => x
  | x :: r => x ++ sep ++ join sep r
  end.

(** [Address.Expanded]: [a.ip[2*i]] panics on the nil slice. *)
Definition Expanded (a : Address) : M str :=
  match a with
  | None => panic
  | Some v =>
      ret (join [":"%char]
             (map (fun i => Sprintf04x (Z.lor (Z.shiftl (byte_at v (2 * Z.of_nat i)) 8)
                                              (byte_at v (2 * Z.of_nat i + 1))))
                  (seq 0 8)))
  end.

(** [strings.ToUpper] on ASCII input (its [isASCII] path): every byte in
    ['a'..'z'] is lowered by ['a' - 'A'].  The Unicode path is not modelled
    ([ToUpper] gives [None] there); the output of [Expanded] is ASCII, so
    [ExpandedUpper] never takes it. *)
Definition upper (c : ascii) : ascii :=
  if (97 <=? code c) && (code c <=? 122) then ascii_of_nat (nat_of_ascii c - 32) else c.

Definition is_ascii (c : ascii) : bool := code c <? 128.

Definition ToUpper (s : str) : option str :=
  if forallb is_ascii s then Some (map upper s) else None.

(** [Address.ExpandedUpper]; its input is the output of [Expanded]. *)
Definition ExpandedUpper (a : Address) : M str :=
  s <- Expanded a ;; ToUpper s.

(** The four hexadecimal digits of a 16-bit group, printed with [h]. *)
Definition nibs (g : Z) : list Z := [g / 4096; g / 256 mod 16; g / 16 mod 16; g mod 16].
Definition hgroup (h : Z -> ascii) (v : Z) (k : nat) : str := map h (nibs (v6u16 v k)).

(** ** Reverse DNS name *)

(** [hex.EncodeToString]: two lower-case digits per byte, high nibble first. *)
Definition EncodeToString (b : list Z) : str :=
  flat_map (fun x => [digit_at (Z.shiftr x 4); digit_at (Z.land x 15)]) b.

(** [Address.ReverseDNS]: the digits of [hexstr] from last to first, each
    followed by ['.'], then ["ip6.arpa."]. *)
Definition ReverseDNS (a : Address) : str :=
  flat_map (fun c => [c; "."%char]) (rev (EncodeToString (ip_bytes a))) ++ lit "ip6.arpa.".

(** Nibble [j] of [v], counted from the least significant one. *)
Definition nib (v : Z) (j : nat) : Z := Z.land (Z.shiftr v (4 * Z.of_nat j)) 15.

(** ** Text form of a network *)

(** [fmt]'s decimal digits of [u >= 0], most significant first. *)
Fixpoint fmt_dec (fuel : nat) (u : Z) : str :=
  match fuel with
  | O => []
  | S f => if 10 <=? u then fmt_dec f (u / 10) ++ [digit_at (u mod 10)] else [digit_at u]
  end.

(** [fmt.Sprintf("%d", x)] for an [int]. *)
Definition Sprintf_d (x : Z) : str :=
  if x <? 0 then "-"%char :: fmt_dec 64 (- x) else fmt_dec 64 x.

(** [CIDR.String]: [fmt.Sprintf("%s/%d", c.base.String(), c.plen)]. *)
Definition CIDR_String (c : CIDR) : str :=
  Address_String (base c) ++ "/"%char :: Sprintf_d (plen c).

(** A byte that [TrimSpace] keeps at either end, and one that is not ['/']. *)
Definition plain (c : ascii) : bool := (code c <? 128) && negb (asciiSpace c).
Definition noslash (c : ascii) : bool := negb (Ascii.eqb c "/").

(** What the proofs need of the printed prefix [p]. *)
Definition prefix_ok (p : Z) : bool :=
  let s := Sprintf_d p in
  match parsePrefix s with (x, None) => x =? p | _ => false end &&
  negb (is_nil s) && forallb plain s && forallb noslash s.

(** ** Networks whose last address is printable *)

(** A valid network whose last address is not IPv4-mapped, so that
    [LastHost] returns it. *)
Definition last_ok (c : CIDR) : Prop :=
  valid_cidr c = true /\ is_v4mapped (BigInt (base c) + HostCount c - 1) = false.

(** ** Decimal prefix lengths *)

(** The decimal value of a digit string (leading zeros allowed). *)
Definition dec_step (a : Z) (c : ascii) : Z := a * 10 + (code c - 48).
Definition dec_value (s : str) : Z := fold_left dec_step s 0.

(** * Arithmetic lemmas *)

Lemma two64_val : two64 = 18446744073709551616.
Proof. reflexivity. Qed.

Lemma two128_val : two128 = 340282366920938463463374607431768211456.
Proof. reflexivity. Qed.

Lemma two128_two64 : two128 = two64 * two64.
Proof. reflexivity. Qed.

Lemma lor_shiftl_low (a b n : Z) :
  0 <= n -> 0 <= b < 2 ^ n -> Z.lor (Z.shiftl a n) b = a * 2 ^ n + b.
Proof.
  intros Hn Hb.
  assert (Hl : Z.land (Z.shiftl a n) b = 0).
  { apply Z.bits_inj'; intros i Hi.
    rewrite Z.land_spec, Z.bits_0, Z.shiftl_spec by lia.
    destruct (Z.lt_ge_cases i n) as [Hlt | Hge].
    - rewrite (Z.testbit_neg_r a (i - n)) by lia. reflexivity.
    - rewrite <- (Z.mod_small b (2 ^ n)) by lia.
      rewrite Z.mod_pow2_bits_high by lia. apply andb_false_r. }
  rewrite <- (Z.add_0_r (Z.lor _ _)), <- Hl, Z.add_lor_land.
  rewrite Z.shiftl_mul_pow2 by lia. reflexivity.
Qed.

Lemma hiLo_some (v : Z) :
  0 <= v -> hiLo (Some v) = ret (v / two64, v mod two64).
Proof.
  intros Hv. unfold hiLo. f_equal. f_equal.
  - rewrite Z.shiftr_div_pow2 by lia. reflexivity.
  - change (two64 - 1) with (Z.ones 64). rewrite Z.land_ones by lia. reflexivity.
Qed.

Lemma fromHiLo_val (hi lo : Z) :
  fromHiLo hi lo = fst (NewAddress ((hi mod two64) * two64 + lo mod two64)).
Proof.
  unfold fromHiLo. rewrite lor_shiftl_low.
  - reflexivity.
  - lia.
  - change (2 ^ 64) with two64. apply Z.mod_pos_bound. reflexivity.
Qed.

Lemma fill16_small (v : Z) :
  0 <= v < two128 -> fill16 v = ret (fst (NewAddress v)).
Proof.
  intros Hv. unfold fill16. rewrite Z.abs_eq by lia.
  destruct (two128 <=? v) eqn:E; [apply Z.leb_le in E; lia | reflexivity].
Qed.

Lemma BitLenZ_le64 (d : Z) : 0 <= d < two64 -> BitLenZ d <= 64.
Proof.
  intros Hd. unfold BitLenZ. destruct (d =? 0) eqn:E; [lia|].
  apply Z.eqb_neq in E.
  assert (Z.log2 d < 64) by (apply Z.log2_lt_pow2; rewrite ?two64_val in *; lia).
  lia.
Qed.

(** The fast path of [Add] computes [(v + d) mod 2^128]. *)
Lemma Add_fast_val (v d : Z) :
  0 <= v < two128 -> 0 <= d < two64 ->
  Add_fast (Some v) d = ret (fst (NewAddress ((v + d) mod two128))).
Proof.
  intros Hv Hd. unfold Add_fast. rewrite hiLo_some by lia. unfold ret. cbv beta iota zeta.
  rewrite fromHiLo_val. f_equal. f_equal. f_equal.
  rewrite two128_two64 in *.
  pose proof (Z.div_mod v two64 ltac:(rewrite two64_val; lia)) as Hdm.
  pose proof (Z.mod_pos_bound v two64 ltac:(rewrite two64_val; lia)).
  assert (0 <= v / two64 < two64) by
    (split; [apply Z.div_pos; rewrite ?two64_val in *; lia
            | apply Z.div_lt_upper_bound; rewrite ?two64_val in *; lia]).
  set (h := v / two64) in *. set (l := v mod two64) in *.
  clearbody h l. rewrite two64_val in *.
  destruct (l + d <? 18446744073709551616) eqn:E.
  - apply Z.ltb_lt in E.
    rewrite !(Z.mod_small (l + d)) by lia.
    destruct (l + d <? l) eqn:E2; [apply Z.ltb_lt in E2; lia|].
    rewrite !(Z.mod_small (h + 0)) by lia.
    rewrite (Z.mod_small (v + d)) by lia. lia.
  - apply Z.ltb_ge in E.
    replace ((l + d) mod 18446744073709551616) with (l + d - 18446744073709551616)
      by (apply Z.mod_unique with 1; lia).
    destruct (l + d - 18446744073709551616 <? l) eqn:E2; [|apply Z.ltb_ge in E2; lia].
    rewrite !(Z.mod_small (l + d - 18446744073709551616)) by lia.
    destruct (h + 1 <? 18446744073709551616) eqn:E3.
    + apply Z.ltb_lt in E3. rewrite !(Z.mod_small (h + 1)) by lia.
      rewrite (Z.mod_small (v + d)) by lia. lia.
    + apply Z.ltb_ge in E3.
      replace ((h + 1) mod 18446744073709551616) with 0
        by (apply Z.mod_unique with 1; lia).
      rewrite Z.mod_0_l by lia.
      apply Z.mod_unique with 1; lia.
Qed.

(** The fast path of [Sub] computes [(v - d) mod 2^128]. *)
Lemma Sub_fast_val (v d : Z) :
  0 <= v < two128 -> 0 <= d < two64 ->
  Sub_fast (Some v) d = ret (fst (NewAddress ((v - d) mod two128))).
Proof.
  intros Hv Hd. unfold Sub_fast. rewrite hiLo_some by lia. unfold ret.
  cbv beta iota zeta.
  rewrite two128_two64 in *.
  pose proof (Z.div_mod v two64 ltac:(rewrite two64_val; lia)) as Hdm.
  pose proof (Z.mod_pos_bound v two64 ltac:(rewrite two64_val; lia)).
  assert (0 <= v / two64 < two64) by
    (split; [apply Z.div_pos; rewrite ?two64_val in *; lia
            | apply Z.div_lt_upper_bound; rewrite ?two64_val in *; lia]).
  set (h := v / two64) in *. set (l := v mod two64) in *.
  clearbody h l.
  destruct (d <=? l) eqn:E; rewrite fromHiLo_val; do 3 f_equal;
    rewrite two64_val in *.
  - apply Z.leb_le in E.
    rewrite !(Z.mod_small h), !(Z.mod_small (l - d)) by lia.
    apply Z.mod_unique with 0; lia.
  - apply Z.leb_gt in E.
    replace ((l - d) mod 18446744073709551616) with (l - d + 18446744073709551616)
      by (apply Z.mod_unique with (-1); lia).
    rewrite (Z.mod_small (l - d + 18446744073709551616)) by lia.
    destruct (Z.eq_dec h 0) as [H0' | H0'].
    + subst h.
      replace ((0 - 1) mod 18446744073709551616) with 18446744073709551615
        by (apply Z.mod_unique with (-1); lia).
      rewrite (Z.mod_small 18446744073709551615) by lia.
      apply Z.mod_unique with (-1); lia.
    + rewrite !(Z.mod_small (h - 1)) by lia.
      apply Z.mod_unique with 0; lia.
Qed.

Lemma Add_big_val (v d : Z) :
  Add_big (Some v) d = ret (fst (NewAddress ((v + d) mod two128))).
Proof.
  unfold Add_big. apply fill16_small. apply Z.mod_pos_bound. reflexivity.
Qed.

Lemma Sub_big_val (v d : Z) :
  0 <= v < two128 -> 0 <= d < two128 ->
  Sub_big (Some v) d = ret (fst (NewAddress ((v - d) mod two128))).
Proof.
  intros Hv Hd. unfold Sub_big. cbv zeta. simpl BigInt.
  destruct (v - d <? 0) eqn:E.
  - apply Z.ltb_lt in E. rewrite fill16_small by lia. do 3 f_equal.
    apply Z.mod_unique with (-1); lia.
  - apply Z.ltb_ge in E. rewrite fill16_small by lia. do 3 f_equal.
    apply Z.mod_unique with 0; lia.
Qed.


Lemma add_val (v d : Z) :
  0 <= v < two128 -> 0 <= d ->
  Add (Some v) d = ret (fst (NewAddress ((v + d) mod two128))).
Proof.
  intros Hv Hd. unfold Add, Add_nonneg.
  destruct (d <? 0) eqn:E; [apply Z.ltb_lt in E; lia|].
  destruct (BitLenZ d <=? 64) eqn:E2; [|apply Add_big_val].
  apply Add_fast_val; [lia|]. split; [lia|].
  apply Z.leb_le in E2. unfold BitLenZ in E2.
  destruct (d =? 0) eqn:E3; [apply Z.eqb_eq in E3; subst; reflexivity|].
  apply Z.eqb_neq in E3.
  destruct (Z.lt_ge_cases d two64) as [|Hge]; [assumption|].
  pose proof (Z.log2_le_mono two64 d Hge). rewrite two64_val in *. simpl in *. lia.
Qed.

Lemma sub_val (v d : Z) :
  0 <= v < two128 -> 0 <= d <= two128 ->
  Sub (Some v) d = ret (fst (NewAddress ((v - d) mod two128))).
Proof.
  intros Hv Hd. unfold Sub, Sub_nonneg.
  destruct (d <? 0) eqn:E; [apply Z.ltb_lt in E; lia|].
  destruct (BitLenZ d <=? 64) eqn:E2.
  - apply Sub_fast_val; [lia|]. split; [lia|].
    apply Z.leb_le in E2. unfold BitLenZ in E2.
    destruct (d =? 0) eqn:E3; [apply Z.eqb_eq in E3; subst; reflexivity|].
    apply Z.eqb_neq in E3.
    destruct (Z.lt_ge_cases d two64) as [|Hge]; [assumption|].
    pose proof (Z.log2_le_mono two64 d Hge). rewrite two64_val in *. simpl in *. lia.
  - unfold Sub_big. cbv zeta. simpl BigInt.
    destruct (v - d <? 0) eqn:E4.
    + apply Z.ltb_lt in E4. rewrite fill16_small by lia. do 3 f_equal.
      apply Z.mod_unique with (-1); lia.
    + apply Z.ltb_ge in E4. rewrite fill16_small by lia. do 3 f_equal.
      apply Z.mod_unique with 0; lia.
Qed.

(** ** The mask table *)

Lemma maskTable_table :
  forallb (fun p => maskTable p =? Z.ldiff (Z.ones 128) (Z.ones (128 - p)))
    (map Z.of_nat (seq 0 129)) = true.
Proof. vm_compute. reflexivity. Qed.

Lemma maskTable_ldiff (p : Z) :
  0 <= p <= 128 -> maskTable p = Z.ldiff (Z.ones 128) (Z.ones (128 - p)).
Proof.
  intros Hp. pose proof maskTable_table as T.
  rewrite forallb_forall in T.
  specialize (T p). rewrite Z.eqb_eq in T. apply T.
  apply in_map_iff. exists (Z.to_nat p). split; [lia|].
  apply in_seq. lia.
Qed.

Lemma testbit_maskTable (p j : Z) :
  0 <= p <= 128 -> 0 <= j ->
  Z.testbit (maskTable p) j = (j <? 128) && (128 - p <=? j).
Proof.
  intros Hp Hj. rewrite maskTable_ldiff by lia. rewrite Z.ldiff_spec.
  destruct (Z.lt_ge_cases j 128).
  - rewrite Z.ones_spec_low by lia.
    destruct (Z.lt_ge_cases j (128 - p)).
    + rewrite Z.ones_spec_low by lia.
      replace (128 - p <=? j) with false by (symmetry; apply Z.leb_gt; lia).
      destruct (j <? 128); reflexivity.
    + rewrite Z.ones_spec_high by lia.
      replace (128 - p <=? j) with true by (symmetry; apply Z.leb_le; lia).
      replace (j <? 128) with true by (symmetry; apply Z.ltb_lt; lia). reflexivity.
  - rewrite Z.ones_spec_high by lia.
    replace (j <? 128) with false by (symmetry; apply Z.ltb_ge; lia). reflexivity.
Qed.

Lemma testbit_small (v j : Z) :
  0 <= v < two128 -> 128 <= j -> Z.testbit v j = false.
Proof.
  intros Hv Hj. rewrite <- (Z.mod_small v (2 ^ 128)) by (change (2 ^ 128) with two128; lia).
  apply Z.mod_pow2_bits_high. lia.
Qed.

(** Masking clears the [128 - p] low bits. *)
Lemma land_maskTable (v p : Z) :
  0 <= v < two128 -> 0 <= p <= 128 ->
  Z.land v (maskTable p) = v / 2 ^ (128 - p) * 2 ^ (128 - p).
Proof.
  intros Hv Hp.
  rewrite <- Z.shiftl_mul_pow2, <- Z.shiftr_div_pow2 by lia.
  rewrite <- Z.ldiff_ones_r by lia.
  apply Z.bits_inj'; intros j Hj.
  rewrite Z.land_spec, Z.ldiff_spec, testbit_maskTable by lia.
  destruct (Z.lt_ge_cases j 128).
  - replace (j <? 128) with true by (symmetry; apply Z.ltb_lt; lia).
    destruct (Z.lt_ge_cases j (128 - p)).
    + rewrite Z.ones_spec_low by lia.
      replace (128 - p <=? j) with false by (symmetry; apply Z.leb_gt; lia).
      rewrite !andb_false_r. reflexivity.
    + rewrite Z.ones_spec_high by lia.
      replace (128 - p <=? j) with true by (symmetry; apply Z.leb_le; lia).
      reflexivity.
  - rewrite testbit_small by lia. reflexivity.
Qed.

Lemma masked_iff (v p : Z) :
  0 <= v < two128 -> 0 <= p <= 128 ->
  (Z.land v (maskTable p) = v <-> v mod 2 ^ (128 - p) = 0).
Proof.
  intros Hv Hp. rewrite land_maskTable by lia.
  pose proof (Z.div_mod v (2 ^ (128 - p)) ltac:(apply Z.pow_nonzero; lia)).
  split; intros H'; lia.
Qed.

(** A masked valid address is never IPv4-mapped. *)
Lemma mask_not_mapped (v p : Z) :
  0 <= v < two128 -> 0 <= p <= 128 -> is_v4mapped v = false ->
  is_v4mapped (Z.land v (maskTable p)) = false.
Proof.
  intros Hv Hp Hm. unfold is_v4mapped in *.
  apply Z.eqb_neq. apply Z.eqb_neq in Hm. intros Heq. apply Hm.
  destruct (Z.le_gt_cases 96 p).
  - rewrite <- Heq. apply Z.bits_inj'; intros i Hi.
    rewrite !Z.shiftr_spec, Z.land_spec, testbit_maskTable by lia.
    destruct (Z.lt_ge_cases (i + 32) 128).
    + replace (i + 32 <? 128) with true by (symmetry; apply Z.ltb_lt; lia).
      replace (128 - p <=? i + 32) with true by (symmetry; apply Z.leb_le; lia).
      rewrite andb_true_r. reflexivity.
    + rewrite testbit_small by lia. reflexivity.
  - exfalso. assert (Hb : Z.testbit (Z.shiftr (Z.land v (maskTable p)) 32) 0 = true)
      by (rewrite Heq; reflexivity).
    rewrite Z.shiftr_spec, Z.land_spec, testbit_maskTable in Hb by lia.
    replace (128 - p <=? 0 + 32) with false in Hb by (symmetry; apply Z.leb_gt; lia).
    rewrite !andb_false_r in Hb. discriminate.
Qed.

Lemma land_maskTable_range (v p : Z) :
  0 <= v < two128 -> 0 <= p <= 128 -> 0 <= Z.land v (maskTable p) <= v.
Proof.
  intros Hv Hp. rewrite land_maskTable by lia.
  pose proof (Z.div_mod v (2 ^ (128 - p)) ltac:(apply Z.pow_nonzero; lia)).
  pose proof (Z.mod_pos_bound v (2 ^ (128 - p)) ltac:(apply Z.pow_pos_nonneg; lia)).
  assert (0 <= v / 2 ^ (128 - p)) by (apply Z.div_pos; lia).
  assert (0 < 2 ^ (128 - p)) by (apply Z.pow_pos_nonneg; lia).
  nia.
Qed.

Lemma Mask_valid (v p : Z) :
  valid_address (Some v) = true -> 0 <= p <= 128 ->
  Mask (Some v) p = ret (Some (Z.land v (maskTable p))).
Proof.
  intros Hv Hp. unfold valid_address in Hv.
  apply andb_true_iff in Hv as [Hv Hm]. apply andb_true_iff in Hv as [H0 H1].
  apply Z.leb_le in H0. apply Z.ltb_lt in H1. apply negb_true_iff in Hm.
  unfold Mask, NewAddress.
  replace ((p <? 0) || (BitLen <? p)) with false
    by (symmetry; apply orb_false_iff; split; [apply Z.ltb_ge | apply Z.ltb_ge]; unfold BitLen; lia).
  rewrite mask_not_mapped by (assumption || lia). reflexivity.
Qed.

Lemma valid_address_mask (v p : Z) :
  valid_address (Some v) = true -> 0 <= p <= 128 ->
  valid_address (Some (Z.land v (maskTable p))) = true.
Proof.
  intros Hv Hp. unfold valid_address in *.
  apply andb_true_iff in Hv as [Hv Hm]. apply andb_true_iff in Hv as [H0 H1].
  apply Z.leb_le in H0. apply Z.ltb_lt in H1. apply negb_true_iff in Hm.
  pose proof (land_maskTable_range v p (conj H0 H1) Hp).
  rewrite mask_not_mapped by (assumption || lia).
  apply andb_true_iff; split; [apply andb_true_iff; split|]; [apply Z.leb_le | apply Z.ltb_lt |]; try lia.
Qed.

(** * Address arithmetic *)

(** Claim C8: for every 16-byte address and every delta with [|delta| < 2^64],
    the hi/lo carry path of [Add] and the borrow path of [Sub] give exactly
    the result of the big-integer mod [2^128] path applied to the same
    inputs; so do [Add] and [Sub] as a whole, whose negative deltas go
    through the other fast path. *)
Theorem add_sub_fast_path_agrees (v delta : Z) :
  0 <= v < two128 -> Z.abs delta < two64 ->
  (0 <= delta -> Add_fast (Some v) delta = Add_big (Some v) delta) /\
  (0 <= delta -> Sub_fast (Some v) delta = Sub_big (Some v) delta) /\
  Add (Some v) delta = Add_big (Some v) delta /\
  Sub (Some v) delta = Add_big (Some v) (- delta).
Proof.
  intros Hv Hd.
  assert (H64 : two64 <= two128) by (rewrite two64_val, two128_val; lia).
  split; [|split; [|split]].
  - intros Hpos. rewrite Add_fast_val, Add_big_val by lia. reflexivity.
  - intros Hpos. rewrite Sub_fast_val, Sub_big_val by lia. reflexivity.
  - rewrite Add_big_val. destruct (Z.le_gt_cases 0 delta).
    + apply add_val; lia.
    + unfold Add. replace (delta <? 0) with true by (symmetry; apply Z.ltb_lt; lia).
      unfold Sub_nonneg.
      replace (BitLenZ (Z.abs delta) <=? 64) with true
        by (symmetry; apply Z.leb_le; apply BitLenZ_le64; lia).
      rewrite Sub_fast_val by lia. do 3 f_equal. f_equal. lia.
  - rewrite Add_big_val. destruct (Z.le_gt_cases 0 delta).
    + rewrite sub_val by lia. do 3 f_equal.
    + unfold Sub. replace (delta <? 0) with true by (symmetry; apply Z.ltb_lt; lia).
      unfold Add_nonneg.
      replace (BitLenZ (Z.abs delta) <=? 64) with true
        by (symmetry; apply Z.leb_le; apply BitLenZ_le64; lia).
      rewrite Add_fast_val by lia. do 3 f_equal. f_equal. lia.
Qed.

(** * Split: error conditions *)

Lemma shiftl_1 (n : Z) : 0 <= n -> Z.shiftl 1 n = 2 ^ n.
Proof. intros Hn. rewrite Z.shiftl_1_l. reflexivity. Qed.

(** Claim C9: [Split c p] fails with [ErrInvalidSplitPrefix] exactly when
    [p < plen c] or [p > 128]; for [p = plen c] it returns [[c]]; it fails
    with [ErrSplitExcessive] exactly when [p > plen c], [p <= 128] and the part
    count [2^(p - plen c)] exceeds [MaxSplitParts = 2^20] or the shift guard
    [p - plen c >= 63] fires, and then it returns no subnet at all. *)
Theorem split_error_conditions (c : CIDR) (p : Z) :
  ((exists l, Split c p = ret (l, Some ErrInvalidSplitPrefix)) <->
     p < plen c \/ 128 < p) /\
  (p = plen c -> plen c <= 128 -> Split c p = ret ([c], None)) /\
  ((exists l, Split c p = ret (l, Some ErrSplitExcessive)) <->
     plen c < p <= 128 /\ (63 <= p - plen c \/ MaxSplitParts < 2 ^ (p - plen c))) /\
  (forall l e, Split c p = ret (l, Some e) -> l = []) /\
  MaxSplitParts = 2 ^ 20.
Proof.
  unfold Split.
  destruct ((p <? plen c) || (128 <? p)) eqn:E1.
  { apply orb_true_iff in E1. rewrite Z.ltb_lt, Z.ltb_lt in E1.
    split; [split; [intros _; lia | intros _; eexists; reflexivity]|].
    split; [intros -> ?; exfalso; lia|].
    split; [split; [intros [l Hl]; discriminate | intros; exfalso; lia]|].
    split; [intros l e He; injection He; auto | reflexivity]. }
  apply orb_false_iff in E1 as [E1 E2]. apply Z.ltb_ge in E1, E2.
  destruct (p =? plen c) eqn:E3.
  { apply Z.eqb_eq in E3.
    split; [split; [intros [l Hl]; discriminate | intros; exfalso; lia]|].
    split; [intros; reflexivity|].
    split; [split; [intros [l Hl]; discriminate | intros; exfalso; lia]|].
    split; [intros l e He; discriminate | reflexivity]. }
  apply Z.eqb_neq in E3.
  destruct (63 <=? p - plen c) eqn:E4.
  { apply Z.leb_le in E4.
    split; [split; [intros [l Hl]; discriminate | intros; exfalso; lia]|].
    split; [intros; lia|].
    split; [split; [intros _; lia | intros _; eexists; reflexivity]|].
    split; [intros l e He; injection He; auto | reflexivity]. }
  apply Z.leb_gt in E4.
  rewrite shiftl_1 by lia.
  destruct (MaxSplitParts <? 2 ^ (p - plen c)) eqn:E5.
  { apply Z.ltb_lt in E5.
    split; [split; [intros [l Hl]; discriminate | intros; exfalso; lia]|].
    split; [intros; lia|].
    split; [split; [intros _; lia | intros _; eexists; reflexivity]|].
    split; [intros l e He; injection He; auto | reflexivity]. }
  apply Z.ltb_ge in E5.
  destruct (split_loop _ _ _ _) as [res|];
    (split; [split; [intros [l Hl]; discriminate | intros; exfalso; lia]|];
     split; [intros; lia|];
     split; [split; [intros [l Hl]; discriminate | intros; exfalso; lia]|];
     split; [intros l e He; discriminate | reflexivity]).
Qed.

(** * The discarded construction error *)

Lemma Mask_nil (p : Z) : Mask None p = panic.
Proof. unfold Mask. destruct ((p <? 0) || (BitLen <? p)); reflexivity. Qed.

(** Claim C4: the address [::fffe:ffff:ffff] is valid, and so are the networks
    [::fffe:0:0/96], [::1:0:0:0/96] and [::fffe:0:0/95]; but [a + 1 = ::ffff:0:0] and
    [::1:0:0:0 - 1 = ::ffff:ffff:ffff] are IPv4-mapped, so [Add] and [Sub]
    return the zero [Address{}] instead of the modular result, [Mask] of that
    value panics, and [Next], [Prev] and [Split] reach that panic. *)
Theorem mapped_sum_discarded_error :
  let a := 281470681743359 (* ::fffe:ffff:ffff *) in
  let b := 281474976710656 (* ::1:0:0:0 *) in
  NewAddress a = (Some a, None) /\
  is_v4mapped ((a + 1) mod two128) = true /\
  Add (Some a) 1 = ret None /\
  BigInt None = 0 /\ (a + 1) mod two128 <> 0 /\
  NewAddress b = (Some b, None) /\
  is_v4mapped ((b - 1) mod two128) = true /\
  Sub (Some b) 1 = ret None /\
  (forall p, Mask None p = panic) /\
  NewCIDR (Some 281466386776064) 96 = ret (mkCIDR (Some 281466386776064) 96, None) /\
  Next (mkCIDR (Some 281466386776064) 96) = panic /\
  NewCIDR (Some b) 96 = ret (mkCIDR (Some b) 96, None) /\
  Prev (mkCIDR (Some b) 96) = panic /\
  NewCIDR (Some 281466386776064) 95 = ret (mkCIDR (Some 281466386776064) 95, None) /\
  Split (mkCIDR (Some 281466386776064) 95) 96 = panic.
Proof.
  cbv zeta.
  repeat match goal with |- _ /\ _ => split end;
    try (vm_compute; reflexivity); try (vm_compute; discriminate).
  intros p. apply Mask_nil.
Qed.

Lemma add_sub_fast_path_agrees_witness :
  (0 <= 5 < two128 /\ Z.abs (-7) < two64) /\
  Add (Some 5) (-7) = Add_big (Some 5) (-7).
Proof.
  split; [rewrite two128_val, two64_val; simpl; lia|].
  refine (proj1 (proj2 (proj2 (add_sub_fast_path_agrees 5 (-7) _ _))));
    rewrite ?two128_val, ?two64_val; simpl; lia.
Defined.

(** * Networks: basic facts *)

Lemma HostCount_pow (c : CIDR) : 0 <= plen c <= 128 -> HostCount c = 2 ^ (128 - plen c).
Proof. intros H. unfold HostCount. apply shiftl_1. lia. Qed.

Lemma pow_pos' (k : Z) : 0 <= k -> 0 < 2 ^ k.
Proof. intros; apply Z.pow_pos_nonneg; lia. Qed.

Lemma valid_cidr_inv (c : CIDR) :
  valid_cidr c = true ->
  exists v, base c = Some v /\ 0 <= v < two128 /\ is_v4mapped v = false /\
    0 <= plen c <= 128 /\ v mod 2 ^ (128 - plen c) = 0.
Proof.
  destruct c as [[v|] p]; unfold valid_cidr, wf_cidr, valid_address; cbn [base plen];
    [|rewrite !andb_false_l; discriminate].
  destruct (0 <=? v) eqn:E1; [|discriminate].
  destruct (v <? two128) eqn:E2; [|discriminate].
  destruct (is_v4mapped v) eqn:E3; [discriminate|].
  destruct (0 <=? p) eqn:E4; [|discriminate].
  destruct (p <=? 128) eqn:E5; [|discriminate].
  cbn [andb]. intros E6. apply Z.eqb_eq in E6.
  apply Z.leb_le in E1, E4, E5. apply Z.ltb_lt in E2.
  exists v. split; [reflexivity|]. split; [lia|]. split; [exact E3|]. split; [lia|].
  apply (masked_iff v p); [lia|lia|exact E6].
Qed.

Lemma valid_cidr_intro (v p : Z) :
  0 <= v < two128 -> is_v4mapped v = false -> 0 <= p <= 128 -> v mod 2 ^ (128 - p) = 0 ->
  valid_cidr (mkCIDR (Some v) p) = true.
Proof.
  intros Hv Hm Hp Ha. unfold valid_cidr, wf_cidr, valid_address; cbn [base plen].
  rewrite Hm. rewrite (proj2 (masked_iff v p Hv Hp) Ha), Z.eqb_refl.
  replace (0 <=? v) with true by (symmetry; apply Z.leb_le; lia).
  replace (v <? two128) with true by (symmetry; apply Z.ltb_lt; lia).
  replace (0 <=? p) with true by (symmetry; apply Z.leb_le; lia).
  replace (p <=? 128) with true by (symmetry; apply Z.leb_le; lia).
  reflexivity.
Qed.

Lemma valid_address_intro (v : Z) :
  0 <= v < two128 -> is_v4mapped v = false -> valid_address (Some v) = true.
Proof.
  intros Hv Hm. unfold valid_address. rewrite Hm.
  replace (0 <=? v) with true by (symmetry; apply Z.leb_le; lia).
  replace (v <? two128) with true by (symmetry; apply Z.ltb_lt; lia).
  reflexivity.
Qed.

Lemma NewCIDR_aligned (w p : Z) :
  0 <= w < two128 -> is_v4mapped w = false -> 0 <= p <= 128 -> w mod 2 ^ (128 - p) = 0 ->
  NewCIDR (Some w) p = ret (mkCIDR (Some w) p, None).
Proof.
  intros Hw Hm Hp Ha. unfold NewCIDR.
  replace ((p <? 0) || (128 <? p)) with false
    by (symmetry; apply orb_false_iff; split; apply Z.ltb_ge; lia).
  rewrite Mask_valid by (auto using valid_address_intro).
  rewrite (proj2 (masked_iff w p Hw Hp) Ha). reflexivity.
Qed.

Lemma NewAddress_cases (x : Z) :
  (fst (NewAddress x) = Some x /\ is_v4mapped x = false) \/
  (fst (NewAddress x) = None /\ is_v4mapped x = true).
Proof. unfold NewAddress. destruct (is_v4mapped x); auto. Qed.

Lemma BigInt_NewAddress_le (x : Z) : 0 <= x -> BigInt (fst (NewAddress x)) <= x.
Proof. intros Hx. destruct (NewAddress_cases x) as [[-> _]|[-> _]]; simpl; lia. Qed.

Lemma BigInt_NewAddress_nonneg (x : Z) : 0 <= x -> 0 <= BigInt (fst (NewAddress x)).
Proof. intros Hx. destruct (NewAddress_cases x) as [[-> _]|[-> _]]; simpl; lia. Qed.

Lemma two128_split (p : Z) : 0 <= p <= 128 -> two128 = 2 ^ p * 2 ^ (128 - p).
Proof.
  intros Hp. rewrite <- Z.pow_add_r by lia. replace (p + (128 - p)) with 128 by lia. reflexivity.
Qed.

(** An aligned block never extends past [2^128]. *)
Lemma aligned_end (v p : Z) :
  0 <= v < two128 -> 0 <= p <= 128 -> v mod 2 ^ (128 - p) = 0 ->
  v + 2 ^ (128 - p) <= two128.
Proof.
  intros Hv Hp Ha. rewrite (two128_split p Hp) in *.
  pose proof (pow_pos' (128 - p) ltac:(lia)). pose proof (pow_pos' p ltac:(lia)).
  pose proof (Z.div_mod v (2 ^ (128 - p)) ltac:(lia)).
  set (h := 2 ^ (128 - p)) in *. set (q := v / h) in *.
  assert (q < 2 ^ p) by nia. nia.
Qed.

Lemma aligned_mod (x p : Z) :
  0 <= p <= 128 -> x mod 2 ^ (128 - p) = 0 -> (x mod two128) mod 2 ^ (128 - p) = 0.
Proof.
  intros Hp Hx. pose proof (pow_pos' (128 - p) ltac:(lia)).
  apply Z.mod_divide; [lia|]. apply Z.mod_divide in Hx; [|lia].
  rewrite Z.mod_eq by (rewrite two128_val; lia).
  apply Z.divide_sub_r; [assumption|].
  apply Z.divide_mul_l. rewrite (two128_split p Hp). apply Z.divide_factor_r.
Qed.

Lemma LastHost_val (c : CIDR) (v : Z) :
  base c = Some v -> 0 <= plen c <= 128 -> 0 <= v -> v + 2 ^ (128 - plen c) <= two128 ->
  LastHost c = ret (fst (NewAddress (v + 2 ^ (128 - plen c) - 1))).
Proof.
  intros Hb Hp Hv Hend. unfold LastHost. rewrite Hb, HostCount_pow by lia. simpl BigInt.
  apply fill16_small. pose proof (pow_pos' (128 - plen c) ltac:(lia)). lia.
Qed.

Lemma NewCIDR_wrapped (x p : Z) :
  0 <= p <= 128 -> x mod 2 ^ (128 - p) = 0 ->
  ('(res, _) <- NewCIDR (fst (NewAddress (x mod two128))) p ;; ret res) =
  (if is_v4mapped (x mod two128) then panic else ret (mkCIDR (Some (x mod two128)) p)).
Proof.
  intros Hp Hx. pose proof (Z.mod_pos_bound x two128 ltac:(rewrite two128_val; lia)).
  destruct (NewAddress_cases (x mod two128)) as [[-> Hm]|[-> Hm]]; rewrite Hm.
  - rewrite NewCIDR_aligned by (auto using aligned_mod; lia). reflexivity.
  - unfold NewCIDR. rewrite Mask_nil.
    destruct ((p <? 0) || (128 <? p)) eqn:E; [|reflexivity].
    apply orb_true_iff in E as [E|E]; apply Z.ltb_lt in E; lia.
Qed.

Lemma divide_pow_mod (x h : Z) : 0 < h -> (x mod h = 0 <-> (h | x)).
Proof. intros; apply Z.mod_divide; lia. Qed.

Lemma Next_valid (c : CIDR) (v : Z) :
  base c = Some v -> 0 <= v < two128 -> 0 <= plen c <= 128 -> v mod 2 ^ (128 - plen c) = 0 ->
  Next c = (let w := (v + 2 ^ (128 - plen c)) mod two128 in
            if is_v4mapped w then panic else ret (mkCIDR (Some w) (plen c))).
Proof.
  intros Hb Hv Hp Ha. pose proof (pow_pos' (128 - plen c) ltac:(lia)).
  unfold Next. rewrite Hb, HostCount_pow, add_val by lia.
  apply NewCIDR_wrapped; [lia|].
  apply divide_pow_mod in Ha; [|lia]. apply divide_pow_mod; [lia|].
  apply Z.divide_add_r; [assumption | apply Z.divide_refl].
Qed.

Lemma Prev_valid (c : CIDR) (v : Z) :
  base c = Some v -> 0 <= v < two128 -> 0 <= plen c <= 128 -> v mod 2 ^ (128 - plen c) = 0 ->
  Prev c = (let w := (v - 2 ^ (128 - plen c)) mod two128 in
            if is_v4mapped w then panic else ret (mkCIDR (Some w) (plen c))).
Proof.
  intros Hb Hv Hp Ha. pose proof (pow_pos' (128 - plen c) ltac:(lia)).
  assert (2 ^ (128 - plen c) <= two128).
  { rewrite (two128_split (plen c)) by lia. pose proof (pow_pos' (plen c) ltac:(lia)). nia. }
  unfold Prev. rewrite Hb, HostCount_pow, sub_val by lia.
  apply NewCIDR_wrapped; [lia|].
  apply divide_pow_mod in Ha; [|lia]. apply divide_pow_mod; [lia|].
  apply Z.divide_sub_r; [assumption | apply Z.divide_refl].
Qed.

(** Claim C6 (counterexample): the network [::/0] is valid, its [Next] is
    itself, and it overlaps itself. *)
Lemma next_slash0_overlaps :
  valid_cidr (mkCIDR (Some 0) 0) = true /\
  Next (mkCIDR (Some 0) 0) = ret (mkCIDR (Some 0) 0) /\
  Overlaps (mkCIDR (Some 0) 0) (mkCIDR (Some 0) 0) = ret true.
Proof. split; [|split]; vm_compute; reflexivity. Qed.

(** Claim C6 (amended): for a network [N] built by [NewCIDR], whenever
    [N.Next()] returns a network [M] (it panics when the following block is
    IPv4-mapped), [M.Prev()] is [N] again; if the prefix is positive, [M] and
    [N] do not overlap, both as [Overlaps] reports it and as address
    intervals; for the prefix 0, [M] is [N] itself. *)
Theorem next_prev_adjacent (n m : CIDR) :
  valid_cidr n = true -> Next n = ret m ->
  Prev m = ret n /\
  (0 < plen n -> Overlaps n m = ret false /\ ~ ranges_overlap n m) /\
  (plen n = 0 -> m = n).
Proof.
  intros Hn HN. destruct (valid_cidr_inv n Hn) as (v & Hb & Hv & Hm & Hp & Ha).
  rewrite (Next_valid n v Hb Hv Hp Ha) in HN. cbv zeta in HN.
  set (h := 2 ^ (128 - plen n)) in *.
  assert (Hh : 0 < h) by (apply pow_pos'; lia).
  assert (Hend : v + h <= two128) by (apply aligned_end; auto).
  set (w := (v + h) mod two128) in *.
  destruct (is_v4mapped w) eqn:Ew; [discriminate|]. injection HN as <-.
  assert (Hw : w = v + h \/ (w = 0 /\ v + h = two128)).
  { destruct (Z.lt_ge_cases (v + h) two128).
    - left. unfold w. apply Z.mod_small. lia.
    - right. split; [|lia]. unfold w. replace (v + h) with two128 by lia. apply Z.mod_same.
      rewrite two128_val; lia. }
  assert (Hwr : 0 <= w < two128) by (apply Z.mod_pos_bound; rewrite two128_val; lia).
  assert (Hvh : (v + h) mod h = 0).
  { apply divide_pow_mod; [lia|]. apply divide_pow_mod in Ha; [|lia].
    apply Z.divide_add_r; [assumption | apply Z.divide_refl]. }
  assert (Hwa : w mod h = 0) by (apply aligned_mod; auto).
  assert (Hwend : w + h <= two128) by (apply (aligned_end w (plen n)); auto).
  split; [|split].
  - rewrite (Prev_valid (mkCIDR (Some w) (plen n)) w eq_refl Hwr Hp Hwa). cbv zeta.
    cbn [plen]. fold h. replace ((w - h) mod two128) with v.
    + rewrite Hm. destruct n as [b p]; cbn in Hb |- *; subst b; reflexivity.
    + apply Z.mod_unique with (if w =? 0 then -1 else 0); [rewrite two128_val in *; lia|].
      clearbody w h. rewrite two128_val in *. destruct Hw as [Hw|[Hw E]]; subst w.
      * rewrite (proj2 (Z.eqb_neq _ _)) by lia. lia.
      * cbn [Z.eqb]. lia.
  - intros Hpos. split.
    + unfold Overlaps, FirstHost. rewrite (LastHost_val n v Hb Hp) by lia.
      rewrite (LastHost_val (mkCIDR (Some w) (plen n)) w eq_refl Hp) by (cbn [plen]; fold h; lia).
      cbn [plen base]. fold h. rewrite Hb. cbn [BigInt]. unfold ret. cbv beta iota. f_equal.
      pose proof (BigInt_NewAddress_le (v + h - 1) ltac:(lia)).
      pose proof (BigInt_NewAddress_le (w + h - 1) ltac:(lia)).
      assert (h <= 2 ^ 127).
      { unfold h. apply Z.pow_le_mono_r; lia. }
      destruct Hw as [->|[-> E]].
      * replace (v + h <=? _) with false by (symmetry; apply Z.leb_gt; lia). apply andb_false_r.
      * replace (v <=? _) with false by (symmetry; apply Z.leb_gt; rewrite two128_val in *; lia).
        reflexivity.
    + intros [x [Hx1 Hx2]]. unfold in_cidr in *. cbn [base plen BigInt] in *. rewrite Hb in Hx1.
      cbn [BigInt] in Hx1. rewrite HostCount_pow in Hx1, Hx2 by (cbn; lia). cbn [plen] in Hx2. fold h in Hx1, Hx2.
      assert (h <= 2 ^ 127).
      { unfold h. apply Z.pow_le_mono_r; lia. }
      destruct Hw as [->|[-> E]]; rewrite ?two128_val in *; lia.
  - intros H0. assert (v = 0).
    { unfold h in Hend. rewrite H0 in Hend. simpl in Hend. unfold two128 in Hend. lia. }
    assert (w = 0) by (destruct Hw as [->|[-> _]]; [unfold h in *; rewrite H0 in *; simpl in *; unfold two128 in *; lia | reflexivity]).
    destruct n as [b p]; cbn in *; subst; reflexivity.
Qed.

Lemma next_prev_adjacent_witness :
  valid_cidr (mkCIDR (Some 42540766411282592856903984951653826560) 64) = true /\
  Next (mkCIDR (Some 42540766411282592856903984951653826560) 64) =
    ret (mkCIDR (Some 42540766411282592875350729025363378176) 64) /\
  Prev (mkCIDR (Some 42540766411282592875350729025363378176) 64) =
    ret (mkCIDR (Some 42540766411282592856903984951653826560) 64).
Proof.
  assert (Hv : valid_cidr (mkCIDR (Some 42540766411282592856903984951653826560) 64) = true)
    by (vm_compute; reflexivity).
  assert (HN : Next (mkCIDR (Some 42540766411282592856903984951653826560) 64) =
    ret (mkCIDR (Some 42540766411282592875350729025363378176) 64)) by (vm_compute; reflexivity).
  split; [exact Hv|]. split; [exact HN|].
  exact (proj1 (next_prev_adjacent _ _ Hv HN)).
Defined.

Lemma Split_ok (c : CIDR) (p : Z) (subs : list CIDR) :
  Split c p = ret (subs, None) ->
  plen c <= p <= 128 /\
  ((p = plen c /\ subs = [c]) \/
   (plen c < p /\ p - plen c < 63 /\ 2 ^ (p - plen c) <= MaxSplitParts /\
    split_loop (Z.to_nat (2 ^ (p - plen c))) (base c) (Z.shiftr (HostCount c) (p - plen c)) p
      = ret subs)).
Proof.
  unfold Split.
  destruct ((p <? plen c) || (128 <? p)) eqn:E1; [discriminate|].
  apply orb_false_iff in E1 as [E1 E2]. apply Z.ltb_ge in E1, E2.
  destruct (p =? plen c) eqn:E3.
  { apply Z.eqb_eq in E3. intros H. injection H as <-. split; [lia|]. left; auto. }
  apply Z.eqb_neq in E3.
  destruct (63 <=? p - plen c) eqn:E4; [discriminate|]. apply Z.leb_gt in E4.
  rewrite shiftl_1 by lia.
  destruct (MaxSplitParts <? 2 ^ (p - plen c)) eqn:E5; [discriminate|]. apply Z.ltb_ge in E5.
  cbv zeta. destruct (split_loop _ _ _ _) as [res|] eqn:E6; [|discriminate].
  intros H. injection H as <-. split; [lia|]. right. repeat split; auto; lia.
Qed.

Lemma HostCount_shiftr (c : CIDR) (p : Z) :
  0 <= plen c <= p -> p <= 128 ->
  Z.shiftr (HostCount c) (p - plen c) = 2 ^ (128 - p).
Proof.
  intros H1 H2. rewrite HostCount_pow by lia. rewrite Z.shiftr_div_pow2 by lia.
  replace (128 - plen c) with ((128 - p) + (p - plen c)) by lia.
  rewrite Z.pow_add_r by lia. apply Z.div_mul. apply Z.pow_nonzero; lia.
Qed.

Lemma nth_error_seq_lt (s n i : nat) : (i < n)%nat -> nth_error (seq s n) i = Some (s + i)%nat.
Proof.
  revert s i. induction n as [|n IH]; intros s i Hi; [lia|].
  destruct i as [|i]; simpl; [f_equal; lia|]. rewrite IH by lia. f_equal; lia.
Qed.

(** The loop of [Split] from an aligned, non-IPv4-mapped address: when it
    does not panic it emits the blocks [x + i * st] for [i < n]. *)
Lemma split_loop_ok (n : nat) (x st p : Z) (subs : list CIDR) :
  0 <= p <= 128 -> st = 2 ^ (128 - p) -> 0 <= x -> is_v4mapped x = false ->
  x mod st = 0 -> x + Z.of_nat n * st <= two128 ->
  split_loop n (Some x) st p = ret subs ->
  subs = map (fun i => mkCIDR (Some (x + Z.of_nat i * st)) p) (seq 0 n).
Proof.
  intros Hp Hst. revert x subs. induction n as [|n IH]; intros x subs Hx Hm Ha Hend H.
  - injection H as <-. reflexivity.
  - assert (Hs : 0 < st) by (subst; apply pow_pos'; lia).
    assert (Hxr : 0 <= x < two128) by lia.
    simpl in H. rewrite NewCIDR_aligned in H by (auto; subst; auto).
    rewrite add_val in H by lia.
    destruct n as [|n].
    + destruct (fst (NewAddress _)); injection H as <-; simpl; do 3 f_equal; lia.
    + assert (Hlt : x + st < two128) by lia.
      rewrite Z.mod_small in H by lia.
      destruct (NewAddress_cases (x + st)) as [[E Hm']|[E _]]; rewrite E in H; unfold ret in H; cbv beta iota in H.
      * revert H. destruct (split_loop _ _ _ _) as [rest|] eqn:Hr; intros H; [|discriminate].
        injection H as <-.
        assert (Ha' : (x + st) mod st = 0).
        { apply divide_pow_mod in Ha; [|lia]. apply divide_pow_mod; [lia|].
          apply Z.divide_add_r; [assumption | apply Z.divide_refl]. }
        rewrite (IH (x + st) rest) by (assumption || lia).
        change (seq 0 (S (S n))) with (0%nat :: seq 1 (S n)).
        rewrite <- (seq_shift (S n) 0), map_cons, map_map.
        f_equal; [do 2 f_equal; lia|]. apply map_ext. intros i. do 2 f_equal. lia.
      * cbn [split_loop] in H. unfold NewCIDR in H. rewrite Mask_nil in H.
        replace ((p <? 0) || (128 <? p)) with false in H
          by (symmetry; apply orb_false_iff; split; apply Z.ltb_ge; lia).
        unfold panic in H. cbv beta iota in H. discriminate.
Qed.

(** [Overlaps] never reports an overlap between disjoint blocks: the ends
    it computes with [LastHost] are at most the true ends. *)
Lemma Overlaps_disjoint_blocks (s t : CIDR) (vs vt : Z) :
  base s = Some vs -> base t = Some vt -> 0 <= plen s <= 128 -> 0 <= plen t <= 128 ->
  0 <= vs -> 0 <= vt -> vs + 2 ^ (128 - plen s) <= two128 -> vt + 2 ^ (128 - plen t) <= two128 ->
  ~ ranges_overlap s t -> Overlaps s t = ret false.
Proof.
  intros Hbs Hbt Hps Hpt Hvs Hvt Hes Het Hd.
  pose proof (pow_pos' (128 - plen s) ltac:(lia)). pose proof (pow_pos' (128 - plen t) ltac:(lia)).
  unfold Overlaps, FirstHost.
  rewrite (LastHost_val s vs Hbs Hps) by lia. rewrite (LastHost_val t vt Hbt Hpt) by lia.
  rewrite Hbs, Hbt. cbn [BigInt]. unfold ret. cbv beta iota. f_equal.
  pose proof (BigInt_NewAddress_le (vs + 2 ^ (128 - plen s) - 1) ltac:(lia)).
  pose proof (BigInt_NewAddress_le (vt + 2 ^ (128 - plen t) - 1) ltac:(lia)).
  destruct (vs <=? _) eqn:E1; [|reflexivity]. destruct (vt <=? _) eqn:E2; [|reflexivity].
  exfalso. apply Z.leb_le in E1, E2. apply Hd. exists (Z.max vs vt).
  unfold in_cidr. rewrite Hbs, Hbt, !HostCount_pow by lia. cbn [BigInt]. lia.
Qed.

Lemma Overlaps_disjoint (s t : CIDR) :
  valid_cidr s = true -> valid_cidr t = true -> ~ ranges_overlap s t ->
  Overlaps s t = ret false.
Proof.
  intros Hs Ht Hd.
  destruct (valid_cidr_inv s Hs) as (vs & Hbs & Hvs & _ & Hps & Has).
  destruct (valid_cidr_inv t Ht) as (vt & Hbt & Hvt & _ & Hpt & Hat).
  apply (Overlaps_disjoint_blocks s t vs vt); auto; try lia; apply aligned_end; auto.
Qed.

Lemma in_cidr_block (v p x : Z) :
  0 <= p <= 128 -> in_cidr (mkCIDR (Some v) p) x <-> v <= x <= v + 2 ^ (128 - p) - 1.
Proof. intros Hp. unfold in_cidr. rewrite HostCount_pow by (cbn; lia). cbn. reflexivity. Qed.

(** Claim C2: when [Split(N, p)] succeeds on a network built by [NewCIDR], it
    returns [2^(p - N.plen)] networks; the [i]-th has prefix [p] and base
    [base + i * step] with [step = hostCount(N) >> (p - N.plen)]; together they
    cover exactly the addresses of [N]; and no two of them overlap (as address
    intervals, and as [Overlaps] reports it). *)
Theorem split_progression (c : CIDR) (p : Z) (subs : list CIDR) :
  valid_cidr c = true -> Split c p = ret (subs, None) ->
  let st := Z.shiftr (HostCount c) (p - plen c) in
  Z.of_nat (length subs) = 2 ^ (p - plen c) /\
  (forall i s, nth_error subs i = Some s ->
     s = mkCIDR (Some (BigInt (base c) + Z.of_nat i * st)) p) /\
  (forall x, in_cidr c x <-> exists s, In s subs /\ in_cidr s x) /\
  (forall i j s t, i <> j -> nth_error subs i = Some s -> nth_error subs j = Some t ->
     ~ ranges_overlap s t /\ Overlaps s t = ret false).
Proof.
  intros Hc Hsplit st.
  destruct (valid_cidr_inv c Hc) as (v & Hb & Hv & Hm & Hp & Ha).
  destruct (Split_ok c p subs Hsplit) as [Hpp Hcase].
  assert (Hst : st = 2 ^ (128 - p)) by (apply HostCount_shiftr; lia).
  assert (Hst0 : 0 < st) by (rewrite Hst; apply pow_pos'; lia).
  (* the blocks, as a function of their index *)
  assert (Hform : Z.of_nat (length subs) = 2 ^ (p - plen c) /\
     subs = map (fun i => mkCIDR (Some (v + Z.of_nat i * st)) p) (seq 0 (length subs))).
  { destruct Hcase as [[Heq ->] | (Hlt & H63 & Hmax & Hloop)].
    - split; [rewrite Heq, Z.sub_diag; reflexivity|]. cbn.
      rewrite Z.add_0_r, <- Hb, Heq. destruct c; reflexivity.
    - rewrite Hb in Hloop. fold st in Hloop.
      assert (Hpow : 0 < 2 ^ (p - plen c)) by (apply pow_pos'; lia).
      assert (Hn : Z.of_nat (Z.to_nat (2 ^ (p - plen c))) * st = 2 ^ (128 - plen c)).
      { rewrite Z2Nat.id by lia. rewrite Hst, <- Z.pow_add_r by lia. f_equal. lia. }
      pose proof (aligned_end v (plen c) Hv ltac:(lia) Ha).
      assert (Hva : v mod st = 0).
      { apply divide_pow_mod; [lia|]. apply divide_pow_mod in Ha; [|apply pow_pos'; lia].
        eapply Z.divide_trans; [|exact Ha]. rewrite Hst.
        exists (2 ^ (p - plen c)). rewrite <- Z.pow_add_r by lia. f_equal. lia. }
      pose proof (split_loop_ok (Z.to_nat (2 ^ (p - plen c))) v st p subs ltac:(lia) Hst ltac:(lia) Hm Hva ltac:(lia) Hloop) as ->.
      rewrite length_map, length_seq, Z2Nat.id by lia. split; reflexivity. }
  destruct Hform as [Hlen Hsubs].
  set (n := length subs) in *.
  assert (Hnst : Z.of_nat n * st = HostCount c).
  { rewrite Hlen, Hst, HostCount_pow by lia. rewrite <- Z.pow_add_r by lia. f_equal. lia. }
  assert (Hnth : forall i s, nth_error subs i = Some s ->
            (i < n)%nat /\ s = mkCIDR (Some (v + Z.of_nat i * st)) p).
  { intros i s Hi. assert (Hin : (i < n)%nat).
    { unfold n. apply nth_error_Some. rewrite Hi. discriminate. }
    split; [exact Hin|]. rewrite Hsubs in Hi. rewrite nth_error_map, nth_error_seq_lt in Hi by lia.
    injection Hi as <-. reflexivity. }
  assert (Hblk : forall i x, in_cidr (mkCIDR (Some (v + Z.of_nat i * st)) p) x <->
                   v + Z.of_nat i * st <= x <= v + Z.of_nat i * st + st - 1).
  { intros i x. rewrite in_cidr_block by lia. rewrite Hst. reflexivity. }
  split; [exact Hlen|]. split; [|split].
  - intros i s Hi. rewrite Hb. exact (proj2 (Hnth i s Hi)).
  - intros x. unfold in_cidr at 1. rewrite Hb, <- Hnst. cbn [BigInt]. split.
    + intros Hx.
      pose proof (Z.div_mod (x - v) st ltac:(lia)). pose proof (Z.mod_pos_bound (x - v) st Hst0).
      assert (Hi0 : 0 <= (x - v) / st) by (apply Z.div_pos; lia).
      remember ((x - v) / st) as i eqn:Ei. remember ((x - v) mod st) as r eqn:Er.
      assert (Hin : i < Z.of_nat n) by nia.
      exists (mkCIDR (Some (v + Z.of_nat (Z.to_nat i) * st)) p). split.
      * rewrite Hsubs. apply in_map_iff. exists (Z.to_nat i). split; [reflexivity|].
        apply in_seq. lia.
      * apply Hblk. rewrite Z2Nat.id by lia. nia.
    + intros [s [Hs Hx]]. rewrite Hsubs in Hs. apply in_map_iff in Hs as [i [<- Hi]].
      apply in_seq in Hi. apply Hblk in Hx. nia.
  - intros i j s t Hij Hi Hj.
    destruct (Hnth i s Hi) as [Hin ->]. destruct (Hnth j t Hj) as [Hjn ->].
    assert (Hd : ~ ranges_overlap (mkCIDR (Some (v + Z.of_nat i * st)) p)
                                  (mkCIDR (Some (v + Z.of_nat j * st)) p)).
    { intros [x [Hx1 Hx2]]. apply Hblk in Hx1, Hx2.
      destruct (proj1 (Nat.lt_gt_cases i j) Hij) as [Hl|Hl]; nia. }
    split; [exact Hd|].
    assert (Hend : v + Z.of_nat n * st <= two128)
      by (rewrite Hnst, HostCount_pow by lia; apply aligned_end; auto).
    assert (0 <= Z.of_nat i * st) by nia. assert (0 <= Z.of_nat j * st) by nia.
    apply Overlaps_disjoint_blocks with (vs := v + Z.of_nat i * st) (vt := v + Z.of_nat j * st);
      cbn [base plen]; rewrite <- ?Hst; try (reflexivity || exact Hd || lia); nia.
Qed.

(** Claim C2, on the split of [2001:db8::/124] into [/126] networks. *)
Lemma split_progression_witness :
  valid_cidr (mkCIDR (Some 42540766411282592856903984951653826560) 124) = true /\
  Split (mkCIDR (Some 42540766411282592856903984951653826560) 124) 126 =
    ret ([mkCIDR (Some 42540766411282592856903984951653826560) 126;
          mkCIDR (Some 42540766411282592856903984951653826564) 126;
          mkCIDR (Some 42540766411282592856903984951653826568) 126;
          mkCIDR (Some 42540766411282592856903984951653826572) 126], None) /\
  Z.of_nat 4 = 2 ^ (126 - 124).
Proof.
  assert (Hv : valid_cidr (mkCIDR (Some 42540766411282592856903984951653826560) 124) = true)
    by (vm_compute; reflexivity).
  assert (Hs : Split (mkCIDR (Some 42540766411282592856903984951653826560) 124) 126 =
    ret ([mkCIDR (Some 42540766411282592856903984951653826560) 126;
          mkCIDR (Some 42540766411282592856903984951653826564) 126;
          mkCIDR (Some 42540766411282592856903984951653826568) 126;
          mkCIDR (Some 42540766411282592856903984951653826572) 126], None))
    by (vm_compute; reflexivity).
  split; [exact Hv|]. split; [exact Hs|].
  exact (proj1 (split_progression _ _ _ Hv Hs)).
Defined.

Lemma split_loop_length (n : nat) (cur : Address) (st p : Z) (subs : list CIDR) :
  split_loop n cur st p = ret subs -> length subs = n.
Proof.
  revert cur subs. induction n as [|n IH]; intros cur subs H.
  - injection H as <-. reflexivity.
  - cbn [split_loop] in H.
    destruct (NewCIDR cur p) as [[c e]|]; [|discriminate].
    destruct (Add cur st) as [cur'|]; [|discriminate].
    unfold ret in H. cbv beta iota in H.
    destruct (split_loop n cur' st p) as [rest|] eqn:Hr; [|discriminate].
    injection H as <-. cbn. f_equal. exact (IH cur' rest Hr).
Qed.

(** Draining the iterator built for [n] parts runs the loop of [Split]. *)
Lemma drain_split_loop (n : nat) (cur : Address) (st p : Z) :
  drain (S n) (mkIter (Z.of_nat n) cur st p) = split_loop n cur st p.
Proof.
  revert cur. induction n as [|n IH]; intros cur; [reflexivity|].
  cbn [drain split_loop]. unfold IterNext. cbn [remaining current step it_plen].
  replace (Z.of_nat (S n) =? 0) with false by (symmetry; apply Z.eqb_neq; lia).
  replace (Z.of_nat (S n) - 1) with (Z.of_nat n) by lia.
  destruct (NewCIDR cur p) as [[c e]|]; [|reflexivity].
  destruct (Add cur st) as [cur'|]; [|reflexivity].
  unfold ret. cbv beta iota. rewrite <- IH. reflexivity.
Qed.

Lemma next_n_S (m : nat) (it : SubnetIterator) :
  next_n (S m) it =
  ('(c, ok, it') <- IterNext it ;;
   '(rest, it'') <- next_n m it' ;;
   ret ((c, ok) :: rest, it'')).
Proof. reflexivity. Qed.

(** Calling [Next] [n + 1] times on that iterator: [n] subnets with [true],
    then the zero value with [false]. *)
Lemma next_n_split_loop (n : nat) (cur : Address) (st p : Z) (subs : list CIDR) :
  split_loop n cur st p = ret subs ->
  exists it', next_n (S n) (mkIter (Z.of_nat n) cur st p) =
              ret (map (fun s => (s, true)) subs ++ [(CIDR0, false)], it').
Proof.
  revert cur subs. induction n as [|n IH]; intros cur subs H.
  - injection H as <-. eexists. reflexivity.
  - cbn [split_loop] in H. rewrite next_n_S. unfold IterNext. cbn [remaining current step it_plen].
    replace (Z.of_nat (S n) =? 0) with false by (symmetry; apply Z.eqb_neq; lia).
    replace (Z.of_nat (S n) - 1) with (Z.of_nat n) by lia.
    destruct (NewCIDR cur p) as [[c e]|]; [|discriminate].
    destruct (Add cur st) as [cur'|]; [|discriminate].
    unfold ret in H |- *. cbv beta iota in H |- *.
    destruct (split_loop n cur' st p) as [rest|] eqn:Hr; [|discriminate].
    injection H as <-. destruct (IH cur' rest Hr) as [it' Hit']. unfold ret in Hit'.
    rewrite Hit'. exists it'. reflexivity.
Qed.

(** Claim C10: for a network built by [NewCIDR] and any target prefix,
    constructing [SubnetIterator] and draining it gives the same outcome as
    [Split]: the same error, or the same networks in the same order (and the
    same panics); when [Split] succeeds with [k] networks the iterator starts
    with [remaining = k], its first [k] calls of [Next] return those networks
    with [ok = true], and the next call returns [ok = false]. *)
Theorem split_iterator_agree (c : CIDR) (p : Z) :
  valid_cidr c = true ->
  iterate_split c p = Split c p /\
  (forall subs, Split c p = ret (subs, None) ->
     exists it it', NewSubnetIterator c p = ret (Some it, None) /\
       remaining it = Z.of_nat (length subs) /\
       next_n (S (length subs)) it =
         ret (map (fun s => (s, true)) subs ++ [(CIDR0, false)], it')).
Proof.
  intros Hc. destruct (valid_cidr_inv c Hc) as (v & Hb & Hv & Hm & Hp & Ha).
  unfold iterate_split, NewSubnetIterator, Split.
  destruct ((p <? plen c) || (128 <? p)) eqn:E1.
  { split; [reflexivity|]. intros subs H. discriminate. }
  apply orb_false_iff in E1 as [E1 E2]. apply Z.ltb_ge in E1, E2.
  destruct (p =? plen c) eqn:E3.
  { apply Z.eqb_eq in E3. subst p.
    assert (Hn : NewCIDR (base c) (plen c) = ret (c, None)).
    { rewrite Hb, NewCIDR_aligned by auto. rewrite <- Hb. destruct c; reflexivity. }
    assert (Ha0 : Add (base c) 0 = ret (base c)).
    { rewrite Hb, add_val by lia. rewrite Z.add_0_r, Z.mod_small by lia.
      unfold NewAddress. rewrite Hm. reflexivity. }
    assert (Hsl : split_loop 1 (base c) 0 (plen c) = ret [c]).
    { cbn [split_loop]. rewrite Hn, Ha0. reflexivity. }
    unfold ret at 1. cbv beta iota. cbn [remaining]. split.
    - change (drain (S (Z.to_nat 1)) (mkIter 1 (base c) 0 (plen c))) with
        (drain (S 1) (mkIter (Z.of_nat 1) (base c) 0 (plen c))).
      rewrite drain_split_loop, Hsl. reflexivity.
    - intros subs H. injection H as <-.
      destruct (next_n_split_loop 1 (base c) 0 (plen c) [c] Hsl) as [it' Hit'].
      exists (mkIter 1 (base c) 0 (plen c)), it'. split; [reflexivity|].
      split; [reflexivity | exact Hit']. }
  apply Z.eqb_neq in E3.
  destruct (63 <=? p - plen c) eqn:E4.
  { split; [reflexivity|]. intros subs H. discriminate. }
  apply Z.leb_gt in E4. rewrite shiftl_1 by lia.
  destruct (MaxSplitParts <? 2 ^ (p - plen c)) eqn:E5.
  { split; [reflexivity|]. intros subs H. discriminate. }
  cbv zeta. cbn [remaining].
  assert (Hpow : 0 <= 2 ^ (p - plen c)) by (apply Z.pow_nonneg; lia).
  set (n := Z.to_nat (2 ^ (p - plen c))).
  replace (2 ^ (p - plen c)) with (Z.of_nat n) by (unfold n; rewrite Z2Nat.id; lia).
  cbv beta iota delta [ret]. cbn [remaining]. rewrite Nat2Z.id, drain_split_loop. split.
  - reflexivity.
  - intros subs H. destruct (split_loop n (base c) _ p) as [res|] eqn:Hl; [|discriminate].
    injection H as <-.
    assert (Hlen : length res = n).
    { exact (split_loop_length _ _ _ _ _ Hl). }
    destruct (next_n_split_loop n (base c) _ p res Hl) as [it' Hit'].
    exists (mkIter (Z.of_nat n) (base c) (Z.shiftr (HostCount c) (p - plen c)) p), it'.
    split; [reflexivity|]. rewrite Hlen. split; [reflexivity | exact Hit'].
Qed.

(** Claim C10, on [2001:db8::/124] split into [/126] networks. *)
Lemma split_iterator_agree_witness :
  valid_cidr (mkCIDR (Some 42540766411282592856903984951653826560) 124) = true /\
  iterate_split (mkCIDR (Some 42540766411282592856903984951653826560) 124) 126 =
  Split (mkCIDR (Some 42540766411282592856903984951653826560) 124) 126.
Proof.
  assert (Hv : valid_cidr (mkCIDR (Some 42540766411282592856903984951653826560) 124) = true)
    by (vm_compute; reflexivity).
  split; [exact Hv|]. exact (proj1 (split_iterator_agree _ 126 Hv)).
Defined.

(** Claim C9, on the degenerate split of [2001:db8::/124] at [/124]. *)
Lemma split_error_conditions_witness :
  Split (mkCIDR (Some 42540766411282592856903984951653826560) 124) 124 =
  ret ([mkCIDR (Some 42540766411282592856903984951653826560) 124], None).
Proof.
  exact (proj1 (proj2 (split_error_conditions
    (mkCIDR (Some 42540766411282592856903984951653826560) 124) 124)) eq_refl
    ltac:(cbn; lia)).
Defined.

(** Claim C1 (code bug): the networks [::fffe:0:0/96] and [::1:0:0:0/96] are
    valid, but [Summarize] of them panics: [prev.Next()] lands on the
    IPv4-mapped block [::ffff:0:0/96], [Add] returns the zero [Address] and
    [NewCIDR] masks it. *)
Theorem summarize_mapped_neighbour_panics :
  valid_cidr (mkCIDR (Some 281466386776064) 96) = true /\
  valid_cidr (mkCIDR (Some 281474976710656) 96) = true /\
  Summarize [mkCIDR (Some 281466386776064) 96; mkCIDR (Some 281474976710656) 96] = panic.
Proof. split; [|split]; vm_compute; reflexivity. Qed.

Lemma cover_step_top :
  cover_step (Some (two128 - 1)) (Some (two128 - 1)) =
  ret (mkCIDR (Some (two128 - 1)) 128, Some 0).
Proof. vm_compute. reflexivity. Qed.

Lemma cover_step_zero :
  cover_step (Some 0) (Some (two128 - 1)) = ret (mkCIDR (Some 0) 0, Some 0).
Proof. vm_compute. reflexivity. Qed.

Lemma cover_loop_zero_top (fuel : nat) :
  cover_loop fuel (Some 0) (Some (two128 - 1)) = ret None.
Proof.
  induction fuel as [|f IH]; [reflexivity|].
  cbn [cover_loop]. replace (Compare (Some 0) (Some (two128 - 1))) with Lt by reflexivity.
  rewrite cover_step_zero. unfold ret at 1. cbv beta iota. rewrite IH. reflexivity.
Qed.

(** Claim C3 (code bug): for [start = end = ffff:ffff:ffff:ffff:ffff:ffff:ffff:ffff]
    the loop of [CoverRange] never exits: after the [/128] block the cursor
    wraps to [::], which is below [end], and from there every iteration emits
    [::/0] and moves the cursor back to [::].  Whatever the number of
    iterations allowed, the loop is still running. *)
Theorem cover_range_top_never_terminates (fuel : nat) :
  CoverRange fuel (Some (two128 - 1)) (Some (two128 - 1)) = ret None.
Proof.
  unfold CoverRange. replace (Compare (Some (two128 - 1)) (Some (two128 - 1))) with Eq
    by reflexivity.
  destruct fuel as [|f]; [reflexivity|]. cbn [cover_loop].
  replace (Compare (Some (two128 - 1)) (Some (two128 - 1))) with Eq by reflexivity.
  rewrite cover_step_top. unfold ret at 1. cbv beta iota. rewrite cover_loop_zero_top.
  reflexivity.
Qed.

(** The example of the package: [2001:db8::1] to [2001:db8::ff] is covered by
    eight networks. *)
Lemma cover_range_example :
  CoverRange 9 (Some 42540766411282592856903984951653826561)
               (Some 42540766411282592856903984951653826815) =
  ret (Some ([mkCIDR (Some 42540766411282592856903984951653826561) 128;
              mkCIDR (Some 42540766411282592856903984951653826562) 127;
              mkCIDR (Some 42540766411282592856903984951653826564) 126;
              mkCIDR (Some 42540766411282592856903984951653826568) 125;
              mkCIDR (Some 42540766411282592856903984951653826576) 124;
              mkCIDR (Some 42540766411282592856903984951653826592) 123;
              mkCIDR (Some 42540766411282592856903984951653826624) 122;
              mkCIDR (Some 42540766411282592856903984951653826688) 121], None)).
Proof. vm_compute. reflexivity. Qed.

(** * Printing and parsing addresses *)


Lemma appendHex_app (b : str) (x : Z) : appendHex b x = b ++ appendHex [] x.
Proof.
  unfold appendHex.
  destruct (4096 <=? x), (256 <=? x), (16 <=? x); simpl; rewrite <- ?app_assoc; reflexivity.
Qed.

Lemma digit_hex (d : Z) : 0 <= d < 16 -> hex_val (digit_at d) = Some d.
Proof.
  intros Hd.
  assert (d = 0 \/ d = 1 \/ d = 2 \/ d = 3 \/ d = 4 \/ d = 5 \/ d = 6 \/ d = 7 \/
          d = 8 \/ d = 9 \/ d = 10 \/ d = 11 \/ d = 12 \/ d = 13 \/ d = 14 \/ d = 15) as Hc by lia.
  repeat destruct Hc as [->|Hc]; [reflexivity ..|subst; reflexivity].
Qed.

Lemma nibble_split (g k : Z) : 0 <= k ->
  Z.shiftr g (k + 4) * 16 + Z.land (Z.shiftr g k) 15 = Z.shiftr g k.
Proof.
  intros Hk. rewrite <- (Z.shiftr_shiftr g k 4) by lia.
  rewrite Z.shiftr_div_pow2 by lia. change 15 with (Z.ones 4). rewrite Z.land_ones by lia.
  change (2 ^ 4) with 16. rewrite Z.mul_comm. symmetry. apply Z.div_mod. lia.
Qed.

Lemma nibble_range (g k : Z) : 0 <= Z.land (Z.shiftr g k) 15 < 16.
Proof. change 15 with (Z.ones 4). rewrite Z.land_ones by lia. apply Z.mod_pos_bound. reflexivity. Qed.

Lemma shiftr_le (g k : Z) : 0 <= g -> 0 <= k -> 0 <= Z.shiftr g k <= g.
Proof.
  intros Hg Hk. rewrite Z.shiftr_div_pow2 by lia. split; [apply Z.div_pos; lia|].
  apply Z.div_le_upper_bound; [lia|]. pose proof (Z.pow_pos_nonneg 2 k ltac:(lia) Hk). nia.
Qed.

Lemma shiftr_small (g k : Z) : 0 <= g < 2 ^ k -> 0 <= k -> Z.shiftr g k = 0.
Proof. intros Hg Hk. rewrite Z.shiftr_div_pow2 by lia. apply Z.div_small. lia. Qed.

Lemma hex_props (g : Z) : 0 <= g < 65536 ->
  (exists off, off <> 0 /\ hex_scan (appendHex [] g) 0 0 = Some (off, g, [])) /\
  appendHex [] g <> [] /\ forallb hexdig (appendHex [] g) = true.
Proof.
  intros Hg.
  pose proof (nibble_split g 0 ltac:(lia)) as N0. pose proof (nibble_split g 4 ltac:(lia)) as N1.
  pose proof (nibble_split g 8 ltac:(lia)) as N2. rewrite Z.shiftr_0_r in N0.
  change (0 + 4) with 4 in N0. change (4 + 4) with 8 in N1. change (8 + 4) with 12 in N2.
  pose proof (shiftr_le g 4 ltac:(lia) ltac:(lia)).
  pose proof (shiftr_le g 8 ltac:(lia) ltac:(lia)). pose proof (shiftr_le g 12 ltac:(lia) ltac:(lia)).
  pose proof (nibble_range g 0) as R0. rewrite Z.shiftr_0_r in R0.
  pose proof (nibble_range g 4). pose proof (nibble_range g 8).
  unfold appendHex.
  destruct (4096 <=? g) eqn:E3; [apply Z.leb_le in E3|apply Z.leb_gt in E3];
  (destruct (256 <=? g) eqn:E2; [apply Z.leb_le in E2|apply Z.leb_gt in E2]);
  (destruct (16 <=? g) eqn:E1; [apply Z.leb_le in E1|apply Z.leb_gt in E1]); try lia;
  cbn [app].
  - assert (H12 : 0 <= Z.shiftr g 12 < 16) by (rewrite Z.shiftr_div_pow2 by lia;
      split; [apply Z.div_pos|apply Z.div_lt_upper_bound]; lia).
    cbn [hex_scan]. rewrite !digit_hex by assumption. cbv zeta.
    replace (3 <? 0) with false by reflexivity. replace (3 <? 0 + 1) with false by reflexivity.
    replace (3 <? 0 + 1 + 1) with false by reflexivity.
    replace (3 <? 0 + 1 + 1 + 1) with false by reflexivity.
    replace (0 * 16 + Z.shiftr g 12) with (Z.shiftr g 12) by lia.
    rewrite N2, N1, N0.
    replace (65535 <? Z.shiftr g 12) with false by (symmetry; apply Z.ltb_ge; lia).
    replace (65535 <? Z.shiftr g 8) with false by (symmetry; apply Z.ltb_ge; lia).
    replace (65535 <? Z.shiftr g 4) with false by (symmetry; apply Z.ltb_ge; lia).
    replace (65535 <? g) with false by (symmetry; apply Z.ltb_ge; lia).
    split; [eexists; split; [|reflexivity]; lia|]. split; [discriminate|].
    cbn [forallb]. unfold hexdig. rewrite !digit_hex by assumption. reflexivity.
  - assert (H8 : Z.shiftr g 12 = 0) by (apply shiftr_small; [change (2 ^ 12) with 4096|]; lia).
    rewrite H8 in N2. assert (H8' : 0 <= Z.shiftr g 8 < 16) by lia.
    replace (Z.land (Z.shiftr g 8) 15) with (Z.shiftr g 8) by lia.
    cbn [hex_scan]. rewrite !digit_hex by assumption. cbv zeta.
    replace (3 <? 0) with false by reflexivity. replace (3 <? 0 + 1) with false by reflexivity.
    replace (3 <? 0 + 1 + 1) with false by reflexivity.
    replace (0 * 16 + Z.shiftr g 8) with (Z.shiftr g 8) by lia.
    rewrite N1, N0.
    replace (65535 <? Z.shiftr g 8) with false by (symmetry; apply Z.ltb_ge; lia).
    replace (65535 <? Z.shiftr g 4) with false by (symmetry; apply Z.ltb_ge; lia).
    replace (65535 <? g) with false by (symmetry; apply Z.ltb_ge; lia).
    split; [eexists; split; [|reflexivity]; lia|]. split; [discriminate|].
    cbn [forallb]. unfold hexdig. rewrite !digit_hex by assumption. reflexivity.
  - assert (H8 : Z.shiftr g 8 = 0) by (apply shiftr_small; [change (2 ^ 8) with 256|]; lia).
    rewrite H8 in N1. assert (H4' : 0 <= Z.shiftr g 4 < 16) by lia.
    replace (Z.land (Z.shiftr g 4) 15) with (Z.shiftr g 4) by lia.
    cbn [hex_scan]. rewrite !digit_hex by assumption. cbv zeta.
    replace (3 <? 0) with false by reflexivity. replace (3 <? 0 + 1) with false by reflexivity.
    replace (0 * 16 + Z.shiftr g 4) with (Z.shiftr g 4) by lia.
    rewrite N0.
    replace (65535 <? Z.shiftr g 4) with false by (symmetry; apply Z.ltb_ge; lia).
    replace (65535 <? g) with false by (symmetry; apply Z.ltb_ge; lia).
    split; [eexists; split; [|reflexivity]; lia|]. split; [discriminate|].
    cbn [forallb]. unfold hexdig. rewrite !digit_hex by assumption. reflexivity.
  - replace (Z.land g 15) with g by (pose proof (shiftr_small g 4); lia).
    cbn [hex_scan]. rewrite !digit_hex by lia. cbv zeta.
    replace (3 <? 0) with false by reflexivity.
    replace (0 * 16 + g) with g by lia.
    replace (65535 <? g) with false by (symmetry; apply Z.ltb_ge; lia).
    split; [eexists; split; [|reflexivity]; lia|]. split; [discriminate|].
    cbn [forallb]. unfold hexdig. rewrite !digit_hex by lia. reflexivity.
Qed.

Lemma hex_scan_app (x r : str) (off acc o a : Z) :
  forallb hexdig x = true -> hex_scan x off acc = Some (o, a, []) ->
  match r with [] => True | c :: _ => hex_val c = None end ->
  hex_scan (x ++ r) off acc = Some (o, a, r).
Proof.
  revert off acc; induction x as [|c x IH]; intros off acc Hx Hs Hr.
  - cbn in Hs. inversion Hs; subst. destruct r as [|c r]; [reflexivity|].
    cbn. rewrite Hr. reflexivity.
  - cbn [forallb] in Hx. apply andb_true_iff in Hx as [Hc Hx].
    cbn [hex_scan app] in *. unfold hexdig in Hc.
    destruct (hex_val c) as [d|]; [|discriminate].
    destruct (3 <? off); [discriminate|]. destruct (65535 <? acc * 16 + d); [discriminate|].
    apply IH; assumption.
Qed.

Lemma v6u16_range (v : Z) (k : nat) : 0 <= v6u16 v k < 65536.
Proof.
  unfold v6u16. change 65535 with (Z.ones 16). rewrite Z.land_ones by lia.
  apply Z.mod_pos_bound. reflexivity.
Qed.

Section Out6.
Variables (v : Z) (zs ze : nat).

Lemma out6_plain (n : nat) : forall (i f : nat) (b : str),
  (0 < i)%nat -> (i + n = 8)%nat -> (n <= f)%nat -> (zs < i \/ 8 <= zs)%nat ->
  out6 v zs ze f i b = b ++ gsep v (seq i n).
Proof.
  induction n as [|n IH]; intros i f b Hi Hn Hf Hz.
  - replace i with 8%nat by lia. destruct f; cbn; rewrite app_nil_r; reflexivity.
  - destruct f as [|f]; [lia|]. cbn [out6].
    replace (i <? 8)%nat with true by (symmetry; apply Nat.ltb_lt; lia).
    replace (i =? zs)%nat with false by (symmetry; apply Nat.eqb_neq; lia).
    replace (0 <? i)%nat with true by (symmetry; apply Nat.ltb_lt; lia).
    rewrite IH by lia. rewrite appendHex_app. cbn [seq gsep flat_map].
    unfold gsep, hexg. rewrite <- !app_assoc. reflexivity.
Qed.

Lemma out6_before (n : nat) : forall (i f : nat) (b : str),
  (0 < i)%nat -> (i + n = zs)%nat -> (zs < 8)%nat -> (n < f)%nat ->
  out6 v zs ze f i b = out6 v zs ze (f - n) zs (b ++ gsep v (seq i n)).
Proof.
  induction n as [|n IH]; intros i f b Hi Hn Hz Hf.
  - replace i with zs by lia. rewrite Nat.sub_0_r, app_nil_r. reflexivity.
  - destruct f as [|f]; [lia|]. cbn [out6].
    replace (i <? 8)%nat with true by (symmetry; apply Nat.ltb_lt; lia).
    replace (i =? zs)%nat with false by (symmetry; apply Nat.eqb_neq; lia).
    replace (0 <? i)%nat with true by (symmetry; apply Nat.ltb_lt; lia).
    rewrite IH by lia. replace (S f - S n)%nat with (f - n)%nat by lia.
    rewrite appendHex_app. cbn [seq]. unfold gsep at 2. cbn [flat_map].
    unfold hexg. rewrite <- !app_assoc. reflexivity.
Qed.

Lemma out6_at (f : nat) (b : str) :
  (zs < ze)%nat -> (ze <= 8)%nat -> (8 - ze <= f)%nat ->
  out6 v zs ze (S f) zs b = b ++ [":"%char; ":"%char] ++ grp v (seq ze (8 - ze)).
Proof.
  intros H1 H2 Hf. cbn [out6].
  replace (zs <? 8)%nat with true by (symmetry; apply Nat.ltb_lt; lia).
  rewrite Nat.eqb_refl.
  destruct (8 <=? ze)%nat eqn:E.
  - apply Nat.leb_le in E. replace (8 - ze)%nat with O by lia. cbn [seq grp]. rewrite app_nil_r. reflexivity.
  - apply Nat.leb_gt in E. rewrite out6_plain with (n := (7 - ze)%nat) by lia.
    replace (8 - ze)%nat with (S (7 - ze)) by lia. cbn [seq grp].
    rewrite appendHex_app. unfold hexg. rewrite <- !app_assoc. reflexivity.
Qed.

Lemma out6_first (f : nat) :
  zs <> 0%nat -> out6 v zs ze (S f) 0 [] = out6 v zs ze f 1 (appendHex [] (v6u16 v 0)).
Proof. intros Hz. destruct zs as [|z]; [lia|]. reflexivity. Qed.

End Out6.

Lemma string6_shape (v : Z) :
  (zero_run v 8 0 255 255 = (255%nat, 255%nat) -> string6 v = grp v (seq 0 8)) /\
  (forall zs ze, zero_run v 8 0 255 255 = (zs, ze) -> (zs < ze <= 8)%nat ->
     string6 v = grp v (seq 0 zs) ++ [":"%char; ":"%char] ++ grp v (seq ze (8 - ze))).
Proof.
  unfold string6. split.
  - intros ->. rewrite out6_first by discriminate.
    rewrite out6_plain with (n := 7%nat) by lia. reflexivity.
  - intros zs ze -> [H1 H2]. destruct zs as [|zs].
    + rewrite out6_at by lia. reflexivity.
    + rewrite out6_first by discriminate.
      rewrite out6_before with (n := zs) by lia.
      replace (7 - zs)%nat with (S (6 - zs)) by lia.
      rewrite out6_at by lia. cbn [seq grp]. unfold hexg.
      rewrite <- !app_assoc. reflexivity.
Qed.

Section Groups.
Variable v : Z.

Lemma zero_scan_spec (fuel j : nat) :
  (j <= 8)%nat -> (8 - j <= fuel)%nat ->
  (j <= zero_scan v fuel j <= 8)%nat /\
  (forall k, (j <= k < zero_scan v fuel j)%nat -> v6u16 v k = 0).
Proof.
  revert j; induction fuel as [|f IH]; intros j Hj Hf.
  - cbn. split; [lia|]. intros; lia.
  - cbn [zero_scan].
    destruct ((j <? 8)%nat && (v6u16 v j =? 0)) eqn:E.
    + apply andb_true_iff in E as [E1 E2]. apply Nat.ltb_lt in E1. apply Z.eqb_eq in E2.
      destruct (IH (S j) ltac:(lia) ltac:(lia)) as [H1 H2]. split; [lia|].
      intros k Hk. destruct (Nat.eq_dec k j) as [->|]; [assumption|]. apply H2. lia.
    + split; [lia|]. intros; lia.
Qed.


Lemma zero_run_inv (fuel i zs ze : nat) :
  run_inv v (zs, ze) -> run_inv v (zero_run v fuel i zs ze).
Proof.
  revert i zs ze; induction fuel as [|f IH]; intros i zs ze H; [exact H|].
  cbn [zero_run]. destruct (i <? 8)%nat eqn:Ei; [|exact H].
  apply Nat.ltb_lt in Ei. destruct (zero_scan_spec 8 i ltac:(lia) ltac:(lia)) as [H1 H2].
  destruct ((2 <=? zero_scan v 8 i - i)%nat && (ze - zs <? zero_scan v 8 i - i)%nat) eqn:E.
  - apply IH. apply andb_true_iff in E as [E _]. apply Nat.leb_le in E.
    right. cbn [fst snd]. split; [lia|exact H2].
  - apply IH. exact H.
Qed.

Lemma length_gbytes (ks : list nat) : length (gbytes v ks) = (2 * length ks)%nat.
Proof.
  induction ks as [|k ks IH]; [reflexivity|].
  change (gbytes v (k :: ks)) with
    ([Z.land (Z.shiftr (v6u16 v k) 8) 255; Z.land (v6u16 v k) 255] ++ gbytes v ks).
  rewrite length_app, IH. cbn [length]. lia.
Qed.

Lemma gbytes_cons (k : nat) (ks : list nat) : gbytes v (k :: ks) = gbytes v [k] ++ gbytes v ks.
Proof. reflexivity. Qed.

Lemma gbytes_app (l1 l2 : list nat) : gbytes v (l1 ++ l2) = gbytes v l1 ++ gbytes v l2.
Proof. unfold gbytes. apply flat_map_app. Qed.

Lemma gbytes_zero (a n : nat) :
  (forall k, (a <= k < a + n)%nat -> v6u16 v k = 0) -> gbytes v (seq a n) = repeat 0 (2 * n).
Proof.
  revert a; induction n as [|n IH]; intros a H; [reflexivity|].
  cbn [seq]. rewrite gbytes_cons, IH by (intros; apply H; lia).
  unfold gbytes at 1. cbn [flat_map app].
  rewrite (H a ltac:(lia)). replace (2 * S n)%nat with (S (S (2 * n))) by lia. reflexivity.
Qed.

Lemma hexg_props (k : nat) :
  (exists off, off <> 0 /\ hex_scan (hexg v k) 0 0 = Some (off, v6u16 v k, [])) /\
  hexg v k <> [] /\ forallb hexdig (hexg v k) = true.
Proof. apply hex_props, v6u16_range. Qed.

Lemma hexg_head (k : nat) : exists c t, hexg v k = c :: t /\ hexdig c = true.
Proof.
  destruct (hexg_props k) as [_ [Hne Hall]]. destruct (hexg v k) as [|c t]; [congruence|].
  exists c, t. split; [reflexivity|]. cbn in Hall. apply andb_true_iff in Hall. tauto.
Qed.

Lemma scan_group (k : nat) (r : str) :
  (r = [] \/ exists t, r = ":"%char :: t) ->
  exists off, off <> 0 /\ hex_scan (hexg v k ++ r) 0 0 = Some (off, v6u16 v k, r).
Proof.
  intros Hr. destruct (hexg_props k) as [[off [Ho Hs]] [_ Hall]].
  exists off. split; [exact Ho|]. apply hex_scan_app; try assumption.
  destruct Hr as [->|[t ->]]; reflexivity.
Qed.

Lemma hexdig_not_colon (c : ascii) : hexdig c = true -> Ascii.eqb c ":" = false.
Proof. intros H. destruct (Ascii.eqb_spec c ":") as [->|]; [discriminate|reflexivity]. Qed.

Lemma body_last (k : nat) (ip : list Z) (e : Z) :
  v6_body (hexg v k) ip e = Some (Break6 [] (ip ++ gbytes v [k]) e).
Proof.
  destruct (scan_group k [] (or_introl eq_refl)) as [off [Ho Hs]].
  rewrite app_nil_r in Hs. unfold v6_body. rewrite Hs.
  replace (off =? 0) with false by (symmetry; apply Z.eqb_neq; exact Ho). reflexivity.
Qed.

Lemma body_sep (k k' : nat) (t : str) (ip : list Z) (e : Z) :
  v6_body (hexg v k ++ ":"%char :: hexg v k' ++ t) ip e =
  Some (Cont6 (hexg v k' ++ t) (ip ++ gbytes v [k]) e).
Proof.
  destruct (scan_group k (":"%char :: hexg v k' ++ t) (or_intror (ex_intro _ _ eq_refl))) as [off [Ho Hs]].
  unfold v6_body. rewrite Hs.
  replace (off =? 0) with false by (symmetry; apply Z.eqb_neq; exact Ho).
  destruct (hexg_head k') as [c [t' [Hh Hc]]]. rewrite Hh. cbn [app starts_with].
  change (Ascii.eqb ":" ".") with false. change (Ascii.eqb ":" ":") with true.
  cbv beta iota. rewrite (hexdig_not_colon c Hc). reflexivity.
Qed.

Lemma body_ell (k : nat) (Y : str) (ip : list Z) (e : Z) :
  e < 0 ->
  v6_body (hexg v k ++ ":"%char :: ":"%char :: Y) ip e =
  Some (if is_nil Y then Break6 [] (ip ++ gbytes v [k]) (Z.of_nat (length ip) + 2)
        else Cont6 Y (ip ++ gbytes v [k]) (Z.of_nat (length ip) + 2)).
Proof.
  intros He.
  destruct (scan_group k (":"%char :: ":"%char :: Y) (or_intror (ex_intro _ _ eq_refl))) as [off [Ho Hs]].
  unfold v6_body. rewrite Hs.
  replace (off =? 0) with false by (symmetry; apply Z.eqb_neq; exact Ho).
  cbn [starts_with]. change (Ascii.eqb ":" ".") with false. change (Ascii.eqb ":" ":") with true.
  cbv beta iota. replace (0 <=? e) with false by (symmetry; apply Z.leb_gt; exact He).
  destruct Y; reflexivity.
Qed.

Lemma grp_cons2 (k k' : nat) (ks : list nat) :
  grp v (k :: k' :: ks) = hexg v k ++ ":"%char :: grp v (k' :: ks).
Proof. reflexivity. Qed.

Lemma loop_groups (ks : list nat) : forall (ip : list Z) (e : Z) (f : nat),
  ks <> [] -> (length ks <= f)%nat -> (length ip + 2 * length ks <= 16)%nat ->
  v6_loop f (grp v ks) ip e = Some ([], ip ++ gbytes v ks, e).
Proof.
  induction ks as [|k ks IH]; intros ip e f Hne Hf Hl; [congruence|].
  destruct f as [|f]; [cbn in Hf; lia|]. cbn [length] in Hf, Hl.
  cbn [v6_loop]. replace (Z.of_nat (length ip) <? 16) with true by (symmetry; apply Z.ltb_lt; lia).
  destruct ks as [|k' ks].
  - change (grp v [k]) with (hexg v k ++ []). rewrite app_nil_r, body_last. reflexivity.
  - rewrite grp_cons2. destruct (hexg_head k') as [c [t [Hh _]]].
    change (grp v (k' :: ks)) with (hexg v k' ++ gsep v ks). rewrite body_sep.
    change (hexg v k' ++ gsep v ks) with (grp v (k' :: ks)).
    rewrite IH by (try discriminate; rewrite ?length_app, ?length_gbytes; cbn [length] in *; lia).
    rewrite <- app_assoc, <- gbytes_cons. reflexivity.
Qed.

Lemma loop_groups_ell (ks : list nat) : forall (ip : list Z) (e : Z) (f : nat) (Y : str),
  ks <> [] -> (length ks <= f)%nat -> (length ip + 2 * length ks < 16)%nat -> e < 0 ->
  v6_loop f (grp v ks ++ ":"%char :: ":"%char :: Y) ip e =
  if is_nil Y then Some ([], ip ++ gbytes v ks, Z.of_nat (length ip + 2 * length ks))
  else v6_loop (f - length ks) Y (ip ++ gbytes v ks) (Z.of_nat (length ip + 2 * length ks)).
Proof.
  induction ks as [|k ks IH]; intros ip e f Y Hne Hf Hl He; [congruence|].
  destruct f as [|f]; [cbn in Hf; lia|]. cbn [length] in Hf, Hl.
  cbn [v6_loop]. replace (Z.of_nat (length ip) <? 16) with true by (symmetry; apply Z.ltb_lt; lia).
  destruct ks as [|k' ks].
  - change (grp v [k]) with (hexg v k ++ []). rewrite app_nil_r, body_ell by exact He.
    replace (Z.of_nat (length ip + 2 * length [k])) with (Z.of_nat (length ip) + 2)
      by (cbn [length]; lia).
    destruct (is_nil Y); [reflexivity|]. cbn [length]. rewrite Nat.sub_succ, Nat.sub_0_r. reflexivity.
  - assert (Eq : grp v (k :: k' :: ks) ++ ":"%char :: ":"%char :: Y =
      hexg v k ++ ":"%char :: hexg v k' ++ (gsep v ks ++ ":"%char :: ":"%char :: Y)).
    { cbn [grp]. unfold gsep. cbn [flat_map]. rewrite <- !app_assoc. reflexivity. }
    rewrite Eq, body_sep, app_assoc.
    change (hexg v k' ++ gsep v ks) with (grp v (k' :: ks)).
    rewrite IH by (try discriminate; rewrite ?length_app, ?length_gbytes; cbn [length] in *; lia).
    rewrite <- app_assoc, <- gbytes_cons, length_app, length_gbytes.
    replace (length ip + 2 * length [k] + 2 * length (k' :: ks))%nat
      with (length ip + 2 * length (k :: k' :: ks))%nat by (cbn [length]; lia).
    destruct (is_nil Y); [reflexivity|]. f_equal; cbn [length]; lia.
Qed.

End Groups.

Lemma group_bytes (g : Z) : 0 <= g < 65536 ->
  Z.land (Z.shiftr g 8) 255 * 256 + Z.land g 255 = g.
Proof.
  intros Hg. change 255 with (Z.ones 8). rewrite !Z.land_ones by lia.
  rewrite Z.shiftr_div_pow2 by lia. change (2 ^ 8) with 256.
  rewrite (Z.mod_small (g / 256)) by (split; [apply Z.div_pos|apply Z.div_lt_upper_bound]; lia).
  rewrite Z.mul_comm. symmetry. apply Z.div_mod. lia.
Qed.

Lemma fold_gbytes (v : Z) (ks : list nat) (a : Z) :
  fold_left (fun acc x => acc * 256 + x) (gbytes v ks) a =
  fold_left (fun acc k => acc * 65536 + v6u16 v k) ks a.
Proof.
  revert a; induction ks as [|k ks IH]; intros a; [reflexivity|].
  rewrite gbytes_cons, fold_left_app. cbn [fold_left gbytes flat_map app].
  rewrite <- IH. f_equal. pose proof (group_bytes _ (v6u16_range v k)). lia.
Qed.

Lemma fold_groups (v : Z) (n : nat) : 0 <= v < two128 -> (n <= 8)%nat ->
  fold_left (fun acc k => acc * 65536 + v6u16 v k) (seq 0 n) 0 =
  Z.shiftr v (16 * (8 - Z.of_nat n)).
Proof.
  intros Hv. induction n as [|n IH]; intros Hn.
  - cbn [seq fold_left]. change (16 * (8 - Z.of_nat 0)) with 128.
    rewrite Z.shiftr_div_pow2 by lia. symmetry. apply Z.div_small.
    rewrite two128_val in Hv. lia.
  - rewrite seq_S, fold_left_app, IH by lia. cbn [fold_left Nat.add]. unfold v6u16.
    replace (16 * (8 - Z.of_nat n)) with (16 * (7 - Z.of_nat n) + 16) by lia.
    rewrite <- Z.shiftr_shiftr by lia.
    set (y := Z.shiftr v (16 * (7 - Z.of_nat n))).
    replace (16 * (8 - Z.of_nat (S n))) with (16 * (7 - Z.of_nat n)) by lia. fold y.
    rewrite Z.shiftr_div_pow2 by lia. change 65535 with (Z.ones 16). rewrite Z.land_ones by lia.
    change (2 ^ 16) with 65536. rewrite Z.mul_comm. symmetry. apply Z.div_mod. lia.
Qed.

Lemma bytes_groups (v : Z) : 0 <= v < two128 -> bytes_to_Z (gbytes v (seq 0 8)) = v.
Proof.
  intros Hv. unfold bytes_to_Z. rewrite fold_gbytes, fold_groups by lia.
  rewrite Z.shiftr_0_r. reflexivity.
Qed.

Lemma forallb_hexdig_colon (s : str) : forallb hexdig s = true -> forallb hexcolon s = true.
Proof.
  induction s as [|c t IH]; [reflexivity|]. cbn [forallb]. intros H.
  apply andb_true_iff in H as [H1 H2]. rewrite IH by exact H2.
  replace (hexcolon c) with true by (unfold hexcolon; rewrite H1; reflexivity). reflexivity.
Qed.

Lemma hexcolon_grp (v : Z) (ks : list nat) : forallb hexcolon (grp v ks) = true.
Proof.
  assert (Hg : forall k, forallb hexcolon (hexg v k) = true).
  { intros k. destruct (hexg_props v k) as [_ [_ H]]. apply forallb_hexdig_colon, H. }
  destruct ks as [|k ks]; [reflexivity|]. cbn [grp]. rewrite forallb_app, Hg. cbn [andb].
  induction ks as [|k' ks IH]; [reflexivity|]. unfold gsep in *. cbn [flat_map].
  rewrite forallb_app, IH. cbn [forallb]. rewrite Hg. reflexivity.
Qed.

Lemma hexcolon_ascii (c : ascii) : hexcolon c = true ->
  (128 <=? code c) = false /\ asciiSpace c = false /\
  Ascii.eqb c "%" = false /\ Ascii.eqb c "." = false.
Proof.
  unfold hexcolon. intros H. apply orb_true_iff in H as [H|H].
  - unfold hexdig, hex_val in H.
    assert (Hn : (48 <= code c <= 57 \/ 97 <= code c <= 102 \/ 65 <= code c <= 70)).
    { destruct ((48 <=? code c) && (code c <=? 57)) eqn:E1.
      { apply andb_true_iff in E1 as [E1 E2]. apply Z.leb_le in E1, E2. lia. }
      destruct ((97 <=? code c) && (code c <=? 102)) eqn:E2.
      { apply andb_true_iff in E2 as [E3 E4]. apply Z.leb_le in E3, E4. lia. }
      destruct ((65 <=? code c) && (code c <=? 70)) eqn:E3; [|discriminate].
      apply andb_true_iff in E3 as [E5 E6]. apply Z.leb_le in E5, E6. lia. }
    unfold asciiSpace.
    rewrite (proj2 (Z.leb_gt 128 (code c))) by lia.
    rewrite (proj2 (Z.leb_gt (code c) 13)) by lia.
    rewrite (proj2 (Z.eqb_neq (code c) 32)) by lia. rewrite andb_false_r.
    split; [reflexivity|]. split; [reflexivity|].
    split.
    + destruct (Ascii.eqb_spec c "%") as [E|]; [subst c; vm_compute in H; discriminate|reflexivity].
    + destruct (Ascii.eqb_spec c ".") as [E|]; [subst c; vm_compute in H; discriminate|reflexivity].
  - apply Ascii.eqb_eq in H. subst c. repeat split.
Qed.

Lemma trim_hexcolon (s : str) : s <> [] -> forallb hexcolon s = true -> TrimSpace s = s.
Proof.
  intros Hne Hall. unfold TrimSpace.
  destruct s as [|c t]; [congruence|]. cbn [trim_space_start].
  cbn [forallb] in Hall. apply andb_true_iff in Hall as [Hc Ht].
  destruct (hexcolon_ascii c Hc) as [H1 [H2 _]]. rewrite H1, H2.
  destruct (rev (c :: t)) as [|d r] eqn:Er.
  - apply (f_equal (@length ascii)) in Er. rewrite length_rev in Er. discriminate.
  - assert (Hd : hexcolon d = true).
    { assert (In d (c :: t)) by (apply in_rev; rewrite Er; left; reflexivity).
      destruct H as [->|H]; [exact Hc|]. rewrite forallb_forall in Ht. apply Ht, H. }
    destruct (hexcolon_ascii d Hd) as [H3 [H4 _]]. cbn [trim_space_stop]. rewrite H3, H4.
    rewrite <- Er, rev_involutive. reflexivity.
Qed.

Lemma index_hexcolon (s : str) : forallb hexcolon s = true -> index_byte s "%" = None.
Proof.
  induction s as [|c t IH]; intros H; [reflexivity|].
  cbn [forallb] in H. apply andb_true_iff in H as [Hc Ht].
  destruct (hexcolon_ascii c Hc) as [_ [_ [H3 _]]]. cbn [index_byte]. rewrite H3, IH by exact Ht.
  reflexivity.
Qed.

Lemma addr_kind_hexcolon (s : str) : forallb hexcolon s = true ->
  addr_kind s = if existsb (fun c => Ascii.eqb c ":") s then Some ":"%char else None.
Proof.
  induction s as [|c t IH]; intros H; [reflexivity|].
  cbn [forallb] in H. apply andb_true_iff in H as [Hc Ht].
  destruct (hexcolon_ascii c Hc) as [_ [_ [H3 H4]]]. cbn [addr_kind existsb].
  rewrite H3, H4. destruct (Ascii.eqb_spec c ":") as [->|]; [reflexivity|].
  cbn [orb]. apply IH, Ht.
Qed.

Lemma parseIPv6_plain (s : str) :
  index_byte s "%" = None -> (forall c t, s = c :: t -> hexdig c = true) ->
  parseIPv6 s = parseIPv6_tail s (-1) [].
Proof.
  intros Hi Hh. unfold parseIPv6. rewrite Hi. cbv beta iota.
  destruct s as [|c1 [|c2 s']]; try reflexivity.
  rewrite (hexdig_not_colon c1 (Hh _ _ eq_refl)). reflexivity.
Qed.

Lemma parseIPv6_colons (s : str) :
  index_byte (":"%char :: ":"%char :: s) "%" = None ->
  parseIPv6 (":"%char :: ":"%char :: s) =
  if is_nil s then Some (repeat 0 16%nat, []) else parseIPv6_tail s 0 [].
Proof. intros Hi. unfold parseIPv6. rewrite Hi. reflexivity. Qed.

Lemma string6_parse (v : Z) : 0 <= v < two128 ->
  parseIPv6 (string6 v) = Some (gbytes v (seq 0 8), []) /\
  string6 v <> [] /\ forallb hexcolon (string6 v) = true /\
  existsb (fun c => Ascii.eqb c ":") (string6 v) = true.
Proof.
  intros Hv. destruct (string6_shape v) as [SA SB].
  pose proof (zero_run_inv v 8 0 255 255 (or_introl (conj eq_refl eq_refl))) as Hinv.
  destruct (zero_run v 8 0 255 255) as [zs ze] eqn:Ez.
  destruct Hinv as [[H1 H2]|[[H1 H2] Hz]]; cbn [fst snd] in *.
  - subst zs ze. rewrite (SA eq_refl).
    assert (Hall : forallb hexcolon (grp v (seq 0 8)) = true) by apply hexcolon_grp.
    assert (Hsplit : grp v (seq 0 8) = hexg v 0 ++ ":"%char :: grp v (seq 1 7)) by reflexivity.
    split; [|split; [|split; [exact Hall|]]].
    2: { rewrite Hsplit. destruct (hexg_head v 0) as [c [t [-> _]]]. discriminate. }
    2: { rewrite Hsplit, existsb_app. cbn [existsb]. rewrite orb_true_r. reflexivity. }
    rewrite parseIPv6_plain.
    + unfold parseIPv6_tail. rewrite loop_groups by (cbn; lia || discriminate).
      reflexivity.
    + apply index_hexcolon, Hall.
    + intros c t Ht. destruct (hexg_head v 0) as [c' [t' [Hh Hc]]].
      rewrite Hsplit, Hh in Ht. cbn [app] in Ht.
      assert (E : c' = c) by (apply (f_equal (hd "a"%char)) in Ht; exact Ht). rewrite <- E. exact Hc.
  - rewrite (SB zs ze eq_refl ltac:(lia)).
    assert (Hall : forallb hexcolon (grp v (seq 0 zs) ++ [":"%char; ":"%char] ++ grp v (seq ze (8 - ze))) = true)
      by (rewrite !forallb_app, !hexcolon_grp; reflexivity).
    assert (Hex : existsb (fun c => Ascii.eqb c ":") (grp v (seq 0 zs) ++ [":"%char; ":"%char] ++ grp v (seq ze (8 - ze))) = true)
      by (rewrite !existsb_app; cbn; rewrite orb_true_r; reflexivity).
    split; [|split; [destruct (grp v (seq 0 zs)); discriminate|split; assumption]].
    assert (Hfull : gbytes v (seq 0 8) =
      gbytes v (seq 0 zs) ++ repeat 0 (2 * (ze - zs)) ++ gbytes v (seq ze (8 - ze))).
    { replace 8%nat with (zs + (ze - zs) + (8 - ze))%nat at 1 by lia.
      rewrite !seq_app. cbn [Nat.add]. replace (zs + (ze - zs))%nat with ze by lia.
      rewrite !gbytes_app, (gbytes_zero v zs (ze - zs)) by (intros; apply Hz; lia).
      rewrite <- app_assoc. reflexivity. }
    rewrite Hfull.
    destruct zs as [|zs].
    + cbn [seq grp app] in *. rewrite parseIPv6_colons by (apply index_hexcolon, Hall).
      destruct (Nat.eq_dec ze 8) as [->|Hne].
      * reflexivity.
      * destruct (hexg_head v ze) as [c [t [Hh _]]].
        replace (8 - ze)%nat with (S (7 - ze)) by lia. cbn [seq grp]. rewrite Hh.
        change (is_nil ((c :: t) ++ gsep v (seq (S ze) (7 - ze)))) with false.
        cbv iota. rewrite <- Hh. change (hexg v ze ++ gsep v (seq (S ze) (7 - ze)))
          with (grp v (seq ze (S (7 - ze)))).
        unfold parseIPv6_tail. rewrite loop_groups by (try discriminate; rewrite length_seq; cbn [length]; lia).
        cbn [app length]. rewrite length_gbytes, length_seq.
        replace (2 * S (7 - ze) <? 16)%nat with true by (symmetry; apply Nat.ltb_lt; lia).
        replace (16 - 2 * S (7 - ze))%nat with (2 * (ze - 0))%nat by lia. reflexivity.
    + rewrite parseIPv6_plain.
      * unfold parseIPv6_tail.
        change ([":"%char; ":"%char] ++ grp v (seq ze (8 - ze)))
          with (":"%char :: ":"%char :: grp v (seq ze (8 - ze))).
        rewrite loop_groups_ell by (try discriminate; rewrite ?length_seq; cbn [length]; lia).
        rewrite length_seq. cbn [length app].
        destruct (Nat.eq_dec ze 8) as [->|Hne].
        -- change (grp v (seq 8 (8 - 8))) with (@nil ascii).
           change (gbytes v (seq 8 (8 - 8))) with (@nil Z). cbn [is_nil].
           rewrite ?app_nil_r, length_gbytes, length_seq.
           replace (2 * S zs <? 16)%nat with true by (symmetry; apply Nat.ltb_lt; lia).
           replace (Z.of_nat (0 + 2 * S zs) <? 0) with false by (symmetry; apply Z.ltb_ge; lia).
           rewrite Nat2Z.id.
           replace (0 + 2 * S zs)%nat with (length (gbytes v (seq 0 (S zs)))) by (rewrite length_gbytes, length_seq; lia).
           rewrite firstn_all, skipn_all. rewrite ?app_nil_r.
           cbn [negb]. do 4 f_equal. lia.
        -- destruct (hexg_head v ze) as [c [t [Hh _]]].
           assert (Hn : is_nil (grp v (seq ze (8 - ze))) = false).
           { replace (8 - ze)%nat with (S (7 - ze)) by lia.
             change (grp v (seq ze (S (7 - ze)))) with (hexg v ze ++ gsep v (seq (S ze) (7 - ze))).
             rewrite Hh. reflexivity. }
           rewrite Hn. cbv iota.
           rewrite loop_groups by (try (replace (8 - ze)%nat with (S (7 - ze)) by lia; discriminate);
             rewrite ?length_app, ?length_gbytes, ?length_seq; cbn [length]; lia).
           cbn [is_nil negb]. rewrite length_app, !length_gbytes, !length_seq.
           replace (2 * S zs + 2 * (8 - ze) <? 16)%nat with true by (symmetry; apply Nat.ltb_lt; lia).
           replace (16 - (2 * S zs + 2 * (8 - ze)))%nat with (2 * (ze - S zs))%nat by lia.
           replace (Z.of_nat (0 + 2 * S zs) <? 0) with false by (symmetry; apply Z.ltb_ge; lia).
           rewrite Nat2Z.id.
           replace (0 + 2 * S zs)%nat with (length (gbytes v (seq 0 (S zs)))) by (rewrite length_gbytes, length_seq; lia).
           rewrite firstn_app, firstn_all, Nat.sub_diag, skipn_app, skipn_all, Nat.sub_diag.
           cbn [firstn skipn]. rewrite app_nil_r. cbn [app]. reflexivity.
      * apply index_hexcolon, Hall.
      * intros c t Ht. destruct (hexg_head v 0) as [c' [t' [Hh Hc]]].
        change (grp v (seq 0 (S zs))) with (hexg v 0 ++ gsep v (seq 1 zs)) in Ht.
        rewrite <- app_assoc, Hh in Ht. cbn [app] in Ht.
      assert (E : c' = c) by (apply (f_equal (hd "a"%char)) in Ht; exact Ht). rewrite <- E. exact Hc.
Qed.

Lemma bitlen_range (v : Z) : 0 <= v -> (128 <? BitLenZ v) = false <-> v < two128.
Proof.
  intros Hv. unfold BitLenZ, two128. rewrite Z.ltb_ge.
  destruct (Z.eqb_spec v 0) as [->|Hn].
  - split; intros; [lia|lia].
  - rewrite (Z.log2_lt_pow2 v 128) by lia. lia.
Qed.

Lemma Parse_String_roundtrip (v : Z) : 0 <= v < two128 -> is_v4mapped v = false ->
  Parse (Address_String (Some v)) = (Some v, None).
Proof.
  intros Hv Hm. unfold Address_String. rewrite Hm.
  destruct (string6_parse v Hv) as [Hp [Hne [Hall Hex]]].
  unfold Parse. rewrite (trim_hexcolon _ Hne Hall).
  unfold ParseIP, ParseAddr. rewrite (addr_kind_hexcolon _ Hall), Hex.
  change (Ascii.eqb ":" ".") with false. change (Ascii.eqb ":" ":") with true.
  cbv iota. rewrite Hp. cbn [option_map Zone is_nil As16].
  rewrite (bytes_groups v Hv). unfold NewAddress. rewrite Hm. reflexivity.
Qed.

(** Claim C7 (counterexample): [0xffff << 32] (the address ::ffff:0:0) is
    below [2^128], yet [AddressFromBigInt] rejects it: [NewAddress] refuses
    the IPv4-mapped form. *)
Lemma fromInteger_mapped_fails :
  0 <= 281470681743360 < two128 /\
  AddressFromBigInt 281470681743360 = (None, Some ErrInvalidAddress).
Proof. split; [unfold two128; lia | reflexivity]. Qed.

(** Claim C7 (amended): [AddressFromBigInt v] reports no error exactly when
    [0 <= v < 2^128] and [v] is not IPv4-mapped ([v >> 32 <> 0xffff]); then it
    returns the address of value [v], and [Parse] of its [String] form
    returns that address again with no error, whose [BigInt] is [v]. *)
Theorem fromInteger_roundtrip (v : Z) :
  (snd (AddressFromBigInt v) = None <-> 0 <= v < two128 /\ is_v4mapped v = false) /\
  (snd (AddressFromBigInt v) = None ->
   AddressFromBigInt v = (Some v, None) /\
   Parse (Address_String (fst (AddressFromBigInt v))) = (Some v, None) /\
   BigInt (fst (Parse (Address_String (fst (AddressFromBigInt v))))) = v).
Proof.
  assert (E : snd (AddressFromBigInt v) = None <-> 0 <= v < two128 /\ is_v4mapped v = false).
  { unfold AddressFromBigInt, NewAddress.
    destruct (Z.ltb_spec v 0) as [Hn|Hn]; cbn [orb].
    - split; [discriminate | lia].
    - destruct (128 <? BitLenZ v) eqn:Eb.
      + split; [discriminate|]. intros [Hr _]. assert (X := proj2 (bitlen_range v ltac:(lia)) (proj2 Hr)). congruence.
      + apply bitlen_range in Eb; [|lia].
        destruct (is_v4mapped v); cbn; split; intros; (discriminate || lia || tauto). }
  split; [exact E|]. intros H. apply E in H as [Hr Hm].
  assert (A : AddressFromBigInt v = (Some v, None)).
  { unfold AddressFromBigInt. replace (v <? 0) with false by (symmetry; apply Z.ltb_ge; lia).
    replace (128 <? BitLenZ v) with false by (symmetry; apply bitlen_range; lia).
    unfold NewAddress. rewrite Hm. reflexivity. }
  rewrite A. cbn [fst]. rewrite (Parse_String_roundtrip v Hr Hm). auto.
Qed.

(** The round trip at [v = 1] (the address ::1). *)
Lemma fromInteger_roundtrip_witness :
  snd (AddressFromBigInt 1) = None /\
  AddressFromBigInt 1 = (Some 1, None) /\
  Parse (Address_String (fst (AddressFromBigInt 1))) = (Some 1, None) /\
  BigInt (fst (Parse (Address_String (fst (AddressFromBigInt 1))))) = 1.
Proof.
  assert (H : snd (AddressFromBigInt 1) = None) by reflexivity.
  split; [exact H|]. exact (proj2 (fromInteger_roundtrip 1) H).
Defined.

(** * The masked-base invariant *)

Lemma ret_inj {A} (x y : A) : ret x = ret y -> x = y.
Proof. intros H. injection H. auto. Qed.

Lemma pair_inj {A B} (a a' : A) (b b' : B) : (a, b) = (a', b') -> a = a' /\ b = b'.
Proof. intros H. injection H. auto. Qed.

Lemma NewAddress_ok (x : Z) : 0 <= x < two128 -> addr_ok (fst (NewAddress x)) = true.
Proof.
  intros Hx. destruct (NewAddress_cases x) as [[-> Hm]|[-> _]]; [|reflexivity].
  apply valid_address_intro; assumption.
Qed.

Lemma fill16_ok (x : Z) (a : Address) : fill16 x = ret a -> addr_ok a = true.
Proof.
  unfold fill16. destruct (Z.leb_spec two128 (Z.abs x)) as [E|E]; intros H; [discriminate H|].
  apply ret_inj in H. subst a. apply NewAddress_ok. lia.
Qed.

Lemma fromHiLo_ok (hi lo : Z) : addr_ok (fromHiLo hi lo) = true.
Proof.
  rewrite fromHiLo_val. apply NewAddress_ok.
  pose proof (Z.mod_pos_bound hi two64 ltac:(rewrite two64_val; lia)).
  pose proof (Z.mod_pos_bound lo two64 ltac:(rewrite two64_val; lia)).
  rewrite two128_two64.
  generalize dependent (hi mod two64). generalize dependent (lo mod two64).
  assert (0 < two64) by (rewrite two64_val; lia).
  generalize dependent two64. intros T HT l Hl h Hh. nia.
Qed.

Lemma Add_nonneg_ok (a : Address) (d : Z) (a' : Address) :
  Add_nonneg a d = ret a' -> addr_ok a' = true.
Proof.
  unfold Add_nonneg. destruct (BitLenZ d <=? 64).
  - unfold Add_fast. destruct (hiLo a) as [[hi lo]|]; [|discriminate].
    intros H. apply ret_inj in H. subst a'. apply fromHiLo_ok.
  - apply fill16_ok.
Qed.

Lemma Sub_nonneg_ok (a : Address) (d : Z) (a' : Address) :
  Sub_nonneg a d = ret a' -> addr_ok a' = true.
Proof.
  unfold Sub_nonneg. destruct (BitLenZ d <=? 64).
  - unfold Sub_fast. destruct (hiLo a) as [[hi lo]|]; [|discriminate].
    destruct (d <=? lo); intros H; apply ret_inj in H; subst a'; apply fromHiLo_ok.
  - apply fill16_ok.
Qed.

(** Every address [Add] and [Sub] return is [nil] or valid. *)
Lemma Add_ok (a : Address) (d : Z) (a' : Address) : Add a d = ret a' -> addr_ok a' = true.
Proof. unfold Add. destruct (d <? 0); [apply Sub_nonneg_ok | apply Add_nonneg_ok]. Qed.

Lemma Sub_ok (a : Address) (d : Z) (a' : Address) : Sub a d = ret a' -> addr_ok a' = true.
Proof. unfold Sub. destruct (d <? 0); [apply Add_nonneg_ok | apply Sub_nonneg_ok]. Qed.

Lemma land_maskTable_idem (v p : Z) :
  Z.land (Z.land v (maskTable p)) (maskTable p) = Z.land v (maskTable p).
Proof. rewrite <- Z.land_assoc, Z.land_diag. reflexivity. Qed.

(** A successful [Mask] of a [nil] or valid address is the valid base of a
    network with that prefix. *)
Lemma Mask_cidr (a : Address) (p : Z) (b : Address) :
  addr_ok a = true -> Mask a p = ret b ->
  0 <= p <= 128 /\ valid_address b = true /\ valid_cidr (mkCIDR b p) = true.
Proof.
  intros Ha H. destruct a as [v|]; [|rewrite Mask_nil in H; discriminate].
  assert (Hp : 0 <= p <= 128).
  { unfold Mask in H. destruct ((p <? 0) || (BitLen <? p)) eqn:E; [discriminate|].
    apply orb_false_iff in E as [E1 E2]. apply Z.ltb_ge in E1, E2. unfold BitLen in E2. lia. }
  cbn [addr_ok] in Ha. rewrite Mask_valid in H by assumption. apply ret_inj in H. subst b.
  pose proof (valid_address_mask v p Ha Hp) as Hw.
  split; [exact Hp|]. split; [exact Hw|].
  unfold valid_cidr, wf_cidr. cbn [base plen]. rewrite Hw, land_maskTable_idem, Z.eqb_refl.
  replace (0 <=? p) with true by (symmetry; apply Z.leb_le; lia).
  replace (p <=? 128) with true by (symmetry; apply Z.leb_le; lia). reflexivity.
Qed.

(** [NewCIDR] on a [nil] or valid address: the network is valid and the
    error is [nil], or the prefix is out of range. *)
Lemma NewCIDR_cases (a : Address) (p : Z) (c : CIDR) (e : option Err) :
  addr_ok a = true -> NewCIDR a p = ret (c, e) ->
  (valid_cidr c = true /\ e = None /\ 0 <= p <= 128) \/
  (c = CIDR0 /\ e = Some ErrInvalidPrefix /\ (p < 0 \/ 128 < p)).
Proof.
  intros Ha. unfold NewCIDR. destruct ((p <? 0) || (128 <? p)) eqn:E.
  - intros H. apply ret_inj, pair_inj in H as [<- <-]. right. split; [reflexivity|]. split; [reflexivity|].
    apply orb_true_iff in E as [E|E]; apply Z.ltb_lt in E; lia.
  - destruct (Mask a p) as [b|] eqn:Hm; [|discriminate].
    intros H. apply ret_inj, pair_inj in H as [<- <-]. left.
    destruct (Mask_cidr a p b Ha Hm) as [Hp [_ Hv]]. auto.
Qed.

Lemma NewCIDR_valid (a : Address) (p : Z) (c : CIDR) (e : option Err) :
  addr_ok a = true -> 0 <= p <= 128 -> NewCIDR a p = ret (c, e) ->
  valid_cidr c = true /\ e = None.
Proof.
  intros Ha Hp H. destruct (NewCIDR_cases a p c e Ha H) as [[H1 [H2 _]]|[_ [_ H3]]]; [auto|lia].
Qed.

Lemma valid_cidr_addr (c : CIDR) : valid_cidr c = true -> addr_ok (base c) = true.
Proof.
  intros H. destruct (valid_cidr_inv c H) as [v [Hb [Hv [Hm _]]]].
  rewrite Hb. apply valid_address_intro; assumption.
Qed.

Lemma valid_cidr_plen (c : CIDR) : valid_cidr c = true -> 0 <= plen c <= 128.
Proof. intros H. destruct (valid_cidr_inv c H) as [v [_ [_ [_ [Hp _]]]]]. exact Hp. Qed.

(** A network as [NewCIDR] builds it satisfies [base == base.Mask(prefixLength)]. *)
Lemma valid_cidr_masked (c : CIDR) : valid_cidr c = true -> base_masked c.
Proof.
  intros H. destruct (valid_cidr_inv c H) as [v [Hb [Hv [Hm [Hp Ha]]]]].
  unfold base_masked. rewrite Hb, Mask_valid by (auto using valid_address_intro).
  rewrite (proj2 (masked_iff v (plen c) Hv Hp) Ha). reflexivity.
Qed.

Lemma v4_loop_inv (s : str) : forall first pd val pos dl fields val' pos' fields',
  v4_loop s first pd val pos dl fields = Some (val', pos', fields') ->
  0 <= val <= 255 -> Forall byte_ok fields -> pos = Z.of_nat (length fields) -> pos <= 3 ->
  0 <= val' <= 255 /\ Forall byte_ok fields' /\ pos' = Z.of_nat (length fields') /\ pos' <= 3.
Proof.
  induction s as [|c r IH]; intros first pd val pos dl fields val' pos' fields' H Hv Hf Hp H3.
  - cbn [v4_loop] in H. apply ret_inj, pair_inj in H as [H E3]. apply pair_inj in H as [E1 E2].
    subst. auto.
  - cbn [v4_loop] in H. destruct (is_digit c) eqn:Ed.
    + destruct ((dl =? 1) && (val =? 0)); [discriminate|].
      destruct (255 <? val * 10 + (code c - 48)) eqn:E; [discriminate|].
      apply Z.ltb_ge in E. unfold is_digit in Ed. apply andb_true_iff in Ed as [Ed _].
      apply Z.leb_le in Ed.
      exact (IH _ _ _ _ _ _ _ _ _ H ltac:(lia) Hf Hp H3).
    + destruct (Ascii.eqb c "."); [|discriminate].
      destruct (first || is_nil r || pd); [discriminate|].
      destruct (pos =? 3) eqn:E; [discriminate|]. apply Z.eqb_neq in E.
      refine (IH _ _ _ _ _ _ _ _ _ H ltac:(lia) _ _ ltac:(lia)).
      * apply Forall_app; split; [exact Hf|]. constructor; [unfold byte_ok; lia|constructor].
      * rewrite length_app. cbn [length]. lia.
Qed.

Lemma parseIPv4Fields_inv (s : str) (f : list Z) :
  parseIPv4Fields s = Some f -> length f = 4%nat /\ Forall byte_ok f.
Proof.
  unfold parseIPv4Fields.
  destruct (v4_loop s true false 0 0 0 []) as [[[val pos] fields]|] eqn:E; [|discriminate].
  destruct (v4_loop_inv s _ _ _ _ _ _ _ _ _ E ltac:(lia) (Forall_nil _) eq_refl ltac:(lia))
    as [Hv [Hf [Hp H3]]].
  destruct (pos <? 3) eqn:E3; [discriminate|]. apply Z.ltb_ge in E3.
  intros H. apply ret_inj in H. subst f. split.
  - rewrite length_app. cbn [length]. lia.
  - apply Forall_app; split; [exact Hf|]. constructor; [unfold byte_ok; lia|constructor].
Qed.

Lemma land_255 (x : Z) : byte_ok (Z.land x 255).
Proof.
  unfold byte_ok. change 255 with (Z.ones 8). rewrite Z.land_ones by lia.
  apply Z.mod_pos_bound. reflexivity.
Qed.

Lemma v6_body_inv (s : str) (ip : list Z) (ell : Z) (st : step6) :
  v6_body s ip ell = Some st -> (length ip < 16)%nat -> ip_inv ip ->
  match st with Break6 _ ip' _ | Cont6 _ ip' _ => ip_inv ip' end.
Proof.
  intros H Hl [Hf [_ [k Hk]]]. unfold v6_body in H.
  destruct (hex_scan s 0 0) as [[[off acc] rest]|]; [|discriminate].
  destruct (off =? 0); [discriminate|].
  destruct (starts_with "." rest).
  - destruct ((ell <? 0) && negb (Z.of_nat (length ip) =? 12)); [discriminate|].
    destruct (16 <? Z.of_nat (length ip) + 4) eqn:E; [discriminate|]. apply Z.ltb_ge in E.
    destruct (parseIPv4Fields s) as [f|] eqn:Ef; [|discriminate].
    destruct (parseIPv4Fields_inv s f Ef) as [Hl4 Hf4].
    apply ret_inj in H. subst st. split; [apply Forall_app; auto|].
    rewrite length_app, Hl4. split; [lia|]. exists (k + 2)%nat. lia.
  - cbv zeta in H.
    assert (Hip : ip_inv (ip ++ [Z.land (Z.shiftr acc 8) 255; Z.land acc 255])).
    { split; [apply Forall_app; split; [exact Hf|]; constructor; [apply land_255|];
              constructor; [apply land_255|constructor]|].
      rewrite length_app. cbn [length]. split; [lia|]. exists (k + 1)%nat. lia. }
    destruct rest as [|c r]; [apply ret_inj in H; subst st; exact Hip|].
    destruct (negb (Ascii.eqb c ":")); [discriminate|].
    destruct r as [|c' r']; [discriminate|].
    destruct (Ascii.eqb c' ":").
    + destruct (0 <=? ell); [discriminate|].
      destruct (is_nil r'); apply ret_inj in H; subst st; exact Hip.
    + apply ret_inj in H; subst st; exact Hip.
Qed.

Lemma v6_loop_inv (fuel : nat) : forall s ip ell s' ip' ell',
  v6_loop fuel s ip ell = Some (s', ip', ell') -> ip_inv ip -> ip_inv ip'.
Proof.
  induction fuel as [|f IH]; intros s ip ell s' ip' ell' H Hi.
  - cbn [v6_loop] in H. apply ret_inj, pair_inj in H as [H _].
    apply pair_inj in H as [_ <-]. exact Hi.
  - cbn [v6_loop] in H. destruct (Z.of_nat (length ip) <? 16) eqn:E.
    + apply Z.ltb_lt in E.
      destruct (v6_body s ip ell) as [st|] eqn:Eb; [|discriminate].
      pose proof (v6_body_inv s ip ell st Eb ltac:(lia) Hi) as Hst.
      destruct st as [s1 ip1 e1|s1 ip1 e1].
      * apply ret_inj, pair_inj in H as [H _].
        apply pair_inj in H as [_ <-]. exact Hst.
      * exact (IH _ _ _ _ _ _ H Hst).
    + apply ret_inj, pair_inj in H as [H _].
      apply pair_inj in H as [_ <-]. exact Hi.
Qed.

Lemma Forall_firstn_skipn {A} (P : A -> Prop) (n : nat) (l : list A) :
  Forall P l -> Forall P (firstn n l) /\ Forall P (skipn n l).
Proof. intros H. rewrite <- (firstn_skipn n l) in H. apply Forall_app in H. exact H. Qed.

Lemma Forall_repeat_zero (n : nat) : Forall byte_ok (repeat 0 n).
Proof.
  apply Forall_forall. intros x Hx. apply repeat_spec in Hx. subst x. unfold byte_ok. lia.
Qed.

Lemma parseIPv6_tail_inv (s : str) (ell : Z) (zone : str) (b : list Z) (z : str) :
  parseIPv6_tail s ell zone = Some (b, z) -> length b = 16%nat /\ Forall byte_ok b.
Proof.
  unfold parseIPv6_tail.
  destruct (v6_loop 8 s [] ell) as [[[s' ip] ell']|] eqn:E; [|discriminate].
  assert (Hi : ip_inv ip).
  { apply (v6_loop_inv 8 s [] ell s' ip ell' E).
    split; [constructor|]. split; [cbn; lia|]. exists 0%nat. reflexivity. }
  destruct Hi as [Hf [Hl _]].
  destruct (negb (is_nil s')); [discriminate|].
  destruct (length ip <? 16)%nat eqn:El.
  - destruct (ell' <? 0); [discriminate|].
    intros H. apply ret_inj, pair_inj in H as [<- _].
    destruct (Forall_firstn_skipn byte_ok (Z.to_nat ell') ip Hf) as [H1 H2].
    split.
    + rewrite !length_app, length_firstn, repeat_length, length_skipn. lia.
    + apply Forall_app; split; [exact H1|]. apply Forall_app; split; [apply Forall_repeat_zero|exact H2].
  - apply Nat.ltb_ge in El. destruct (0 <=? ell'); [discriminate|].
    intros H. apply ret_inj, pair_inj in H as [<- _]. split; [lia|exact Hf].
Qed.

Lemma parseIPv6_body_inv (t zone : str) (b : list Z) (z : str) :
  match t with
  | c1 :: c2 :: s' =>
      if Ascii.eqb c1 ":" && Ascii.eqb c2 ":" then
        if is_nil s' then Some (repeat 0 16%nat, zone)
        else parseIPv6_tail s' 0 zone
      else parseIPv6_tail t (-1) zone
  | _ => parseIPv6_tail t (-1) zone
  end = Some (b, z) -> length b = 16%nat /\ Forall byte_ok b.
Proof.
  destruct t as [|c1 [|c2 s']]; try apply parseIPv6_tail_inv.
  destruct (Ascii.eqb c1 ":" && Ascii.eqb c2 ":"); [|apply parseIPv6_tail_inv].
  destruct (is_nil s'); [|apply parseIPv6_tail_inv].
  intros H. apply ret_inj, pair_inj in H as [<- _]. split; [reflexivity|apply Forall_repeat_zero].
Qed.

Lemma parseIPv6_inv (s : str) (b : list Z) (z : str) :
  parseIPv6 s = Some (b, z) -> length b = 16%nat /\ Forall byte_ok b.
Proof.
  unfold parseIPv6. destruct (index_byte s "%") as [k|]; cbv beta iota.
  - destruct (is_nil (skipn (S k) s)); [discriminate|]. apply parseIPv6_body_inv.
  - apply parseIPv6_body_inv.
Qed.

Lemma ParseAddr_inv (s : str) (a : netipAddr) :
  ParseAddr s = Some a -> length (As16 a) = 16%nat /\ Forall byte_ok (As16 a).
Proof.
  unfold ParseAddr. destruct (addr_kind s) as [c|]; [|discriminate].
  destruct (Ascii.eqb c ".").
  - unfold parseIPv4. destruct (parseIPv4Fields s) as [f|] eqn:Ef; cbn [option_map]; [|discriminate].
    intros H. apply ret_inj in H. subst a. destruct (parseIPv4Fields_inv s f Ef) as [Hl Hf].
    cbn [As16]. split; [rewrite length_app, Hl; reflexivity|].
    apply Forall_app; split; [|exact Hf].
    repeat constructor; unfold byte_ok; lia.
  - destruct (Ascii.eqb c ":"); [|discriminate].
    destruct (parseIPv6 s) as [[b z]|] eqn:E6; cbn [option_map]; [|discriminate].
    intros H. apply ret_inj in H. subst a. cbn [As16]. exact (parseIPv6_inv s b z E6).
Qed.

(** [net.ParseIP] returns sixteen bytes. *)
Lemma ParseIP_inv (s : str) (b : list Z) :
  ParseIP s = Some b -> length b = 16%nat /\ Forall byte_ok b.
Proof.
  unfold ParseIP. destruct (ParseAddr s) as [a|] eqn:Ea; [|discriminate].
  destruct (is_nil (Zone a)); [|discriminate].
  intros H. apply ret_inj in H. subst b. exact (ParseAddr_inv s a Ea).
Qed.

Lemma bytes_fold_range (b : list Z) : Forall byte_ok b -> forall a, 0 <= a ->
  0 <= fold_left (fun acc x => acc * 256 + x) b a < (a + 1) * 256 ^ Z.of_nat (length b).
Proof.
  induction b as [|x b IH]; intros Hf a Ha.
  - cbn. lia.
  - inversion Hf as [|? ? Hx Hb]; subst. unfold byte_ok in Hx. cbn [fold_left length].
    specialize (IH Hb (a * 256 + x) ltac:(lia)).
    rewrite Nat2Z.inj_succ, Z.pow_succ_r by lia.
    pose proof (Z.pow_pos_nonneg 256 (Z.of_nat (length b)) ltac:(lia) ltac:(lia)). nia.
Qed.

Lemma ParseIP_range (s : str) (b : list Z) :
  ParseIP s = Some b -> 0 <= bytes_to_Z b < two128.
Proof.
  intros H. destruct (ParseIP_inv s b H) as [Hl Hf].
  pose proof (bytes_fold_range b Hf 0 ltac:(lia)) as R. rewrite Hl in R.
  unfold bytes_to_Z. replace two128 with ((0 + 1) * 256 ^ Z.of_nat 16) by reflexivity. exact R.
Qed.

(** [Parse] returns a valid address when it reports no error. *)
Lemma Parse_ok (s : str) (a : Address) :
  snd (Parse s) = None -> fst (Parse s) = a -> addr_ok a = true.
Proof.
  unfold Parse. destruct (ParseIP (TrimSpace s)) as [b|] eqn:E; [|discriminate].
  intros _ <-. apply NewAddress_ok. exact (ParseIP_range _ b E).
Qed.

Lemma ParseCIDR_valid (s : str) (c : CIDR) :
  ParseCIDR s = ret (c, None) -> valid_cidr c = true.
Proof.
  unfold ParseCIDR.
  destruct (split_slash (TrimSpace s)) as [|p0 [|p1 [|p2 r]]]; try discriminate.
  destruct (Parse p0) as [addr [e|]] eqn:Ep; [discriminate|].
  destruct (parsePrefix p1) as [pl [e|]]; [discriminate|].
  intros H.
  assert (Ha : addr_ok addr = true) by (apply (Parse_ok p0); rewrite Ep; reflexivity).
  destruct (NewCIDR_cases addr pl c None Ha H) as [[Hv _]|[_ [He _]]]; [exact Hv|discriminate].
Qed.

Lemma HostCount_nonneg (c : CIDR) : 0 <= HostCount c.
Proof. unfold HostCount. apply Z.shiftl_nonneg. lia. Qed.

Lemma Next_valid_cidr (c m : CIDR) :
  0 <= plen c <= 128 -> Next c = ret m -> valid_cidr m = true.
Proof.
  intros Hp. unfold Next.
  destruct (Add (base c) (HostCount c)) as [a|] eqn:Ea; [|discriminate].
  destruct (NewCIDR a (plen c)) as [[r e]|] eqn:En; [|discriminate].
  intros H. apply ret_inj in H. subst m.
  exact (proj1 (NewCIDR_valid a (plen c) r e (Add_ok _ _ _ Ea) Hp En)).
Qed.

Lemma Prev_valid_cidr (c m : CIDR) :
  0 <= plen c <= 128 -> Prev c = ret m -> valid_cidr m = true.
Proof.
  intros Hp. unfold Prev.
  destruct (Sub (base c) (HostCount c)) as [a|] eqn:Ea; [|discriminate].
  destruct (NewCIDR a (plen c)) as [[r e]|] eqn:En; [|discriminate].
  intros H. apply ret_inj in H. subst m.
  exact (proj1 (NewCIDR_valid a (plen c) r e (Sub_ok _ _ _ Ea) Hp En)).
Qed.

Lemma split_loop_valid (p : Z) (st : Z) : 0 <= p <= 128 ->
  forall n cur subs, addr_ok cur = true -> split_loop n cur st p = ret subs ->
  Forall (fun s => valid_cidr s = true) subs.
Proof.
  intros Hp. induction n as [|n IH]; intros cur subs Hc H.
  - apply ret_inj in H. subst subs. constructor.
  - cbn [split_loop] in H.
    destruct (NewCIDR cur p) as [[s e]|] eqn:En; [|discriminate].
    destruct (Add cur st) as [cur'|] eqn:Ea; [|discriminate].
    destruct (split_loop n cur' st p) as [rest|] eqn:Er; [|discriminate].
    apply ret_inj in H. subst subs. constructor.
    + exact (proj1 (NewCIDR_valid cur p s e Hc Hp En)).
    + exact (IH cur' rest (Add_ok _ _ _ Ea) Er).
Qed.

Lemma Split_valid (c : CIDR) (p : Z) (subs : list CIDR) :
  valid_cidr c = true -> Split c p = ret (subs, None) ->
  Forall (fun s => valid_cidr s = true) subs.
Proof.
  intros Hc H. destruct (Split_ok c p subs H) as [Hp [[_ ->]|[_ [_ [_ Hl]]]]].
  - constructor; [exact Hc|constructor].
  - pose proof (valid_cidr_plen c Hc).
    exact (split_loop_valid p _ ltac:(lia) _ _ _ (valid_cidr_addr c Hc) Hl).
Qed.


Lemma IterNext_ok (it : SubnetIterator) (s : CIDR) (ok : bool) (it' : SubnetIterator) :
  iter_ok it -> IterNext it = ret (s, ok, it') ->
  (ok = true -> valid_cidr s = true) /\ iter_ok it'.
Proof.
  intros [Hc Hp]. unfold IterNext. destruct (remaining it =? 0).
  - intros H. apply ret_inj, pair_inj in H as [H <-]. apply pair_inj in H as [<- <-].
    split; [discriminate|split; assumption].
  - destruct (NewCIDR (current it) (it_plen it)) as [[c e]|] eqn:En; [|discriminate].
    destruct (Add (current it) (step it)) as [cur'|] eqn:Ea; [|discriminate].
    intros H. apply ret_inj, pair_inj in H as [H <-]. apply pair_inj in H as [<- <-].
    split.
    + intros _. exact (proj1 (NewCIDR_valid _ _ c e Hc Hp En)).
    + split; [exact (Add_ok _ _ _ Ea)|exact Hp].
Qed.

Lemma next_n_valid (n : nat) : forall it l it',
  iter_ok it -> next_n n it = ret (l, it') ->
  forall s, In (s, true) l -> valid_cidr s = true.
Proof.
  induction n as [|n IH]; intros it l it' Hi H s Hs.
  - cbn [next_n] in H. apply ret_inj, pair_inj in H as [<- _]. destruct Hs.
  - rewrite next_n_S in H.
    destruct (IterNext it) as [[[c ok] it1]|] eqn:E1; [|discriminate].
    destruct (next_n n it1) as [[rest it2]|] eqn:E2; [|discriminate].
    apply ret_inj, pair_inj in H as [<- _].
    destruct (IterNext_ok it c ok it1 Hi E1) as [Hc Hi1].
    destruct Hs as [Hs|Hs].
    + apply pair_inj in Hs as [<- ->]. apply Hc. reflexivity.
    + exact (IH it1 rest it2 Hi1 E2 s Hs).
Qed.

Lemma NewSubnetIterator_ok (c : CIDR) (p : Z) (it : SubnetIterator) :
  valid_cidr c = true -> NewSubnetIterator c p = ret (Some it, None) -> iter_ok it.
Proof.
  intros Hc. pose proof (valid_cidr_addr c Hc) as Ha. pose proof (valid_cidr_plen c Hc) as Hp0.
  unfold NewSubnetIterator.
  destruct ((p <? plen c) || (128 <? p)) eqn:E1; [discriminate|].
  apply orb_false_iff in E1 as [E1 E2]. apply Z.ltb_ge in E1, E2.
  destruct (p =? plen c).
  - intros H. apply ret_inj, pair_inj in H as [H _]. apply ret_inj in H. subst it.
    split; cbn; [exact Ha|lia].
  - destruct (63 <=? p - plen c); [discriminate|].
    destruct (MaxSplitParts <? Z.shiftl 1 (p - plen c)); [discriminate|].
    intros H. apply ret_inj, pair_inj in H as [H _]. apply ret_inj in H. subst it.
    split; cbn; [exact Ha|lia].
Qed.

(** ** Summarize *)

Lemma normalize_valid (l : list CIDR) : forall l',
  Forall (fun c => addr_ok (base c) = true) l -> normalize l = ret l' ->
  Forall (fun c => valid_cidr c = true) l'.
Proof.
  induction l as [|c l IH]; intros l' Hf H.
  - apply ret_inj in H. subst l'. constructor.
  - inversion Hf as [|? ? Hc Hl]; subst. cbn [normalize] in H.
    destruct (Mask (base c) (plen c)) as [b|] eqn:Em; [|discriminate].
    destruct (normalize l) as [rest|] eqn:Er; [|discriminate].
    apply ret_inj in H. subst l'. constructor.
    + exact (proj2 (proj2 (Mask_cidr _ _ b Hc Em))).
    + exact (IH rest Hl eq_refl).
Qed.

Lemma insert_sorted_Forall (P : CIDR -> Prop) (x : CIDR) (l : list CIDR) :
  P x -> Forall P l -> Forall P (insert_sorted x l).
Proof.
  intros Hx. induction l as [|y l IH]; intros Hl; cbn [insert_sorted].
  - constructor; [exact Hx|constructor].
  - inversion Hl as [|? ? Hy Hl']; subst.
    destruct (cidr_less y x); constructor; auto.
Qed.

Lemma sort_cidrs_Forall (P : CIDR -> Prop) (l : list CIDR) :
  Forall P l -> Forall P (sort_cidrs l).
Proof.
  induction l as [|x l IH]; intros Hl; [constructor|].
  inversion Hl as [|? ? Hx Hl']; subst. cbn [sort_cidrs fold_right].
  apply insert_sorted_Forall; [exact Hx|exact (IH Hl')].
Qed.

Lemma merge_top_valid (fuel : nat) : forall stack out,
  Forall (fun c => valid_cidr c = true) stack -> merge_top fuel stack = ret out ->
  Forall (fun c => valid_cidr c = true) out.
Proof.
  induction fuel as [|f IH]; intros stack out Hs H.
  - apply ret_inj in H. subst out. exact Hs.
  - cbn [merge_top] in H.
    destruct stack as [|last [|prev rest]];
      try (apply ret_inj in H; subst out; exact Hs).
    inversion Hs as [|? ? Hlast Hs1]; subst. inversion Hs1 as [|? ? Hprev Hrest]; subst.
    destruct (negb (plen last =? plen prev)); [apply ret_inj in H; subst out; exact Hs|].
    destruct (plen last =? 0); [apply ret_inj in H; subst out; exact Hs|].
    destruct (Next prev) as [nx|]; [|discriminate].
    destruct (Compare (base nx) (base last)); try (apply ret_inj in H; subst out; exact Hs).
    destruct (Mask (base prev) (plen last - 1)) as [pb|] eqn:Em1; [|discriminate].
    destruct (Mask (base last) (plen last - 1)) as [lp|]; [|discriminate].
    destruct (Compare pb lp); try (apply ret_inj in H; subst out; exact Hs).
    destruct (Mask_cidr _ _ pb (valid_cidr_addr prev Hprev) Em1) as [Hp [Hpb _]].
    destruct (NewCIDR pb (plen last - 1)) as [[parent e]|] eqn:En; [|discriminate].
    assert (Hpb' : addr_ok pb = true) by (destruct pb; [exact Hpb|discriminate]).
    destruct (NewCIDR_valid pb _ parent e Hpb' Hp En) as [Hparent _].
    exact (IH (parent :: rest) out (Forall_cons _ Hparent Hrest) H).
Qed.

Lemma summarize_loop_valid (cs : list CIDR) : forall stack out,
  Forall (fun c => valid_cidr c = true) cs ->
  Forall (fun c => valid_cidr c = true) stack -> summarize_loop cs stack = ret out ->
  Forall (fun c => valid_cidr c = true) out.
Proof.
  induction cs as [|c cs IH]; intros stack out Hc Hs H.
  - apply ret_inj in H. subst out. exact Hs.
  - inversion Hc as [|? ? Hc0 Hcs]; subst. cbn [summarize_loop] in H.
    destruct (match stack with top :: _ => ContainsCIDR top c | [] => ret false end)
      as [skip|]; [|discriminate].
    destruct skip; [exact (IH stack out Hcs Hs H)|].
    destruct (merge_top (length (c :: stack)) (c :: stack)) as [st'|] eqn:Em; [|discriminate].
    exact (IH st' out Hcs (merge_top_valid _ _ _ (Forall_cons _ Hc0 Hs) Em) H).
Qed.

Lemma Summarize_valid (cidrs out : list CIDR) :
  Forall (fun c => addr_ok (base c) = true) cidrs -> Summarize cidrs = ret out ->
  Forall (fun c => valid_cidr c = true) out.
Proof.
  intros Hf. unfold Summarize. destruct cidrs as [|c0 cs].
  - intros H. apply ret_inj in H. subst out. constructor.
  - destruct (normalize (c0 :: cs)) as [norm|] eqn:En; [|discriminate].
    destruct (summarize_loop (sort_cidrs norm) []) as [stack|] eqn:Es; [|discriminate].
    intros H. apply ret_inj in H. subst out. apply Forall_rev.
    exact (summarize_loop_valid _ _ _
             (sort_cidrs_Forall _ _ (normalize_valid _ _ Hf En)) (Forall_nil _) Es).
Qed.

(** ** CoverRange *)

Lemma TrailingZeros64_range (x : Z) : 0 <= x < two64 -> 0 <= TrailingZeros64 x <= 64.
Proof.
  intros Hx. unfold TrailingZeros64. destruct (Z.eqb_spec x 0) as [_|Hn]; [lia|].
  assert (Ho : 0 <= Z.ones 64) by (change (Z.ones 64) with 18446744073709551615; lia).
  assert (E : Z.land x (- x) = Z.land x (Z.land (Z.ones 64) (- x))).
  { rewrite Z.land_assoc, Z.land_ones by lia. rewrite Z.mod_small; [reflexivity|].
    rewrite two64_val in Hx. lia. }
  rewrite E. split; [apply Z.log2_nonneg|].
  pose proof (Z.log2_land x (Z.land (Z.ones 64) (- x)) ltac:(lia)
                (proj2 (Z.land_nonneg _ _) (or_introl Ho))) as L.
  pose proof (proj1 (Z.log2_lt_pow2 x 64 ltac:(lia)) ltac:(change (2 ^ 64) with two64; lia)) as L2.
  lia.
Qed.

Lemma cover_tz_range (hi lo : Z) : 0 <= hi < two64 -> 0 <= lo < two64 ->
  0 <= (if negb (lo =? 0) then TrailingZeros64 lo
        else if negb (hi =? 0) then 64 + TrailingZeros64 hi else 128) <= 128.
Proof.
  intros Hh Hl. pose proof (TrailingZeros64_range lo Hl). pose proof (TrailingZeros64_range hi Hh).
  destruct (negb (lo =? 0)); [lia|]. destruct (negb (hi =? 0)); lia.
Qed.

Lemma cover_prefix_range (r t : Z) : 0 <= t <= 128 ->
  0 <= 128 - (if (if r <? 0 then 0 else r) <? t then (if r <? 0 then 0 else r) else t) <= 128.
Proof.
  intros Ht. assert (Hr : 0 <= (if r <? 0 then 0 else r)) by (destruct (Z.ltb_spec r 0); lia).
  revert Hr. generalize (if r <? 0 then 0 else r). intros r' Hr.
  destruct (Z.ltb_spec r' t); lia.
Qed.

Lemma cover_step_valid (cur en : Address) (cid : CIDR) (cur' : Address) :
  addr_ok cur = true -> cover_step cur en = ret (cid, cur') ->
  valid_cidr cid = true /\ addr_ok cur' = true.
Proof.
  intros Hc. unfold cover_step.
  destruct (Distance cur en) as [d|]; [|discriminate].
  destruct cur as [v|]; [|discriminate].
  pose proof Hc as Hv. cbn [addr_ok valid_address] in Hv.
  apply andb_true_iff in Hv as [Hv _]. apply andb_true_iff in Hv as [H0 H1].
  apply Z.leb_le in H0. apply Z.ltb_lt in H1.
  rewrite hiLo_some by lia. cbv zeta. unfold ret at 1. cbv beta iota.
  assert (Hhi : 0 <= v / two64 < two64).
  { rewrite two128_two64 in H1. split; [apply Z.div_pos; rewrite ?two64_val; lia|].
    apply Z.div_lt_upper_bound; rewrite ?two64_val in *; lia. }
  assert (Hlo : 0 <= v mod two64 < two64) by (apply Z.mod_pos_bound; rewrite two64_val; lia).
  pose proof (cover_tz_range _ _ Hhi Hlo) as Htz.
  match goal with
  | |- context [NewCIDR (Some v) ?p] =>
      assert (Hp : 0 <= p <= 128) by (apply cover_prefix_range; exact Htz);
      destruct (NewCIDR (Some v) p) as [[c0 e]|] eqn:En; [|discriminate];
      destruct (NewCIDR_valid _ _ c0 e Hc Hp En) as [Hc0 _]
  end.
  destruct (LastHost c0) as [lh|]; [|discriminate].
  destruct (Add lh 1) as [a|] eqn:Ea; [|discriminate].
  intros H. apply ret_inj, pair_inj in H as [<- <-]. split; [exact Hc0|exact (Add_ok _ _ _ Ea)].
Qed.

Lemma cover_loop_valid (en : Address) (fuel : nat) : forall cur l,
  addr_ok cur = true -> cover_loop fuel cur en = ret (Some l) ->
  Forall (fun c => valid_cidr c = true) l.
Proof.
  induction fuel as [|f IH]; intros cur l Hc H; cbn [cover_loop] in H.
  - destruct (Compare cur en); [discriminate|discriminate|].
    apply ret_inj in H. injection H as <-. constructor.
  - destruct (Compare cur en).
    3: { apply ret_inj in H. injection H as <-. constructor. }
    all: destruct (cover_step cur en) as [[cid cur']|] eqn:Es; [|discriminate];
      destruct (cover_step_valid cur en cid cur' Hc Es) as [Hcid Hc'];
      destruct (cover_loop f cur' en) as [[l'|]|] eqn:El; try discriminate;
      apply ret_inj in H; injection H as <-;
      exact (Forall_cons _ Hcid (IH cur' l' Hc' El)).
Qed.

Lemma CoverRange_valid (fuel : nat) (start en : Address) (out : list CIDR) :
  addr_ok start = true -> CoverRange fuel start en = ret (Some (out, None)) ->
  Forall (fun c => valid_cidr c = true) out.
Proof.
  intros Hs. unfold CoverRange. destruct (Compare start en).
  3: { intros H. discriminate H. }
  all: destruct (cover_loop fuel start en) as [[l|]|] eqn:El; try discriminate;
    intros H; apply ret_inj in H; injection H as <-; exact (cover_loop_valid en fuel start l Hs El).
Qed.

(** ** Supernet *)

Lemma supernet_scan_ok (l : list CIDR) : forall mn mx mn' mx',
  Forall (fun c => addr_ok (base c) = true) l -> addr_ok mn = true ->
  supernet_scan l mn mx = ret (mn', mx') -> addr_ok mn' = true.
Proof.
  induction l as [|c l IH]; intros mn mx mn' mx' Hf Hmn H.
  - apply ret_inj, pair_inj in H as [<- _]. exact Hmn.
  - inversion Hf as [|? ? Hc Hl]; subst. cbn [supernet_scan] in H.
    destruct (LastHost c) as [lh|]; [|discriminate].
    assert (Hm : addr_ok (match Compare (FirstHost c) mn with Lt => FirstHost c | _ => mn end) = true)
      by (destruct (Compare (FirstHost c) mn); assumption).
    exact (IH _ _ _ _ Hl Hm H).
Qed.

Lemma Supernet_valid (l : list CIDR) (c : CIDR) :
  Forall (fun c => addr_ok (base c) = true) l -> Supernet l = ret (c, None) ->
  valid_cidr c = true.
Proof.
  intros Hf. unfold Supernet. destruct l as [|c0 rest]; [discriminate|].
  inversion Hf as [|? ? Hc0 Hrest]; subst.
  destruct (LastHost c0) as [mx0|]; [|discriminate].
  destruct (supernet_scan rest (FirstHost c0) mx0) as [[mn mx]|] eqn:Es; [|discriminate].
  pose proof (supernet_scan_ok rest _ _ _ _ Hrest Hc0 Es) as Hmn.
  destruct mn as [mb|]; [|discriminate]. destruct mx as [xb|]; [|discriminate].
  cbv zeta.
  destruct (Mask (Some mb) (common_prefix_from mb xb 0 16)) as [m|] eqn:Em; [|discriminate].
  destruct (Mask_cidr _ _ m Hmn Em) as [Hp [Hm _]].
  assert (Hm' : addr_ok m = true) by (destruct m; [exact Hm|discriminate]).
  intros H. exact (proj1 (NewCIDR_valid _ _ c None Hm' Hp H)).
Qed.

(** Claim C5 (counterexample): [Split] of the zero value [CIDR{}] at its own
    prefix length 0 returns [[CIDR{}]] with no error, and the base of that
    network is the [nil] Address, on which [Mask] panics: the invariant is
    taken from the caller's value, not established. *)
Lemma split_zero_value_unmasked :
  Split CIDR0 0 = ret ([CIDR0], None) /\ ~ base_masked CIDR0.
Proof.
  split; [reflexivity|]. unfold base_masked, CIDR0. cbn [base plen].
  rewrite Mask_nil. unfold panic, ret. congruence.
Qed.

(** Claim C5 (amended): every network returned without error satisfies
    [base == base.Mask(prefixLength)] (and [Mask] does not panic on it):
    [NewCIDR] of a [nil] or valid address; [ParseCIDR] of any string; [Next]
    and [Prev] of any network with prefix length in 0..128; [Split] of, and
    the networks yielded with [ok = true] by the [SubnetIterator] of, a
    network built by [NewCIDR]; [Summarize] and [Supernet] of networks whose
    bases are [nil] or valid; and [CoverRange] from a [nil] or valid start. *)
Theorem cidr_outputs_masked :
  (forall a p c, addr_ok a = true -> NewCIDR a p = ret (c, None) -> base_masked c) /\
  (forall s c, ParseCIDR s = ret (c, None) -> base_masked c) /\
  (forall c m, 0 <= plen c <= 128 -> Next c = ret m -> base_masked m) /\
  (forall c m, 0 <= plen c <= 128 -> Prev c = ret m -> base_masked m) /\
  (forall c p subs, valid_cidr c = true -> Split c p = ret (subs, None) ->
     Forall base_masked subs) /\
  (forall c p it n l it', valid_cidr c = true -> NewSubnetIterator c p = ret (Some it, None) ->
     next_n n it = ret (l, it') -> forall s, In (s, true) l -> base_masked s) /\
  (forall cs out, Forall (fun c => addr_ok (base c) = true) cs -> Summarize cs = ret out ->
     Forall base_masked out) /\
  (forall fuel start en out, addr_ok start = true ->
     CoverRange fuel start en = ret (Some (out, None)) -> Forall base_masked out) /\
  (forall l c, Forall (fun c => addr_ok (base c) = true) l -> Supernet l = ret (c, None) ->
     base_masked c).
Proof.
  assert (F : forall l, Forall (fun c => valid_cidr c = true) l -> Forall base_masked l).
  { intros l. apply Forall_impl. apply valid_cidr_masked. }
  repeat split.
  - intros a p c Ha H. apply valid_cidr_masked.
    destruct (NewCIDR_cases a p c None Ha H) as [[Hv _]|[_ [He _]]]; [exact Hv|discriminate].
  - intros s c H. exact (valid_cidr_masked _ (ParseCIDR_valid s c H)).
  - intros c m Hp H. exact (valid_cidr_masked _ (Next_valid_cidr c m Hp H)).
  - intros c m Hp H. exact (valid_cidr_masked _ (Prev_valid_cidr c m Hp H)).
  - intros c p subs Hc H. exact (F _ (Split_valid c p subs Hc H)).
  - intros c p it n l it' Hc Hi Hn s Hs.
    exact (valid_cidr_masked _ (next_n_valid n it l it' (NewSubnetIterator_ok c p it Hc Hi) Hn s Hs)).
  - intros cs out Hf H. exact (F _ (Summarize_valid cs out Hf H)).
  - intros fuel start en out Hs H. exact (F _ (CoverRange_valid fuel start en out Hs H)).
  - intros l c Hf H. exact (valid_cidr_masked _ (Supernet_valid l c Hf H)).
Qed.

(** [ParseCIDR("2001:db8::/32")] and its masked base. *)
Lemma cidr_outputs_masked_witness :
  ParseCIDR (lit "2001:db8::/32") =
    ret (mkCIDR (Some 42540766411282592856903984951653826560) 32, None) /\
  base_masked (mkCIDR (Some 42540766411282592856903984951653826560) 32).
Proof.
  assert (E : ParseCIDR (lit "2001:db8::/32") =
                ret (mkCIDR (Some 42540766411282592856903984951653826560) 32, None))
    by reflexivity.
  split; [exact E|].
  exact (proj1 (proj2 cidr_outputs_masked) _ _ E).
Defined.

(** * More arithmetic lemmas *)

Lemma add_any (v d : Z) :
  0 <= v < two128 -> - two128 <= d ->
  Add (Some v) d = ret (fst (NewAddress ((v + d) mod two128))).
Proof.
  intros Hv Hd. destruct (Z.ltb_spec d 0) as [Hn|Hn]; [|apply add_val; lia].
  unfold Add. replace (d <? 0) with true by (symmetry; apply Z.ltb_lt; lia).
  replace (Sub_nonneg (Some v) (Z.abs d)) with (Sub (Some v) (Z.abs d))
    by (unfold Sub; replace (Z.abs d <? 0) with false by (symmetry; apply Z.ltb_ge; lia);
        reflexivity).
  rewrite sub_val by lia. replace (v - Z.abs d) with (v + d) by lia. reflexivity.
Qed.

Lemma sub_any (v d : Z) :
  0 <= v < two128 -> - two128 <= d <= two128 ->
  Sub (Some v) d = ret (fst (NewAddress ((v - d) mod two128))).
Proof.
  intros Hv Hd. destruct (Z.ltb_spec d 0) as [Hn|Hn]; [|apply sub_val; lia].
  unfold Sub. replace (d <? 0) with true by (symmetry; apply Z.ltb_lt; lia).
  replace (Add_nonneg (Some v) (Z.abs d)) with (Add (Some v) (Z.abs d))
    by (unfold Add; replace (Z.abs d <? 0) with false by (symmetry; apply Z.ltb_ge; lia);
        reflexivity).
  rewrite add_val by lia. replace (v + Z.abs d) with (v - d) by lia. reflexivity.
Qed.

Lemma NewAddress_some (x w : Z) :
  fst (NewAddress x) = Some w -> w = x /\ is_v4mapped x = false.
Proof.
  destruct (NewAddress_cases x) as [[-> Hm]|[-> _]]; intros H; [|discriminate].
  split; [|exact Hm]. apply ret_inj in H. congruence.
Qed.

Lemma NewAddress_valid (v : Z) : is_v4mapped v = false -> fst (NewAddress v) = Some v.
Proof. intros Hm. unfold NewAddress. rewrite Hm. reflexivity. Qed.

Lemma valid_address_inv (v : Z) :
  valid_address (Some v) = true -> 0 <= v < two128 /\ is_v4mapped v = false.
Proof.
  unfold valid_address. intros Hv.
  apply andb_true_iff in Hv as [Hv Hm]. apply andb_true_iff in Hv as [H0 H1].
  apply Z.leb_le in H0. apply Z.ltb_lt in H1. apply negb_true_iff in Hm. split; [lia | exact Hm].
Qed.

(** [x] lies in the aligned block of size [h] starting at [v] exactly when
    rounding [x] down to a multiple of [h] gives [v]. *)
Lemma aligned_div_iff (v h x : Z) :
  0 < h -> v mod h = 0 -> 0 <= x ->
  (x / h * h = v <-> v <= x <= v + h - 1).
Proof.
  intros Hh Hv Hx. pose proof (Z.div_mod x h ltac:(lia)).
  pose proof (Z.mod_pos_bound x h Hh). pose proof (Z.div_mod v h ltac:(lia)).
  split.
  - intros <-. lia.
  - intros Hr. assert (Hq : x / h = v / h).
    { symmetry. apply Z.div_unique with (x - v); [left; lia | lia]. }
    rewrite Hq. lia.
Qed.

Lemma pow_le_sub (p q : Z) : 0 <= p <= q -> q <= 128 -> 2 ^ (128 - q) <= 2 ^ (128 - p).
Proof. intros Hp Hq. apply Z.pow_le_mono_r; lia. Qed.

Lemma pow_split_sub (p q : Z) :
  0 <= p <= q -> q <= 128 -> 2 ^ (128 - p) = 2 ^ (q - p) * 2 ^ (128 - q).
Proof. intros Hp Hq. rewrite <- Z.pow_add_r by lia. f_equal. lia. Qed.

Lemma Mask_None (p : Z) : Mask None p = panic.
Proof. unfold Mask. destruct ((p <? 0) || (BitLen <? p)); reflexivity. Qed.

(** * Offsets, sums and distances *)

(** X1: [Offset] adds an unsigned 64-bit offset modulo [2^128]: on a valid
    address it returns [(v + u) mod 2^128], or the zero Address when that
    sum is IPv4-mapped; on the zero Address it panics. *)
Theorem Offset_wraps (v u : Z) :
  valid_address (Some v) = true -> 0 <= u < two64 ->
  Offset (Some v) u =
    ret (if is_v4mapped ((v + u) mod two128) then None else Some ((v + u) mod two128)) /\
  Offset None u = panic.
Proof.
  intros Hv Hu. apply valid_address_inv in Hv as [Hv _]. split.
  - unfold Offset. rewrite add_val by lia. unfold NewAddress.
    destruct (is_v4mapped ((v + u) mod two128)); reflexivity.
  - unfold Offset, Add. replace (u <? 0) with false by (symmetry; apply Z.ltb_ge; lia).
    unfold Add_nonneg. rewrite (proj2 (Z.leb_le _ _) (BitLenZ_le64 u Hu)). reflexivity.
Qed.

Lemma Offset_wraps_witness :
  (valid_address (Some (two128 - 1)) = true /\ 0 <= 2 < two64) /\
  Offset (Some (two128 - 1)) 2 = ret (Some 1).
Proof.
  split; [split; [reflexivity | rewrite two64_val; lia]|].
  refine (eq_trans (proj1 (Offset_wraps (two128 - 1) 2 eq_refl _)) _);
    [rewrite two64_val; lia | vm_compute; reflexivity].
Defined.

(** X2: [Sub] undoes [Add]: for a valid address [a] and a delta with
    [|delta| <= 2^128], if [a.Add(delta)] returns a non-zero Address [b],
    then [b.Sub(delta)] is [a]; and if [a.Sub(delta)] returns a non-zero
    Address [b], then [b.Add(delta)] is [a]. *)
Theorem Add_Sub_inverse (v d w : Z) :
  valid_address (Some v) = true -> - two128 <= d <= two128 ->
  (Add (Some v) d = ret (Some w) -> Sub (Some w) d = ret (Some v)) /\
  (Sub (Some v) d = ret (Some w) -> Add (Some w) d = ret (Some v)).
Proof.
  intros Hv Hd. apply valid_address_inv in Hv as [Hv Hm].
  assert (Hpos : 0 < two128) by (rewrite two128_val; lia).
  split; intros H.
  - rewrite add_any in H by lia. apply ret_inj, NewAddress_some in H as [-> _].
    pose proof (Z.mod_pos_bound (v + d) two128 Hpos).
    rewrite sub_any by lia. rewrite Zminus_mod_idemp_l.
    replace (v + d - d) with v by lia. rewrite Z.mod_small by lia.
    rewrite NewAddress_valid by exact Hm. reflexivity.
  - rewrite sub_any in H by lia. apply ret_inj, NewAddress_some in H as [-> _].
    pose proof (Z.mod_pos_bound (v - d) two128 Hpos).
    rewrite add_any by lia. rewrite Zplus_mod_idemp_l.
    replace (v - d + d) with v by lia. rewrite Z.mod_small by lia.
    rewrite NewAddress_valid by exact Hm. reflexivity.
Qed.

Lemma Add_Sub_inverse_witness :
  (valid_address (Some 7) = true /\ - two128 <= -9 <= two128) /\
  Sub (Some (two128 - 2)) (-9) = ret (Some 7).
Proof.
  split; [split; [reflexivity | rewrite two128_val; lia]|].
  apply (proj1 (Add_Sub_inverse 7 (-9) (two128 - 2) eq_refl ltac:(rewrite two128_val; lia))).
  vm_compute. reflexivity.
Defined.

(** X3: [Distance] of two non-zero Addresses is the absolute difference of
    their 128-bit values (so it is symmetric and zero only on equal
    addresses); it panics when either argument is the zero Address. *)
Theorem Distance_abs (x y : Z) :
  0 <= x < two128 -> 0 <= y < two128 ->
  Distance (Some x) (Some y) = ret (Z.abs (x - y)) /\
  (forall b, Distance None b = panic /\ Distance b None = panic).
Proof.
  intros Hx Hy. split.
  2:{ intros [b|]; split; reflexivity. }
  unfold Distance. rewrite !hiLo_some by lia. unfold ret. cbv beta iota.
  pose proof (Z.div_mod x two64 ltac:(rewrite two64_val; lia)).
  pose proof (Z.div_mod y two64 ltac:(rewrite two64_val; lia)).
  pose proof (Z.mod_pos_bound x two64 ltac:(rewrite two64_val; lia)).
  pose proof (Z.mod_pos_bound y two64 ltac:(rewrite two64_val; lia)).
  assert (Hxh : 0 <= x / two64 < two64).
  { split; [apply Z.div_pos; rewrite ?two64_val; lia|].
    apply Z.div_lt_upper_bound; rewrite ?two64_val; rewrite two128_val in Hx; lia. }
  assert (Hyh : 0 <= y / two64 < two64).
  { split; [apply Z.div_pos; rewrite ?two64_val; lia|].
    apply Z.div_lt_upper_bound; rewrite ?two64_val; rewrite two128_val in Hy; lia. }
  set (xh := x / two64) in *. set (xl := x mod two64) in *.
  set (yh := y / two64) in *. set (yl := y mod two64) in *.
  assert (Htw : 0 < two64) by (rewrite two64_val; lia).
  clearbody xh xl yh yl. subst x y.
  destruct ((yh <? xh) || ((xh =? yh) && (yl <? xl))) eqn:Sw; cbv beta iota.
  - assert (Hlt : two64 * yh + yl < two64 * xh + xl).
    { apply orb_true_iff in Sw as [Sw|Sw].
      - apply Z.ltb_lt in Sw. nia.
      - apply andb_true_iff in Sw as [S1 S2]. apply Z.eqb_eq in S1. apply Z.ltb_lt in S2. nia. }
    destruct (Z.leb_spec yl xl) as [Hl|Hl]; cbv beta iota.
    + rewrite (Z.mod_small (xh - yh)) by nia. f_equal. lia.
    + rewrite (Z.mod_small (xh - 1 - yh)) by nia.
      rewrite <- (Z.mod_add (xl - yl) 1 two64) by lia.
      rewrite Z.mod_small by lia. f_equal. lia.
  - assert (Hle : two64 * xh + xl <= two64 * yh + yl).
    { apply orb_false_iff in Sw as [S1 S2]. apply Z.ltb_ge in S1.
      destruct (Z.eqb_spec xh yh) as [E|E].
      - apply Z.ltb_ge in S2. nia.
      - assert (xh < yh) by lia. nia. }
    destruct (Z.leb_spec xl yl) as [Hl|Hl]; cbv beta iota.
    + rewrite (Z.mod_small (yh - xh)) by nia. f_equal. lia.
    + rewrite (Z.mod_small (yh - 1 - xh)) by nia.
      rewrite <- (Z.mod_add (yl - xl) 1 two64) by lia.
      rewrite Z.mod_small by lia. f_equal. lia.
Qed.

Lemma Distance_abs_witness :
  (0 <= 10 < two128 /\ 0 <= two64 + 3 < two128) /\
  Distance (Some 10) (Some (two64 + 3)) = ret (two64 - 7).
Proof.
  split; [rewrite two128_val, two64_val; lia|].
  rewrite (proj1 (Distance_abs 10 (two64 + 3) ltac:(rewrite two128_val; lia)
                    ltac:(rewrite two128_val, two64_val; lia))).
  rewrite two64_val. reflexivity.
Defined.

(** * Membership, masks and last addresses *)

Lemma compare_eq_bool (x y : Z) :
  match Z.compare x y with Eq => true | _ => false end = (x =? y).
Proof. destruct (Z.compare_spec x y) as [E|E|E]; [subst; rewrite Z.eqb_refl | |]; 
  try (symmetry; apply Z.eqb_neq; lia); reflexivity. Qed.

Lemma ContainsAddress_val (c : CIDR) (x : Z) :
  valid_cidr c = true -> valid_address (Some x) = true ->
  ContainsAddress c (Some x) =
    ret ((BigInt (base c) <=? x) && (x <=? BigInt (base c) + HostCount c - 1)).
Proof.
  intros Hc Hx.
  destruct (valid_cidr_inv c Hc) as (v & Hb & Hv & Hm & Hp & Ha).
  pose proof (valid_address_inv x Hx) as [Hx' _].
  unfold ContainsAddress. rewrite Mask_valid by assumption.
  unfold ret at 1. cbv beta iota. rewrite Hb, HostCount_pow by lia. cbn [BigInt Compare].
  rewrite compare_eq_bool, land_maskTable by lia.
  pose proof (pow_pos' (128 - plen c) ltac:(lia)).
  pose proof (aligned_div_iff v (2 ^ (128 - plen c)) x ltac:(lia) Ha ltac:(lia)) as Hiff.
  f_equal. destruct (Z.eqb_spec v (x / 2 ^ (128 - plen c) * 2 ^ (128 - plen c))) as [E|E].
  - symmetry in E. apply Hiff in E. symmetry. apply andb_true_iff.
    split; apply Z.leb_le; lia.
  - symmetry. apply andb_false_iff.
    destruct (Z.leb_spec v x); [|left; reflexivity].
    destruct (Z.leb_spec x (v + 2 ^ (128 - plen c) - 1)); [|right; reflexivity].
    exfalso. apply E. symmetry. apply Hiff. lia.
Qed.
(** X4: [ContainsAddress] on a network built by [NewCIDR] and a valid
    address never panics and reports exactly whether the address lies in
    [[base, base + hostCount - 1]]; on the zero Address it panics. *)
Theorem ContainsAddress_interval (c : CIDR) (x : Z) :
  valid_cidr c = true -> valid_address (Some x) = true ->
  ContainsAddress c (Some x) =
    ret ((BigInt (base c) <=? x) && (x <=? BigInt (base c) + HostCount c - 1)) /\
  ContainsAddress c None = panic.
Proof.
  intros Hc Hx. split; [apply ContainsAddress_val; assumption|].
  unfold ContainsAddress. rewrite Mask_None. reflexivity.
Qed.

Lemma ContainsAddress_interval_witness :
  (valid_cidr (mkCIDR (Some 256) 120) = true /\ valid_address (Some 300) = true) /\
  ContainsAddress (mkCIDR (Some 256) 120) (Some 300) = ret true.
Proof.
  split; [split; reflexivity|].
  rewrite (proj1 (ContainsAddress_interval (mkCIDR (Some 256) 120) 300 eq_refl eq_refl)).
  reflexivity.
Defined.

(** X5: for two networks built by [NewCIDR], [c.ContainsCIDR(o)] never
    panics, and it is true exactly when every address of [o] is an address
    of [c]. *)
Theorem ContainsCIDR_subset (c o : CIDR) :
  valid_cidr c = true -> valid_cidr o = true ->
  exists b, ContainsCIDR c o = ret b /\
    (b = true <-> forall x, in_cidr o x -> in_cidr c x).
Proof.
  intros Hc Ho.
  destruct (valid_cidr_inv c Hc) as (vc & Hbc & Hvc & Hmc & Hpc & Hac).
  destruct (valid_cidr_inv o Ho) as (vo & Hbo & Hvo & Hmo & Hpo & Hao).
  assert (Hin : forall x, in_cidr o x <-> vo <= x <= vo + 2 ^ (128 - plen o) - 1)
    by (intros x; unfold in_cidr; rewrite Hbo, HostCount_pow by lia; reflexivity).
  assert (Hic : forall x, in_cidr c x <-> vc <= x <= vc + 2 ^ (128 - plen c) - 1)
    by (intros x; unfold in_cidr; rewrite Hbc, HostCount_pow by lia; reflexivity).
  pose proof (pow_pos' (128 - plen c) ltac:(lia)).
  pose proof (pow_pos' (128 - plen o) ltac:(lia)).
  unfold ContainsCIDR. destruct (Z.leb_spec (plen c) (plen o)) as [Hle|Hgt].
  - rewrite Hbo, ContainsAddress_val by (assumption || (apply valid_address_intro; assumption)).
    rewrite Hbc, HostCount_pow by lia. cbn [BigInt].
    eexists; split; [reflexivity|].
    pose proof (pow_split_sub (plen c) (plen o) ltac:(lia) ltac:(lia)) as Hsp.
    set (r := 2 ^ (plen o - plen c)) in *. set (hc := 2 ^ (128 - plen c)) in *.
    set (ho := 2 ^ (128 - plen o)) in *.
    assert (Hr : 0 < r) by (apply pow_pos'; lia).
    split.
    + intros Hb x Hx. apply andb_true_iff in Hb as [B1 B2].
      apply Z.leb_le in B1, B2. apply Hin in Hx. apply Hic.
      (* [vo - vc] is a multiple of [ho] below [hc = r * ho] *)
      apply Z.mod_divide in Hac as [kc Hkc]; [|lia].
      apply Z.mod_divide in Hao as [ko Hko]; [|lia].
      assert (Hk : ko - kc * r < r) by nia.
      assert (ko - kc * r <= r - 1) by lia. nia.
    + intros Hall. apply andb_true_iff. 
      pose proof (proj1 (Hic vo) (Hall vo (proj2 (Hin vo) ltac:(lia)))).
      pose proof (proj1 (Hic (vo + ho - 1)) (Hall (vo + ho - 1) (proj2 (Hin (vo + ho - 1)) ltac:(lia)))).
      split; apply Z.leb_le; lia.
  - eexists; split; [reflexivity|]. split; [discriminate|].
    intros Hall. exfalso.
    pose proof (pow_split_sub (plen o) (plen c) ltac:(lia) ltac:(lia)) as Hsp.
    assert (2 <= 2 ^ (plen c - plen o)).
    { change 2 with (2 ^ 1) at 1. apply Z.pow_le_mono_r; lia. }
    pose proof (proj1 (Hic vo) (Hall vo (proj2 (Hin vo) ltac:(lia)))).
    pose proof (proj1 (Hic (vo + 2 ^ (128 - plen o) - 1))
      (Hall (vo + 2 ^ (128 - plen o) - 1) (proj2 (Hin (vo + 2 ^ (128 - plen o) - 1)) ltac:(lia)))).
    nia.
Qed.

Lemma ContainsCIDR_subset_witness :
  valid_cidr (mkCIDR (Some 256) 120) = true /\ valid_cidr (mkCIDR (Some 320) 122) = true /\
  exists b, ContainsCIDR (mkCIDR (Some 256) 120) (mkCIDR (Some 320) 122) = ret b /\
    (b = true <-> forall x, in_cidr (mkCIDR (Some 320) 122) x -> in_cidr (mkCIDR (Some 256) 120) x).
Proof.
  split; [reflexivity|]. split; [reflexivity|].
  apply ContainsCIDR_subset; reflexivity.
Defined.

(** X6: masking composes: for a valid address, masking to a prefix [p] and
    then to a shorter prefix [q <= p] gives the same Address as masking to
    [q] directly, and neither call panics. *)
Theorem Mask_Mask (v p q : Z) :
  valid_address (Some v) = true -> 0 <= q <= p -> p <= 128 ->
  exists b, Mask (Some v) p = ret b /\ Mask b q = Mask (Some v) q.
Proof.
  intros Hv Hq Hp. pose proof (valid_address_inv v Hv) as [Hv' _].
  exists (Some (Z.land v (maskTable p))). split; [apply Mask_valid; auto; lia|].
  rewrite (Mask_valid (Z.land v (maskTable p)) q) by
    (lia || (apply valid_address_mask; [assumption | lia])).
  rewrite (Mask_valid v q) by (lia || assumption).
  do 2 f_equal.
  pose proof (land_maskTable_range v p Hv' ltac:(lia)).
  rewrite (land_maskTable (Z.land v (maskTable p))) by lia.
  rewrite !land_maskTable by lia.
  pose proof (pow_split_sub q p ltac:(lia) ltac:(lia)) as Hsp.
  pose proof (pow_pos' (128 - p) ltac:(lia)). pose proof (pow_pos' (p - q) ltac:(lia)).
  rewrite Hsp. set (hp := 2 ^ (128 - p)) in *. set (e := 2 ^ (p - q)) in *.
  rewrite Z.mul_comm with (n := e).
  rewrite <- !Z.div_div by lia. rewrite Z.div_mul by lia. reflexivity.
Qed.

Lemma Mask_Mask_witness :
  (valid_address (Some 1000) = true /\ 0 <= 120 <= 125 /\ 125 <= 128) /\
  exists b, Mask (Some 1000) 125 = ret b /\ Mask b 120 = Mask (Some 1000) 120.
Proof.
  split; [split; [reflexivity | lia]|].
  apply Mask_Mask; [reflexivity | lia | lia].
Defined.

Lemma valid_cidr_last (c : CIDR) :
  valid_cidr c = true ->
  LastHost c = ret (fst (NewAddress (BigInt (base c) + HostCount c - 1))) /\
  0 <= BigInt (base c) /\ BigInt (base c) + HostCount c <= two128 /\ 0 < HostCount c.
Proof.
  intros Hc. destruct (valid_cidr_inv c Hc) as (v & Hb & Hv & Hm & Hp & Ha).
  pose proof (aligned_end v (plen c) Hv Hp Ha).
  pose proof (pow_pos' (128 - plen c) ltac:(lia)).
  rewrite (LastHost_val c v) by (assumption || lia).
  rewrite Hb, HostCount_pow by lia. cbn [BigInt]. repeat split; lia.
Qed.

(** X7: [LastHost] of a network built by [NewCIDR] never panics: it returns
    the address [base + hostCount - 1], except when that address is
    IPv4-mapped, where it returns the zero Address (as for ::fffe:0:0/95,
    whose last address is ::ffff:ffff:ffff). *)
Theorem LastHost_value (c : CIDR) :
  valid_cidr c = true ->
  LastHost c =
    ret (let l := BigInt (base c) + HostCount c - 1 in
         if is_v4mapped l then None else Some l).
Proof.
  intros Hc. rewrite (proj1 (valid_cidr_last c Hc)). unfold NewAddress. cbv zeta.
  destruct (is_v4mapped (BigInt (base c) + HostCount c - 1)); reflexivity.
Qed.

Lemma LastHost_value_witness :
  valid_cidr (mkCIDR (Some (Z.shiftl 65534 32)) 95) = true /\
  LastHost (mkCIDR (Some (Z.shiftl 65534 32)) 95) = ret None.
Proof.
  split; [reflexivity|].
  rewrite (LastHost_value (mkCIDR (Some (Z.shiftl 65534 32)) 95) eq_refl).
  vm_compute. reflexivity.
Defined.

(** X8: for two networks built by [NewCIDR] whose last addresses are not
    IPv4-mapped, [Overlaps] never panics and reports exactly whether the two
    networks share an address. *)
Theorem Overlaps_exact (c o : CIDR) :
  valid_cidr c = true -> valid_cidr o = true ->
  is_v4mapped (BigInt (base c) + HostCount c - 1) = false ->
  is_v4mapped (BigInt (base o) + HostCount o - 1) = false ->
  exists b, Overlaps c o = ret b /\ (b = true <-> ranges_overlap c o).
Proof.
  intros Hc Ho Hmc Hmo.
  destruct (valid_cidr_last c Hc) as (Hlc & Hc1 & Hc2 & Hc3).
  destruct (valid_cidr_last o Ho) as (Hlo & Ho1 & Ho2 & Ho3).
  unfold Overlaps. rewrite Hlc, Hlo, !NewAddress_valid by assumption.
  unfold ret at 1 2. cbv beta iota. cbn [BigInt]. unfold FirstHost.
  eexists; split; [reflexivity|].
  unfold ranges_overlap, in_cidr. rewrite andb_true_iff, !Z.leb_le. split.
  - intros [H1 H2]. exists (Z.max (BigInt (base c)) (BigInt (base o))). lia.
  - intros (x & H1 & H2). lia.
Qed.

Lemma Overlaps_exact_witness :
  (valid_cidr (mkCIDR (Some 256) 120) = true /\ valid_cidr (mkCIDR (Some 320) 122) = true /\
   is_v4mapped (BigInt (base (mkCIDR (Some 256) 120)) + HostCount (mkCIDR (Some 256) 120) - 1) = false /\
   is_v4mapped (BigInt (base (mkCIDR (Some 320) 122)) + HostCount (mkCIDR (Some 320) 122) - 1) = false) /\
  exists b, Overlaps (mkCIDR (Some 256) 120) (mkCIDR (Some 320) 122) = ret b /\
    (b = true <-> ranges_overlap (mkCIDR (Some 256) 120) (mkCIDR (Some 320) 122)).
Proof.
  split; [repeat split; reflexivity|].
  apply Overlaps_exact; reflexivity.
Defined.

(** * Random choices *)

(** X9: for a network built by [NewCIDR] and any offset that
    [big.Int.Rand] can draw ([0 <= offset < hostCount]),
    [RandomAddressInCIDR] never panics and returns the address
    [base + offset], which lies in the network; when that address is
    IPv4-mapped it returns the zero Address instead. *)
Theorem RandomAddressInCIDR_in (c : CIDR) (r : Z) :
  valid_cidr c = true -> 0 <= r < HostCount c ->
  in_cidr c (BigInt (base c) + r) /\
  RandomAddressInCIDR c r = ret (fst (NewAddress (BigInt (base c) + r))).
Proof.
  intros Hc Hr. destruct (valid_cidr_inv c Hc) as (v & Hb & Hv & Hm & Hp & Ha).
  pose proof (aligned_end v (plen c) Hv Hp Ha).
  rewrite HostCount_pow in Hr by lia.
  unfold in_cidr. rewrite Hb, HostCount_pow by lia. cbn [BigInt]. split; [lia|].
  unfold RandomAddressInCIDR. rewrite Hb. destruct (Z.eqb_spec (128 - plen c) 0) as [E|E].
  - rewrite E in Hr. change (2 ^ 0) with 1 in Hr. replace (v + r) with v by lia.
    rewrite NewAddress_valid by exact Hm. reflexivity.
  - rewrite add_val by lia. rewrite Z.mod_small by lia. reflexivity.
Qed.

Lemma RandomAddressInCIDR_in_witness :
  (valid_cidr (mkCIDR (Some 256) 120) = true /\ 0 <= 77 < HostCount (mkCIDR (Some 256) 120)) /\
  RandomAddressInCIDR (mkCIDR (Some 256) 120) 77 = ret (Some 333).
Proof.
  split; [split; [reflexivity | unfold HostCount; cbn; lia]|].
  rewrite (proj2 (RandomAddressInCIDR_in (mkCIDR (Some 256) 120) 77 eq_refl
                    ltac:(unfold HostCount; cbn; lia))).
  reflexivity.
Defined.

(** X10: for a network [c] built by [NewCIDR], a prefix [p] with
    [c.plen <= p <= 128] and any index [idx] that [big.Int.Rand] can draw
    ([0 <= idx < 2^(p - c.plen)]), whenever [RandomSubnetInCIDR] returns,
    it returns no error and a network built as by [NewCIDR] with prefix [p],
    base [c.base + idx * 2^(128 - p)], and all of its addresses in [c]. *)
Theorem RandomSubnetInCIDR_sub (c s : CIDR) (p idx : Z) (e : option Err) :
  valid_cidr c = true -> plen c <= p <= 128 -> 0 <= idx < 2 ^ (p - plen c) ->
  RandomSubnetInCIDR c p idx = ret (s, e) ->
  e = None /\ valid_cidr s = true /\ plen s = p /\
  BigInt (base s) = BigInt (base c) + idx * 2 ^ (128 - p) /\
  (forall x, in_cidr s x -> in_cidr c x).
Proof.
  intros Hc Hpp Hidx H. destruct (valid_cidr_inv c Hc) as (v & Hb & Hv & Hm & Hp & Ha).
  pose proof (aligned_end v (plen c) Hv Hp Ha).
  pose proof (pow_split_sub (plen c) p ltac:(lia) ltac:(lia)) as Hsp.
  pose proof (pow_pos' (128 - p) ltac:(lia)).
  unfold RandomSubnetInCIDR in H.
  replace ((p <? plen c) || (128 <? p)) with false in H
    by (symmetry; apply orb_false_iff; split; apply Z.ltb_ge; lia).
  destruct (Z.eqb_spec p (plen c)) as [E|E].
  - apply ret_inj, pair_inj in H as [<- <-]. subst p.
    rewrite Z.sub_diag in Hidx. change (2 ^ 0) with 1 in Hidx.
    replace idx with 0 by lia. rewrite Z.mul_0_l, Z.add_0_r.
    split; [reflexivity|]. split; [exact Hc|]. split; [reflexivity|].
    split; [reflexivity|]. intros x Hx; exact Hx.
  - cbv zeta in H. rewrite HostCount_shiftr in H by lia.
    rewrite Hb, add_val in H by nia.
    set (st := 2 ^ (128 - p)) in *. set (w := v + idx * st) in *.
    assert (Hw : 0 <= w < two128) by (subst w; nia).
    rewrite Z.mod_small in H by lia.
    assert (Hwa : w mod st = 0).
    { apply Z.mod_divide; [lia|]. subst w. apply Z.divide_add_r.
      - apply Z.mod_divide in Ha; [|lia]. rewrite Hsp in Ha.
        eapply Z.divide_trans; [apply Z.divide_factor_r | exact Ha].
      - apply Z.divide_factor_r. }
    destruct (NewAddress_cases w) as [[Hn Hwm]|[Hn _]]; rewrite Hn in H.
    + unfold ret at 1 in H. cbv beta iota in H.
      rewrite NewCIDR_aligned in H by (assumption || lia).
      apply ret_inj, pair_inj in H as [<- <-].
      split; [reflexivity|]. split; [apply valid_cidr_intro; assumption || lia|].
      split; [reflexivity|]. split; [rewrite Hb; reflexivity|].
      intros x. rewrite in_cidr_block by lia. unfold in_cidr.
      rewrite Hb, HostCount_pow by lia. cbn [BigInt]. rewrite Hsp.
      set (r := 2 ^ (p - plen c)) in *. subst w. nia.
    + unfold ret at 1 in H. cbv beta iota in H.
      unfold NewCIDR in H. rewrite Mask_None in H.
      replace ((p <? 0) || (128 <? p)) with false in H
        by (symmetry; apply orb_false_iff; split; apply Z.ltb_ge; lia).
      cbv [panic] in H. discriminate.
Qed.

Lemma RandomSubnetInCIDR_sub_witness :
  (valid_cidr (mkCIDR (Some 256) 120) = true /\ 120 <= 124 <= 128 /\ 0 <= 5 < 2 ^ (124 - 120)) /\
  RandomSubnetInCIDR (mkCIDR (Some 256) 120) 124 5 = ret (mkCIDR (Some 336) 124, None) /\
  BigInt (base (mkCIDR (Some 336) 124)) = 256 + 5 * 2 ^ (128 - 124).
Proof.
  split; [split; [reflexivity | lia]|].
  split; [vm_compute; reflexivity|].
  apply (RandomSubnetInCIDR_sub (mkCIDR (Some 256) 120) (mkCIDR (Some 336) 124) 124 5 None
           eq_refl ltac:(cbn; lia) ltac:(cbn; lia)).
  vm_compute. reflexivity.
Defined.

(** * The byte comparison *)

Lemma fold_shift (l : list Z) : forall a,
  fold_left (fun acc x => acc * 256 + x) l a = a * 256 ^ Z.of_nat (length l) + bytes_to_Z l.
Proof.
  induction l as [|x l IH]; intros a.
  - cbn. lia.
  - unfold bytes_to_Z. cbn [fold_left length]. rewrite !IH. rewrite Nat2Z.inj_succ, Z.pow_succ_r by lia.
    lia.
Qed.

Lemma be_range (l : list Z) : Forall byte_ok l -> 0 <= bytes_to_Z l < 256 ^ Z.of_nat (length l).
Proof.
  intros H. pose proof (bytes_fold_range l H 0 ltac:(lia)). unfold bytes_to_Z. lia.
Qed.

Lemma bytesCompare_be (l1 : list Z) : forall l2,
  length l1 = length l2 -> Forall byte_ok l1 -> Forall byte_ok l2 ->
  bytesCompare l1 l2 = int_of_cmp (Z.compare (bytes_to_Z l1) (bytes_to_Z l2)).
Proof.
  induction l1 as [|x l1 IH]; intros [|y l2] Hl H1 H2; try discriminate; [reflexivity|].
  inversion H1 as [|? ? Hx H1']; inversion H2 as [|? ? Hy H2']; subst.
  unfold byte_ok in Hx, Hy. cbn [length] in Hl. injection Hl as Hl.
  assert (Hb : forall x l, bytes_to_Z (x :: l) = x * 256 ^ Z.of_nat (length l) + bytes_to_Z l).
  { intros x' l'. unfold bytes_to_Z at 1. cbn [fold_left]. rewrite fold_shift. lia. }
  rewrite !Hb, <- Hl. pose proof (be_range l1 H1'). pose proof (be_range l2 H2').
  rewrite <- Hl in *. set (B := 256 ^ Z.of_nat (length l1)) in *.
  cbn [bytesCompare]. destruct (Z.ltb_spec x y).
  - replace (x * B + bytes_to_Z l1 ?= y * B + bytes_to_Z l2) with Lt; [reflexivity|].
    symmetry. apply Z.compare_lt_iff. nia.
  - destruct (Z.ltb_spec y x).
    + replace (x * B + bytes_to_Z l1 ?= y * B + bytes_to_Z l2) with Gt; [reflexivity|].
      symmetry. apply Z.compare_gt_iff. nia.
    + assert (x = y) by lia. subst y. rewrite IH by assumption.
      f_equal. destruct (Z.compare_spec (bytes_to_Z l1) (bytes_to_Z l2));
        symmetry; [apply Z.compare_eq_iff | apply Z.compare_lt_iff | apply Z.compare_gt_iff]; lia.
Qed.

Lemma byte_at_pair (v : Z) (k : nat) : (k < 8)%nat ->
  byte_at v (2 * Z.of_nat k) = Z.land (Z.shiftr (v6u16 v k) 8) 255 /\
  byte_at v (2 * Z.of_nat k + 1) = Z.land (v6u16 v k) 255.
Proof.
  intros Hk. unfold byte_at, v6u16. change 255 with (Z.ones 8). change 65535 with (Z.ones 16).
  split.
  - rewrite Z.shiftr_land. change (Z.shiftr (Z.ones 16) 8) with (Z.ones 8).
    rewrite <- Z.land_assoc, Z.land_diag, Z.shiftr_shiftr by lia. do 2 f_equal. lia.
  - rewrite <- Z.land_assoc. change (Z.land (Z.ones 16) (Z.ones 8)) with (Z.ones 8).
    do 2 f_equal. lia.
Qed.

Lemma map_flat_map_ext {A B C} (f : B -> C) (g : A -> list B) (h : A -> list C) (l : list A) :
  (forall k, In k l -> map f (g k) = h k) -> map f (flat_map g l) = flat_map h l.
Proof.
  induction l as [|k l IH]; intros H; [reflexivity|]. cbn [flat_map].
  rewrite map_app, (H k (or_introl eq_refl)), IH; [reflexivity|].
  intros k' Hk'. apply H. right. exact Hk'.
Qed.

Lemma ip_bytes_gbytes (v : Z) : ip_bytes (Some v) = gbytes v (seq 0 8).
Proof.
  unfold ip_bytes.
  change (map Z.of_nat (seq 0 16)) with
    (flat_map (fun k => [2 * Z.of_nat k; 2 * Z.of_nat k + 1]) (seq 0 8)).
  unfold gbytes. apply map_flat_map_ext.
  intros k Hk. apply in_seq in Hk. destruct (byte_at_pair v k ltac:(lia)) as [H1 H2].
  cbn [map]. rewrite H1, H2. reflexivity.
Qed.

Lemma gbytes_bytes (v : Z) (ks : list nat) : Forall byte_ok (gbytes v ks).
Proof.
  induction ks as [|k ks IH]; [constructor|].
  rewrite gbytes_cons. apply Forall_app. split; [|exact IH].
  unfold gbytes. cbn [flat_map app].
  constructor; [apply land_255|]. constructor; [apply land_255|constructor].
Qed.

Lemma ip_bytes_some (v : Z) :
  0 <= v < two128 ->
  length (ip_bytes (Some v)) = 16%nat /\ Forall byte_ok (ip_bytes (Some v)) /\
  bytes_to_Z (ip_bytes (Some v)) = v.
Proof.
  intros Hv. rewrite ip_bytes_gbytes. split; [rewrite length_gbytes; reflexivity|].
  split; [apply gbytes_bytes|]. apply bytes_groups, Hv.
Qed.

(** X11: [Compare] compares the [ip] slices with [bytesCompare]: on
    Addresses built by the package (valid or zero) this is the numeric
    order of the 128-bit values, with the zero Address (empty slice) below
    every other Address. *)
Theorem bytesCompare_Compare (a b : Address) :
  addr_ok a = true -> addr_ok b = true ->
  bytesCompare (ip_bytes a) (ip_bytes b) = int_of_cmp (Compare a b).
Proof.
  intros Ha Hb.
  destruct a as [x|], b as [y|]; try reflexivity.
  apply valid_address_inv in Ha as [Hx _]. apply valid_address_inv in Hb as [Hy _].
  destruct (ip_bytes_some x Hx) as (Lx & Fx & Bx).
  destruct (ip_bytes_some y Hy) as (Ly & Fy & By).
  rewrite bytesCompare_be by (congruence || assumption). rewrite Bx, By. reflexivity.
Qed.

Lemma bytesCompare_Compare_witness :
  (addr_ok (Some 300) = true /\ addr_ok (Some 5) = true) /\
  bytesCompare (ip_bytes (Some 300)) (ip_bytes (Some 5)) = 1.
Proof.
  split; [split; reflexivity|].
  rewrite (bytesCompare_Compare (Some 300) (Some 5) eq_refl eq_refl). reflexivity.
Defined.

(** X12: [UnmarshalText] inverts [MarshalText] on every valid address,
    whatever the receiver held before; [MarshalText] of the zero Address is
    ["<nil>"], which [UnmarshalText] rejects with [ErrInvalidAddress],
    leaving the receiver unchanged. *)
Theorem MarshalText_roundtrip (v : Z) (r : Address) :
  valid_address (Some v) = true ->
  snd (MarshalText (Some v)) = None /\
  UnmarshalText r (fst (MarshalText (Some v))) = (Some v, None) /\
  MarshalText None = (lit "<nil>", None) /\
  UnmarshalText r (fst (MarshalText None)) = (r, Some ErrInvalidAddress).
Proof.
  intros Hv. apply valid_address_inv in Hv as [Hv Hm].
  split; [reflexivity|]. split.
  - unfold UnmarshalText, MarshalText. cbn [fst]. rewrite Parse_String_roundtrip by assumption.
    reflexivity.
  - split; reflexivity.
Qed.

Lemma MarshalText_roundtrip_witness :
  valid_address (Some 1) = true /\
  UnmarshalText None (fst (MarshalText (Some 1))) = (Some 1, None).
Proof.
  split; [reflexivity|]. apply (MarshalText_roundtrip 1 None eq_refl).
Defined.

(** * Parsing: what is rejected *)

Lemma mapped_prefix_value (f : list Z) :
  length f = 4%nat -> Forall byte_ok f ->
  is_v4mapped (bytes_to_Z ([0; 0; 0; 0; 0; 0; 0; 0; 0; 0; 255; 255] ++ f)) = true.
Proof.
  intros Hl Hf. unfold bytes_to_Z. rewrite fold_left_app.
  rewrite fold_shift, Hl. pose proof (be_range f Hf) as R. rewrite Hl in R.
  cbn [fold_left]. change (Z.of_nat 4) with 4 in *. unfold is_v4mapped.
  apply Z.eqb_eq. rewrite Z.shiftr_div_pow2 by lia. change (2 ^ 32) with 4294967296.
  change (256 ^ 4) with 4294967296 in *.
  symmetry. apply Z.div_unique with (bytes_to_Z f); [left; lia | lia].
Qed.

(** X13: [Parse] never returns an Address for dotted IPv4 text: when the
    first ['.'], [':'] or ['%'] of the trimmed input is a ['.'] (the form
    [netip.ParseAddr] reads as IPv4), [Parse] fails with
    [ErrInvalidAddress], whether or not the text is a well-formed IPv4
    address, because its 16-byte form is IPv4-mapped. *)
Theorem Parse_rejects_ipv4 (s : str) :
  addr_kind (TrimSpace s) = Some "."%char -> Parse s = (None, Some ErrInvalidAddress).
Proof.
  intros Hk. unfold Parse, ParseIP, ParseAddr. rewrite Hk. cbv beta iota.
  change (Ascii.eqb "." ".") with true. cbv iota. unfold parseIPv4.
  destruct (parseIPv4Fields (TrimSpace s)) as [f|] eqn:Ef; [|reflexivity].
  cbn [option_map Zone is_nil As16]. destruct (parseIPv4Fields_inv _ f Ef) as [Hl Hf].
  unfold NewAddress. rewrite mapped_prefix_value by assumption. reflexivity.
Qed.

Lemma Parse_rejects_ipv4_witness :
  addr_kind (TrimSpace (lit " 192.0.2.1")) = Some "."%char /\
  Parse (lit " 192.0.2.1") = (None, Some ErrInvalidAddress).
Proof.
  split; [vm_compute; reflexivity|]. apply Parse_rejects_ipv4. vm_compute. reflexivity.
Defined.

(** * Expanded forms *)

Lemma fmt_hex_lt (f : nat) (u : Z) : u < 16 -> fmt_hex (S f) u = [digit_at u].
Proof. intros H. cbn [fmt_hex]. replace (16 <=? u) with false by (symmetry; apply Z.leb_gt; lia). reflexivity. Qed.

Lemma fmt_hex_ge (f : nat) (u : Z) : 16 <= u ->
  fmt_hex (S f) u = fmt_hex f (u / 16) ++ [digit_at (u mod 16)].
Proof. intros H. cbn [fmt_hex]. replace (16 <=? u) with true by (symmetry; apply Z.leb_le; lia). reflexivity. Qed.

Lemma Sprintf04x_digits (g : Z) : 0 <= g < 65536 ->
  Sprintf04x g = [digit_at (g / 4096); digit_at (g / 256 mod 16);
                  digit_at (g / 16 mod 16); digit_at (g mod 16)].
Proof.
  intros Hg. unfold Sprintf04x.
  assert (D1 : g / 16 / 16 = g / 256) by (rewrite Z.div_div by lia; reflexivity).
  assert (D2 : g / 256 / 16 = g / 4096) by (rewrite Z.div_div by lia; reflexivity).
  pose proof (Z.div_mod g 16 ltac:(lia)). pose proof (Z.mod_pos_bound g 16 ltac:(lia)).
  pose proof (Z.div_mod g 256 ltac:(lia)). pose proof (Z.mod_pos_bound g 256 ltac:(lia)).
  pose proof (Z.div_mod g 4096 ltac:(lia)). pose proof (Z.mod_pos_bound g 4096 ltac:(lia)).
  destruct (Z.lt_ge_cases g 16) as [L1|L1].
  - rewrite fmt_hex_lt by lia. cbn [length repeat app Nat.sub].
    rewrite (Z.div_small g 4096), (Z.div_small g 256), (Z.div_small g 16), (Z.mod_small g 16) by lia.
    reflexivity.
  - rewrite fmt_hex_ge by lia.
    destruct (Z.lt_ge_cases (g / 16) 16) as [L2|L2].
    + rewrite fmt_hex_lt by lia. cbn [length repeat app Nat.sub].
      rewrite (Z.mod_small (g / 16)) by lia.
      rewrite (Z.div_small g 4096), (Z.div_small g 256) by lia.
      reflexivity.
    + rewrite fmt_hex_ge by lia. rewrite D1.
      destruct (Z.lt_ge_cases (g / 256) 16) as [L3|L3].
      * rewrite fmt_hex_lt by lia. cbn [length repeat app Nat.sub].
        rewrite (Z.mod_small (g / 256)) by lia.
        rewrite (Z.div_small g 4096) by lia.
        reflexivity.
      * rewrite fmt_hex_ge by lia. rewrite D2.
        rewrite fmt_hex_lt by lia. reflexivity.
Qed.

Lemma nibs_value (g : Z) : 0 <= g < 65536 ->
  ((g / 4096 * 16 + g / 256 mod 16) * 16 + g / 16 mod 16) * 16 + g mod 16 = g.
Proof.
  intros Hg.
  assert (D1 : g / 16 / 16 = g / 256) by (rewrite Z.div_div by lia; reflexivity).
  assert (D2 : g / 256 / 16 = g / 4096) by (rewrite Z.div_div by lia; reflexivity).
  pose proof (Z.div_mod g 16 ltac:(lia)). pose proof (Z.div_mod (g / 16) 16 ltac:(lia)).
  pose proof (Z.div_mod (g / 256) 16 ltac:(lia)). rewrite D1 in *. rewrite D2 in *. lia.
Qed.

Lemma nibs_range (g : Z) : 0 <= g < 65536 -> Forall (fun d => 0 <= d < 16) (nibs g).
Proof.
  intros Hg. unfold nibs.
  assert (0 <= g / 4096 < 16) by (split; [apply Z.div_pos|apply Z.div_lt_upper_bound]; lia).
  repeat constructor; try lia; apply Z.mod_pos_bound; lia.
Qed.

Section HexJoin.
Variable v : Z.
Variable h : Z -> ascii.
Hypothesis Hh : forall d, 0 <= d < 16 -> hex_val (h d) = Some d.

Lemma hgroup_scan (k : nat) (r : str) :
  (r = [] \/ exists t, r = ":"%char :: t) ->
  hex_scan (hgroup h v k ++ r) 0 0 = Some (4, v6u16 v k, r).
Proof.
  intros Hr. pose proof (v6u16_range v k) as Hg. pose proof (nibs_range _ Hg) as Hn.
  pose proof (nibs_value _ Hg) as Hv.
  unfold hgroup, nibs in *. set (g := v6u16 v k) in *.
  inversion Hn as [|? ? A1 Hn1]; inversion Hn1 as [|? ? A2 Hn2];
  inversion Hn2 as [|? ? A3 Hn3]; inversion Hn3 as [|? ? A4 _]; subst.
  cbn [map app hex_scan]. rewrite (Hh _ A1), (Hh _ A2), (Hh _ A3), (Hh _ A4). cbv zeta.
  change (3 <? 0) with false. change (3 <? 0 + 1) with false.
  change (3 <? 0 + 1 + 1) with false. change (3 <? 0 + 1 + 1 + 1) with false.
  change (0 + 1 + 1 + 1 + 1) with 4.
  replace (65535 <? 0 * 16 + g / 4096) with false by (symmetry; apply Z.ltb_ge; lia).
  replace (65535 <? (0 * 16 + g / 4096) * 16 + g / 256 mod 16) with false
    by (symmetry; apply Z.ltb_ge; lia).
  replace (65535 <? ((0 * 16 + g / 4096) * 16 + g / 256 mod 16) * 16 + g / 16 mod 16) with false
    by (symmetry; apply Z.ltb_ge; lia).
  replace ((((0 * 16 + g / 4096) * 16 + g / 256 mod 16) * 16 + g / 16 mod 16) * 16 + g mod 16)
    with g by lia.
  replace (65535 <? g) with false by (symmetry; apply Z.ltb_ge; lia).
  destruct Hr as [->|[t ->]]; reflexivity.
Qed.

Lemma hgroup_hexdig (k : nat) : forallb hexdig (hgroup h v k) = true.
Proof.
  pose proof (nibs_range _ (v6u16_range v k)) as Hn. unfold hgroup.
  induction Hn as [|d l Hd _ IH]; [reflexivity|]. cbn [map forallb].
  unfold hexdig at 1. rewrite (Hh _ Hd). exact IH.
Qed.

Lemma hgroup_head (k : nat) : exists c t, hgroup h v k = c :: t /\ hexdig c = true.
Proof.
  pose proof (hgroup_hexdig k) as H. unfold hgroup in *. cbn [nibs map] in *.
  eexists _, _. split; [reflexivity|]. cbn [forallb] in H. apply andb_true_iff in H. tauto.
Qed.

Lemma hbody_last (k : nat) (ip : list Z) (e : Z) :
  v6_body (hgroup h v k) ip e = Some (Break6 [] (ip ++ gbytes v [k]) e).
Proof.
  pose proof (hgroup_scan k [] (or_introl eq_refl)) as Hs.
  rewrite app_nil_r in Hs. unfold v6_body. rewrite Hs. reflexivity.
Qed.

Lemma hbody_sep (k k' : nat) (t : str) (ip : list Z) (e : Z) :
  v6_body (hgroup h v k ++ ":"%char :: hgroup h v k' ++ t) ip e =
  Some (Cont6 (hgroup h v k' ++ t) (ip ++ gbytes v [k]) e).
Proof.
  pose proof (hgroup_scan k (":"%char :: hgroup h v k' ++ t) (or_intror (ex_intro _ _ eq_refl))) as Hs.
  unfold v6_body. rewrite Hs.
  destruct (hgroup_head k') as [c [t' [Hh' Hc]]]. rewrite Hh'. cbn [app starts_with].
  change (Ascii.eqb ":" ".") with false. change (Ascii.eqb ":" ":") with true.
  cbv beta iota. change (4 =? 0) with false. cbv iota.
  rewrite (hexdig_not_colon c Hc). reflexivity.
Qed.

Lemma join_cons2 (x y : str) (l : list str) (sep : str) :
  join sep (x :: y :: l) = x ++ sep ++ join sep (y :: l).
Proof. reflexivity. Qed.

Lemma join_head (k : nat) (ks : list nat) :
  exists t, join [":"%char] (map (hgroup h v) (k :: ks)) = hgroup h v k ++ t.
Proof.
  destruct ks as [|k' ks].
  - exists []. rewrite app_nil_r. reflexivity.
  - eexists. cbn [map]. rewrite join_cons2. reflexivity.
Qed.

Lemma hloop (ks : list nat) : forall (ip : list Z) (e : Z) (f : nat),
  ks <> [] -> (length ks <= f)%nat -> (length ip + 2 * length ks <= 16)%nat ->
  v6_loop f (join [":"%char] (map (hgroup h v) ks)) ip e = Some ([], ip ++ gbytes v ks, e).
Proof.
  induction ks as [|k ks IH]; intros ip e f Hne Hf Hl; [congruence|].
  destruct f as [|f]; [cbn in Hf; lia|]. cbn [length] in Hf, Hl.
  cbn [v6_loop]. replace (Z.of_nat (length ip) <? 16) with true by (symmetry; apply Z.ltb_lt; lia).
  destruct ks as [|k' ks].
  - cbn [map join]. rewrite hbody_last. reflexivity.
  - cbn [map]. rewrite join_cons2. destruct (join_head k' ks) as [t Ht].
    cbn [map] in Ht. rewrite Ht. cbn [app]. rewrite hbody_sep. rewrite <- Ht.
    change (hgroup h v k' :: map (hgroup h v) ks) with (map (hgroup h v) (k' :: ks)).
    rewrite IH by (try discriminate; rewrite ?length_app, ?length_gbytes; cbn [length] in *; lia).
    rewrite <- app_assoc, <- gbytes_cons. reflexivity.
Qed.

Lemma join_hexcolon (ks : list nat) : forallb hexcolon (join [":"%char] (map (hgroup h v) ks)) = true.
Proof.
  assert (Hg : forall k, forallb hexcolon (hgroup h v k) = true)
    by (intros k; apply forallb_hexdig_colon, hgroup_hexdig).
  induction ks as [|k ks IH]; [reflexivity|].
  destruct ks as [|k' ks]; [apply Hg|].
  cbn [map] in *. rewrite join_cons2, !forallb_app, Hg, IH. reflexivity.
Qed.

Lemma Parse_join : 0 <= v < two128 -> is_v4mapped v = false ->
  Parse (join [":"%char] (map (hgroup h v) (seq 0 8))) = (Some v, None).
Proof.
  intros Hv Hm.
  pose proof (join_hexcolon (seq 0 8)) as Hall.
  assert (Hsplit : join [":"%char] (map (hgroup h v) (seq 0 8)) =
                   hgroup h v 0 ++ ":"%char :: join [":"%char] (map (hgroup h v) (seq 1 7)))
    by reflexivity.
  destruct (hgroup_head 0) as [c [t [Hh0 Hc]]].
  assert (Hne : join [":"%char] (map (hgroup h v) (seq 0 8)) <> []) by (rewrite Hsplit, Hh0; discriminate).
  assert (Hex : existsb (fun c => Ascii.eqb c ":") (join [":"%char] (map (hgroup h v) (seq 0 8))) = true)
    by (rewrite Hsplit, existsb_app; cbn [existsb]; rewrite orb_true_r; reflexivity).
  unfold Parse. rewrite (trim_hexcolon _ Hne Hall).
  unfold ParseIP, ParseAddr. rewrite (addr_kind_hexcolon _ Hall), Hex.
  change (Ascii.eqb ":" ".") with false. change (Ascii.eqb ":" ":") with true.
  cbv iota. rewrite parseIPv6_plain.
  - unfold parseIPv6_tail. rewrite hloop by (cbn; lia || discriminate).
    cbn [option_map Zone is_nil As16 negb app].
    rewrite length_gbytes, length_seq. cbn [Nat.ltb Nat.leb Nat.mul Nat.add].
    change (0 <=? -1) with false. cbv iota.
    cbn [option_map Zone is_nil As16]. rewrite (bytes_groups v Hv). unfold NewAddress. rewrite Hm. reflexivity.
  - apply index_hexcolon, Hall.
  - intros c' t' Ht. rewrite Hsplit, Hh0 in Ht. cbn [app] in Ht.
    injection Ht as <- _. exact Hc.
Qed.


End HexJoin.

Lemma digit_is_ascii (x : Z) : is_ascii (digit_at x) = true.
Proof.
  unfold digit_at. destruct (nth_in_or_default (Z.to_nat x) digits "0"%char) as [H|E]; [|rewrite E; reflexivity].
  revert H. generalize (nth (Z.to_nat x) digits "0"%char) as y. intros y H.
  cbn in H. repeat destruct H as [<-|H]; try reflexivity. destruct H.
Qed.

Lemma upper_digit_hex (d : Z) : 0 <= d < 16 -> hex_val (upper (digit_at d)) = Some d.
Proof.
  intros Hd.
  assert (d = 0 \/ d = 1 \/ d = 2 \/ d = 3 \/ d = 4 \/ d = 5 \/ d = 6 \/ d = 7 \/
          d = 8 \/ d = 9 \/ d = 10 \/ d = 11 \/ d = 12 \/ d = 13 \/ d = 14 \/ d = 15) as Hc by lia.
  repeat destruct Hc as [->|Hc]; [reflexivity ..|subst; reflexivity].
Qed.

Lemma map_join (f : ascii -> ascii) (c : ascii) (l : list str) :
  map f (join [c] l) = join [f c] (map (map f) l).
Proof.
  induction l as [|x l IH]; [reflexivity|]. destruct l as [|y l]; [reflexivity|].
  rewrite join_cons2, !map_app, IH. reflexivity.
Qed.

Lemma forallb_join (p : ascii -> bool) (c : ascii) (l : list str) :
  p c = true -> Forall (fun x => forallb p x = true) l -> forallb p (join [c] l) = true.
Proof.
  intros Hc Hl. induction Hl as [|x l Hx Hl IH]; [reflexivity|].
  destruct l as [|y l]; [exact Hx|]. rewrite join_cons2, !forallb_app, Hx. cbn [forallb andb]. rewrite Hc. exact IH.
Qed.

Lemma Expanded_some (v : Z) :
  Expanded (Some v) = ret (join [":"%char] (map (hgroup digit_at v) (seq 0 8))).
Proof.
  unfold Expanded. f_equal. f_equal. apply map_ext_in. intros k Hk.
  apply in_seq in Hk. destruct (byte_at_pair v k ltac:(lia)) as [B1 B2].
  rewrite B1, B2, lor_shiftl_low by (try lia; change 255 with (Z.ones 8); rewrite Z.land_ones by lia;
    apply Z.mod_pos_bound; reflexivity).
  change (2 ^ 8) with 256. rewrite group_bytes by apply v6u16_range.
  rewrite Sprintf04x_digits by apply v6u16_range. reflexivity.
Qed.

Lemma ToUpper_join (v : Z) :
  ToUpper (join [":"%char] (map (hgroup digit_at v) (seq 0 8))) =
  Some (join [":"%char] (map (hgroup (fun d => upper (digit_at d)) v) (seq 0 8))).
Proof.
  unfold ToUpper. rewrite forallb_join; [|reflexivity|].
  - rewrite map_join, map_map. reflexivity.
  - apply Forall_forall. intros x Hx. apply in_map_iff in Hx as [k [<- _]].
    apply forallb_forall. intros c Hc. unfold hgroup in Hc. apply in_map_iff in Hc as [d [<- _]]. apply digit_is_ascii.
Qed.



(** X15: [ExpandedUpper] never panics where [Expanded] does not: it is
    [Expanded] with every letter upper-cased ([Expanded]'s output is
    ASCII), and for a valid address [Parse] maps that string back to the
    same address. *)
Lemma ExpandedUpper_upper (a : Address) :
  ExpandedUpper a = option_map (map upper) (Expanded a) /\
  (valid_address a = true -> exists s, ExpandedUpper a = ret s /\ Parse s = (a, None)).
Proof.
  destruct a as [v|]; [|split; [reflexivity|discriminate]].
  unfold ExpandedUpper. rewrite Expanded_some. cbv [ret]. cbn beta iota.
  rewrite ToUpper_join. split.
  - cbn [option_map]. rewrite map_join, map_map. reflexivity.
  - intros Hv. apply valid_address_inv in Hv as [Hr Hm]. eexists. split; [reflexivity|].
    apply Parse_join; [apply upper_digit_hex|assumption|assumption].
Qed.

Lemma ExpandedUpper_upper_witness :
  valid_address (Some 42540766411282592856903984951653826561) = true /\
  exists s, ExpandedUpper (Some 42540766411282592856903984951653826561) = ret s /\
            Parse s = (Some 42540766411282592856903984951653826561, None).
Proof.
  split; [vm_compute; reflexivity|].
  apply (proj2 (ExpandedUpper_upper (Some 42540766411282592856903984951653826561))).
  vm_compute. reflexivity.
Defined.

(** * Reverse DNS name *)

Lemma byte_hi (v n : Z) : 0 <= n -> Z.shiftr (Z.land (Z.shiftr v n) 255) 4 = Z.land (Z.shiftr v (n + 4)) 15.
Proof.
  intros Hn. apply Z.bits_inj'. intros m Hm.
  change 255 with (Z.ones 8). change 15 with (Z.ones 4).
  rewrite Z.shiftr_spec, !Z.land_spec, !Z.shiftr_spec, !Z.testbit_ones by lia.
  replace (m + 4 + n) with (m + (n + 4)) by lia.
  destruct (m <? 4) eqn:E; [apply Z.ltb_lt in E|apply Z.ltb_ge in E].
  - replace (m + 4 <? 8) with true by (symmetry; apply Z.ltb_lt; lia).
    replace (0 <=? m + 4) with true by (symmetry; apply Z.leb_le; lia).
    replace (0 <=? m) with true by (symmetry; apply Z.leb_le; lia). reflexivity.
  - replace (m + 4 <? 8) with false by (symmetry; apply Z.ltb_ge; lia).
    rewrite !andb_false_r. reflexivity.
Qed.

Lemma byte_lo (v n : Z) : Z.land (Z.land (Z.shiftr v n) 255) 15 = Z.land (Z.shiftr v n) 15.
Proof. rewrite <- Z.land_assoc. reflexivity. Qed.

Lemma rev_flat_map {A B : Type} (f : A -> list B) (l : list A) :
  rev (flat_map f l) = flat_map (fun x => rev (f x)) (rev l).
Proof.
  induction l as [|x l IH]; [reflexivity|]. cbn [flat_map rev].
  rewrite rev_app_distr, IH, flat_map_app. cbn [flat_map]. rewrite app_nil_r. reflexivity.
Qed.

Lemma EncodeToString_ip (v : Z) :
  EncodeToString (ip_bytes (Some v)) =
  flat_map (fun i => [digit_at (nib v (2 * (15 - i) + 1)); digit_at (nib v (2 * (15 - i)))]) (seq 0 16).
Proof.
  unfold EncodeToString, ip_bytes. rewrite map_map, !flat_map_concat_map, map_map.
  f_equal. apply map_ext_in. intros i Hi. apply in_seq in Hi. unfold byte_at, nib.
  rewrite byte_hi, byte_lo by lia. do 4 f_equal; [lia|f_equal; lia].
Qed.

(** X16: [ReverseDNS] lists the 32 nibbles of the address from the least
    significant one up, each as a lower-case digit followed by ['.'], and
    ends in ["ip6.arpa."]; for the nil address it is just ["ip6.arpa."]. *)
Lemma ReverseDNS_nibbles (v : Z) :
  ReverseDNS (Some v) =
  flat_map (fun k => [digit_at (nib v k); "."%char]) (seq 0 32) ++ lit "ip6.arpa." /\
  ReverseDNS None = lit "ip6.arpa.".
Proof.
  split; [|reflexivity]. unfold ReverseDNS. rewrite EncodeToString_ip, rev_flat_map. reflexivity.
Qed.

(** * Text form of a network *)

Lemma prefix_ok_all (p : Z) : 0 <= p <= 128 -> prefix_ok p = true.
Proof.
  intros Hp.
  assert (H : forallb (fun n => prefix_ok (Z.of_nat n)) (seq 0 129) = true) by (vm_compute; reflexivity).
  rewrite forallb_forall in H. specialize (H (Z.to_nat p)).
  rewrite Z2Nat.id in H by lia. apply H, in_seq. lia.
Qed.

Lemma prefix_ok_inv (p : Z) : prefix_ok p = true ->
  parsePrefix (Sprintf_d p) = (p, None) /\ Sprintf_d p <> [] /\
  forallb plain (Sprintf_d p) = true /\ forallb noslash (Sprintf_d p) = true.
Proof.
  unfold prefix_ok. intros H. apply andb_true_iff in H as [H H4].
  apply andb_true_iff in H as [H H3]. apply andb_true_iff in H as [H1 H2].
  split; [|split; [|split; assumption]].
  - destruct (parsePrefix (Sprintf_d p)) as [x [e|]]; [discriminate|].
    apply Z.eqb_eq in H1. subst. reflexivity.
  - destruct (Sprintf_d p); [discriminate|]. discriminate.
Qed.

Lemma trim_plain (s : str) : s <> [] -> forallb plain s = true -> TrimSpace s = s.
Proof.
  intros Hne Hall. unfold TrimSpace.
  assert (Hp : forall c, In c s -> (128 <=? code c) = false /\ asciiSpace c = false).
  { intros c Hc. rewrite forallb_forall in Hall. specialize (Hall c Hc).
    unfold plain in Hall. apply andb_true_iff in Hall as [H1 H2].
    apply Z.ltb_lt in H1. apply negb_true_iff in H2. split; [apply Z.leb_gt; lia|exact H2]. }
  destruct s as [|c t]; [congruence|]. cbn [trim_space_start].
  destruct (Hp c (or_introl eq_refl)) as [H1 H2]. rewrite H1, H2.
  destruct (rev (c :: t)) as [|d r] eqn:Er.
  - apply (f_equal (@length ascii)) in Er. rewrite length_rev in Er. discriminate.
  - assert (Hd : In d (c :: t)) by (apply in_rev; rewrite Er; left; reflexivity).
    destruct (Hp d Hd) as [H3 H4]. cbn [trim_space_stop]. rewrite H3, H4.
    rewrite <- Er, rev_involutive. reflexivity.
Qed.

Lemma hexcolon_plain (c : ascii) : hexcolon c = true -> plain c = true /\ noslash c = true.
Proof.
  intros H. destruct (hexcolon_ascii c H) as [H1 [H2 _]]. unfold plain, noslash.
  rewrite H2. apply Z.leb_gt in H1. rewrite (proj2 (Z.ltb_lt _ _) H1).
  destruct (Ascii.eqb_spec c "/") as [->|]; [vm_compute in H; discriminate|split; reflexivity].
Qed.

Lemma split_noslash (s : str) : forallb noslash s = true -> split_slash s = [s].
Proof.
  induction s as [|c t IH]; intros H; [reflexivity|].
  cbn [forallb] in H. apply andb_true_iff in H as [Hc Ht]. unfold noslash in Hc.
  apply negb_true_iff in Hc. cbn [split_slash]. rewrite Hc, IH by exact Ht. reflexivity.
Qed.

Lemma split_at_slash (a b : str) : forallb noslash a = true ->
  split_slash (a ++ "/"%char :: b) = a :: split_slash b.
Proof.
  induction a as [|c t IH]; intros H; [reflexivity|].
  cbn [forallb] in H. apply andb_true_iff in H as [Hc Ht]. unfold noslash in Hc.
  apply negb_true_iff in Hc. cbn [split_slash app]. rewrite Hc, IH by exact Ht. reflexivity.
Qed.

(** X17: [ParseCIDR] reads back what [CIDR.String] prints: for a valid
    network [c], [ParseCIDR(c.String())] returns [c] and no error. *)
Lemma CIDR_String_roundtrip (c : CIDR) : valid_cidr c = true ->
  ParseCIDR (CIDR_String c) = ret (c, None).
Proof.
  intros Hc. destruct (valid_cidr_inv c Hc) as [v [Hb [Hr [Hm [Hp Ha]]]]].
  destruct c as [b p]. cbn [base plen] in *. subst b.
  destruct (prefix_ok_inv p (prefix_ok_all p Hp)) as [Pp [Pne [Ppl Pns]]].
  destruct (string6_parse v Hr) as [_ [Hne [Hall _]]].
  assert (A1 : forallb plain (string6 v) = true /\ forallb noslash (string6 v) = true).
  { rewrite !forallb_forall in *. split; intros x Hx; apply hexcolon_plain, Hall, Hx. }
  destruct A1 as [A1 A2].
  pose proof (Parse_String_roundtrip v Hr Hm) as HP. unfold Address_String in HP. rewrite Hm in HP.
  unfold CIDR_String, ParseCIDR. cbn [base plen]. unfold Address_String. rewrite Hm.
  rewrite trim_plain.
  - rewrite split_at_slash, split_noslash by assumption. rewrite HP, Pp.
    apply NewCIDR_aligned; assumption.
  - destruct (string6 v); [congruence|discriminate].
  - rewrite forallb_app, A1. cbn [forallb]. rewrite Ppl. reflexivity.
Qed.

Lemma CIDR_String_roundtrip_witness :
  valid_cidr (mkCIDR (Some 42540766411282592856903984951653826560) 32) = true /\
  ParseCIDR (CIDR_String (mkCIDR (Some 42540766411282592856903984951653826560) 32)) =
  ret (mkCIDR (Some 42540766411282592856903984951653826560) 32, None).
Proof.
  split; [vm_compute; reflexivity|].
  apply CIDR_String_roundtrip. vm_compute. reflexivity.
Defined.

(** * Supernet coverage *)

Lemma equal_high_bits_spec (x y : Z) (b : nat) :
  0 <= equal_high_bits x y b <= Z.of_nat b + 1 /\
  forall j, Z.of_nat b + 1 - equal_high_bits x y b <= j <= Z.of_nat b ->
            Z.testbit x j = Z.testbit y j.
Proof.
  induction b as [|b IH].
  - cbn [equal_high_bits]. destruct (Bool.eqb (Z.testbit x (Z.of_nat 0)) (Z.testbit y (Z.of_nat 0))) eqn:E.
    + apply Bool.eqb_prop in E. split; [lia|]. intros j Hj. replace j with (Z.of_nat 0) by lia. exact E.
    + split; [lia|]. intros j Hj. lia.
  - cbn [equal_high_bits]. destruct (Bool.eqb (Z.testbit x (Z.of_nat (S b))) (Z.testbit y (Z.of_nat (S b)))) eqn:E.
    + apply Bool.eqb_prop in E. destruct IH as [R IH]. split; [lia|].
      intros j Hj. destruct (Z.eq_dec j (Z.of_nat (S b))) as [->|Hne]; [exact E|].
      apply IH. lia.
    + split; [lia|]. intros j Hj. lia.
Qed.

Lemma byte_at_testbit (v i j : Z) : 0 <= i <= 15 -> 0 <= j < 8 ->
  Z.testbit (byte_at v i) j = Z.testbit v (8 * (15 - i) + j).
Proof.
  intros Hi Hj. unfold byte_at. change 255 with (Z.ones 8).
  rewrite Z.land_spec, Z.testbit_ones, Z.shiftr_spec by lia.
  replace ((0 <=? j) && (j <? 8)) with true by (symmetry; apply andb_true_iff; split; [apply Z.leb_le|apply Z.ltb_lt]; lia).
  rewrite andb_true_r. f_equal. lia.
Qed.

Lemma common_prefix_spec (mb xb : Z) (n : nat) : forall i, (i + n = 16)%nat ->
  0 <= common_prefix_from mb xb i n <= 8 * Z.of_nat n /\
  forall j, 128 - 8 * Z.of_nat i - common_prefix_from mb xb i n <= j < 128 - 8 * Z.of_nat i ->
            Z.testbit mb j = Z.testbit xb j.
Proof.
  induction n as [|n IH]; intros i Hi.
  - cbn [common_prefix_from]. split; [lia|]. intros j Hj. lia.
  - cbn [common_prefix_from].
    assert (Hbits : forall j, 0 <= j < 8 ->
      Z.testbit (byte_at mb (Z.of_nat i)) j = Z.testbit (byte_at xb (Z.of_nat i)) j ->
      Z.testbit mb (8 * (15 - Z.of_nat i) + j) = Z.testbit xb (8 * (15 - Z.of_nat i) + j)).
    { intros j Hj. rewrite !byte_at_testbit by lia. auto. }
    destruct (byte_at mb (Z.of_nat i) =? byte_at xb (Z.of_nat i)) eqn:E.
    + apply Z.eqb_eq in E. destruct (IH (S i) ltac:(lia)) as [R H]. split; [lia|].
      intros j Hj. destruct (Z.lt_ge_cases j (8 * (15 - Z.of_nat i))) as [Lt|Ge].
      * apply H. lia.
      * replace j with (8 * (15 - Z.of_nat i) + (j - 8 * (15 - Z.of_nat i))) by lia.
        apply Hbits; [lia|]. rewrite E. reflexivity.
    + destruct (equal_high_bits_spec (byte_at mb (Z.of_nat i)) (byte_at xb (Z.of_nat i)) 7) as [R H].
      split; [lia|]. intros j Hj.
      replace j with (8 * (15 - Z.of_nat i) + (j - 8 * (15 - Z.of_nat i))) by lia.
      apply Hbits; [lia|]. apply H. cbn [Z.of_nat Pos.of_succ_nat] in *. lia.
Qed.

Lemma testbit_high (v n : Z) : 0 <= v < two128 -> 128 <= n -> Z.testbit v n = false.
Proof.
  intros Hv Hn. apply Z.testbit_false; [lia|].
  rewrite Z.div_small; [reflexivity|]. split; [lia|].
  apply Z.lt_le_trans with two128; [lia|]. unfold two128. apply Z.pow_le_mono_r; lia.
Qed.

Lemma common_prefix_top (mb xb : Z) : 0 <= mb < two128 -> 0 <= xb < two128 ->
  0 <= common_prefix_from mb xb 0 16 <= 128 /\
  mb / 2 ^ (128 - common_prefix_from mb xb 0 16) = xb / 2 ^ (128 - common_prefix_from mb xb 0 16).
Proof.
  intros Hm Hx. destruct (common_prefix_spec mb xb 16 0 eq_refl) as [R H].
  set (p := common_prefix_from mb xb 0 16) in *. cbn [Z.of_nat Pos.of_succ_nat] in *.
  split; [lia|]. rewrite <- !Z.shiftr_div_pow2 by lia.
  apply Z.bits_inj'. intros m Hm0. rewrite !Z.shiftr_spec by lia.
  destruct (Z.lt_ge_cases (m + (128 - p)) 128).
  - apply H. lia.
  - rewrite !testbit_high by lia. reflexivity.
Qed.

Lemma last_ok_inv (c : CIDR) : last_ok c ->
  exists v, base c = Some v /\ valid_address (Some v) = true /\
    LastHost c = ret (Some (v + HostCount c - 1)) /\
    v <= v + HostCount c - 1 < two128.
Proof.
  intros [Hc Hm]. destruct (valid_cidr_last c Hc) as [HL [H0 [H1 H2]]].
  destruct (valid_cidr_inv c Hc) as (v & Hb & Hv & Hvm & Hp & Ha).
  rewrite Hb in *. cbn [BigInt] in *. exists v. split; [reflexivity|].
  split; [apply valid_address_intro; assumption|]. split; [|lia].
  rewrite HL. unfold NewAddress. rewrite Hm. reflexivity.
Qed.

Lemma supernet_scan_bounds (l : list CIDR) : forall m0 x0,
  valid_address (Some m0) = true -> 0 <= x0 < two128 -> Forall last_ok l ->
  exists m1 x1, supernet_scan l (Some m0) (Some x0) = ret (Some m1, Some x1) /\
    valid_address (Some m1) = true /\ 0 <= x1 < two128 /\ m1 <= m0 /\ x0 <= x1 /\
    Forall (fun c => m1 <= BigInt (base c) /\ BigInt (base c) + HostCount c - 1 <= x1) l.
Proof.
  induction l as [|c l IH]; intros m0 x0 Hm0 Hx0 Hf.
  - exists m0, x0. repeat split; try assumption; try lia. constructor.
  - inversion Hf as [|? ? Hc Hl]; subst.
    destruct (last_ok_inv c Hc) as (v & Hb & Hv & HL & Hr).
    cbn [supernet_scan]. unfold FirstHost. rewrite Hb, HL. cbv [ret]. cbn beta iota.
    assert (Emn : (match Compare (Some v) (Some m0) with Lt => Some v | _ => Some m0 end : Address) = Some (Z.min v m0))
      by (cbn [Compare]; destruct (Z.compare_spec v m0); f_equal; lia).
    assert (Emx : (match Compare (Some (v + HostCount c - 1)) (Some x0) with
                  | Gt => Some (v + HostCount c - 1) | _ => Some x0 end : Address) =
                  Some (Z.max (v + HostCount c - 1) x0))
      by (cbn [Compare]; destruct (Z.compare_spec (v + HostCount c - 1) x0); f_equal; lia).
    rewrite Emn, Emx.
    destruct (IH (Z.min v m0) (Z.max (v + HostCount c - 1) x0)) as (m1 & x1 & Hs & Hm1 & Hx1 & Le1 & Le2 & Hall).
    + destruct (Z.min_spec v m0) as [[_ ->]|[_ ->]]; assumption.
    + pose proof (valid_address_inv v Hv). lia.
    + exact Hl.
    + exists m1, x1. split; [exact Hs|]. split; [exact Hm1|]. split; [exact Hx1|].
      split; [lia|]. split; [lia|]. constructor; [|exact Hall].
      rewrite Hb. cbn [BigInt]. lia.
Qed.

(** X18: [Supernet] of a non-empty list of valid networks (each with a
    last address that is not IPv4-mapped) returns, without error, a valid
    network that contains every address of every network of the list. *)
Lemma Supernet_covers (l : list CIDR) :
  l <> [] -> Forall last_ok l ->
  exists s, Supernet l = ret (s, None) /\ valid_cidr s = true /\
    Forall (fun c => forall x, in_cidr c x -> in_cidr s x) l.
Proof.
  intros Hne Hf. destruct l as [|c0 rest]; [congruence|].
  inversion Hf as [|? ? Hc0 Hrest]; subst.
  destruct (last_ok_inv c0 Hc0) as (v0 & Hb0 & Hv0 & HL0 & Hr0).
  pose proof (valid_address_inv v0 Hv0) as [Hv0r _].
  destruct (supernet_scan_bounds rest v0 (v0 + HostCount c0 - 1) Hv0 ltac:(lia) Hrest)
    as (m1 & x1 & Hs & Hm1 & Hx1 & Le1 & Le2 & Hall).
  pose proof (valid_address_inv m1 Hm1) as [Hm1r Hm1m].
  destruct (common_prefix_top m1 x1 Hm1r Hx1) as [Hp Heq].
  set (p := common_prefix_from m1 x1 0 16) in *.
  set (b := Z.land m1 (maskTable p)).
  pose proof (land_maskTable m1 p Hm1r Hp) as Eb. fold b in Eb.
  pose proof (land_maskTable_range m1 p Hm1r Hp) as Rb. fold b in Rb.
  pose proof (mask_not_mapped m1 p Hm1r Hp Hm1m) as Mb. fold b in Mb.
  pose proof (pow_pos' (128 - p) ltac:(lia)) as Hh.
  assert (Ab : b mod 2 ^ (128 - p) = 0) by (rewrite Eb; apply Z.mod_mul; lia).
  exists (mkCIDR (Some b) p).
  unfold Supernet. rewrite HL0. cbv [ret]. cbn beta iota. unfold FirstHost. rewrite Hb0.
  rewrite Hs. cbv [ret]. cbn beta iota. fold p. rewrite Mask_valid by assumption. fold b. cbv [ret]. cbn beta iota.
  rewrite NewCIDR_aligned by (assumption || lia).
  split; [reflexivity|]. split; [apply valid_cidr_intro; (assumption || lia)|].
  assert (Key : forall x, m1 <= x <= x1 -> in_cidr (mkCIDR (Some b) p) x).
  { intros x Hx. unfold in_cidr. cbn [base BigInt]. rewrite HostCount_pow by (cbn [plen]; lia).
    cbn [plen]. apply (aligned_div_iff b (2 ^ (128 - p)) x Hh Ab ltac:(lia)).
    rewrite Eb. f_equal.
    pose proof (Z.div_le_mono m1 x (2 ^ (128 - p)) Hh ltac:(lia)).
    pose proof (Z.div_le_mono x x1 (2 ^ (128 - p)) Hh ltac:(lia)). lia. }
  constructor.
  - intros x Hx. apply Key. unfold in_cidr in Hx. rewrite Hb0 in Hx. cbn [BigInt] in Hx. lia.
  - rewrite Forall_forall in Hall |- *. intros c Hc x Hx. apply Key.
    destruct (Hall c Hc). unfold in_cidr in Hx. lia.
Qed.

Lemma Supernet_covers_witness :
  [mkCIDR (Some 42540766411282592856903984951653826560) 48;
   mkCIDR (Some 42540766411283801782723599580828532736) 48] <> [] /\
  Forall last_ok [mkCIDR (Some 42540766411282592856903984951653826560) 48;
                  mkCIDR (Some 42540766411283801782723599580828532736) 48] /\
  exists s, Supernet [mkCIDR (Some 42540766411282592856903984951653826560) 48;
                      mkCIDR (Some 42540766411283801782723599580828532736) 48] = ret (s, None) /\
    valid_cidr s = true /\
    Forall (fun c => forall x, in_cidr c x -> in_cidr s x)
      [mkCIDR (Some 42540766411282592856903984951653826560) 48;
       mkCIDR (Some 42540766411283801782723599580828532736) 48].
Proof.
  assert (Hf : Forall last_ok [mkCIDR (Some 42540766411282592856903984951653826560) 48;
                               mkCIDR (Some 42540766411283801782723599580828532736) 48]).
  { constructor; [split; vm_compute; reflexivity|].
    constructor; [split; vm_compute; reflexivity|constructor]. }
  split; [discriminate|]. split; [exact Hf|].
  apply Supernet_covers; [discriminate|exact Hf].
Defined.

(** * Prefix lengths, CIDR errors and white space *)

Lemma dec_mono (s : str) : forall a, 0 <= a -> forallb is_digit s = true -> a <= fold_left dec_step s a.
Proof.
  induction s as [|c r IH]; intros a Ha H; [cbn; lia|].
  cbn [forallb] in H. apply andb_true_iff in H as [Hc Hr].
  unfold is_digit in Hc. apply andb_true_iff in Hc as [Hc _]. apply Z.leb_le in Hc.
  cbn [fold_left]. specialize (IH (dec_step a c)). unfold dec_step in *.
  pose proof (IH ltac:(lia) Hr). lia.
Qed.

Lemma prefix_loop_spec (s : str) : forall a, 0 <= a <= 128 ->
  prefix_loop s a =
  if forallb is_digit s && (fold_left dec_step s a <=? 128) then Some (fold_left dec_step s a) else None.
Proof.
  induction s as [|c r IH]; intros a Ha.
  - cbn. replace (a <=? 128) with true by (symmetry; apply Z.leb_le; lia). reflexivity.
  - cbn [prefix_loop forallb fold_left]. destruct (is_digit c) eqn:D; [|reflexivity].
    cbn [negb andb]. unfold is_digit in D. apply andb_true_iff in D as [D1 D2].
    apply Z.leb_le in D1, D2. unfold BitLen.
    destruct (128 <? a * 10 + (code c - 48)) eqn:E.
    + apply Z.ltb_lt in E. destruct (forallb is_digit r) eqn:F; [|reflexivity].
      pose proof (dec_mono r (dec_step a c) ltac:(unfold dec_step; lia) F). unfold dec_step in *.
      rewrite (proj2 (Z.leb_gt _ 128)) by lia. reflexivity.
    + apply Z.ltb_ge in E. rewrite IH by lia. reflexivity.
Qed.

(** X19: [parsePrefix] accepts exactly the non-empty strings of decimal
    digits (leading zeros allowed) whose value is at most 128, and returns
    that value; anything else gives [(0, ErrInvalidPrefix)]. *)
Lemma parsePrefix_spec (s : str) :
  parsePrefix s =
  if negb (is_nil s) && forallb is_digit s && (dec_value s <=? 128)
  then (dec_value s, None) else (0, Some ErrInvalidPrefix).
Proof.
  unfold parsePrefix. destruct s as [|c t]; [reflexivity|]. cbn [is_nil negb andb].
  rewrite prefix_loop_spec by lia. unfold dec_value.
  destruct (forallb is_digit (c :: t) && (fold_left dec_step (c :: t) 0 <=? 128)) eqn:E; [|reflexivity].
  apply andb_true_iff in E as [E1 E2]. apply Z.leb_le in E2.
  pose proof (dec_mono (c :: t) 0 ltac:(lia) E1). unfold BitLen.
  replace ((fold_left dec_step (c :: t) 0 <? 0) || (128 <? fold_left dec_step (c :: t) 0)) with false
    by (symmetry; apply orb_false_iff; split; [apply Z.ltb_ge|apply Z.ltb_ge]; lia).
  reflexivity.
Qed.












